(** * Premier League dashboard: a shallow embedding of [frontend/public/App.js]

    The bundle is JavaScript.  The parts modelled here are the helpers the
    dashboard's pages rest on: the HTML escaper, the pub/sub store, the
    history and the router with its ranking and matching of routes, and
    the statistics and formatting functions of the team page (form, goal
    frequencies, ranks, the table snippet, the accuracy of predictions).

    Conventions.
    - A JavaScript string is the list of its UTF-16 code units ([jsstring]).
    - A JavaScript number that the code uses as an integer (an index, a
      count, a score) is a [Z]; the integers involved are far below 2^53, so
      the arithmetic on them is exact.
    - A call that throws is modelled by [None] (or an error constructor) of
      the result type. *)

From Stdlib Require Import String Ascii.
From Stdlib Require Import ZArith NArith QArith Qround List Bool Lia.
From Stdlib Require Import Permutation Sorted Floats.
From Equations Require Import Equations.
From Equations.Prop Require Import Logic.
Import ListNotations.

Open Scope Z_scope.

(** ** Strings *)

Definition jsstring := list N.

(** The code units of a literal (the literals of the bundle are ASCII). *)
Definition js (s : string) : jsstring :=
  map N_of_ascii (list_ascii_of_string s).

Fixpoint jsstring_eqb (a b : jsstring) : bool :=
  match a, b with
  | [], [] => true
  | x :: a', y :: b' => N.eqb x y && jsstring_eqb a' b'
  | _, _ => false
  end.

(** [str.slice(from, to)] and [str.substring(from, to)] for
    [0 <= from <= to]: the code units at the indices [from .. to - 1] that
    exist. *)
Definition slice {A : Type} (from to : nat) (l : list A) : list A :=
  firstn (to - from) (skipn from l).

(** [arr[i]] for a number [i]: [undefined] ([None]) outside the array. *)
Definition index {A : Type} (l : list A) (i : Z) : option A :=
  if i <? 0 then None else nth_error l (Z.to_nat i).

(** [a || b] on a possibly undefined string: the empty string and
    [undefined] are falsy. *)
Definition or_else (a : option jsstring) (b : jsstring) : jsstring :=
  match a with
  | Some ((_ :: _) as s) => s
  | _ => b
  end.

(** ** [ordinal] (lib/format) *)

Module Format.

(** [let ord = [, "st", "nd", "rd"]]: index 0 is a hole. *)
Definition ord : list (option jsstring) :=
  [None; Some (js "st"); Some (js "nd"); Some (js "rd")].

Definition ord_at (i : Z) : option jsstring :=
  match index ord i with
  | Some o => o
  | None => None
  end.

(** JavaScript's [%] truncates towards zero: it is [Z.rem]. *)
Definition ordinal (n : Z) : jsstring :=
  let a := Z.rem n 100 in
  or_else (ord_at (if a >? 20 then Z.rem a 10 else a)) (js "th").

(** The English rule the claim states, on the last digit and the last two
    digits. *)
Definition english_suffix (n : Z) : jsstring :=
  let d := n mod 10 in
  let c := n mod 100 in
  if (d =? 1) && negb (c =? 11) then js "st"
  else if (d =? 2) && negb (c =? 12) then js "nd"
  else if (d =? 3) && negb (c =? 13) then js "rd"
  else js "th".

End Format.

(** ** [tableSnippetRange] (TableSnippet.svelte) *)

Module TableSnippet.

(** [arr.indexOf(x)]: the first index holding [x], [-1] when there is none. *)
Fixpoint indexOf (l : list jsstring) (x : jsstring) : Z :=
  match l with
  | [] => -1
  | y :: l' =>
      if jsstring_eqb y x then 0
      else let r := indexOf l' x in if r <? 0 then -1 else r + 1
  end.

Definition tableSnippetRange (sortedTeams : list jsstring) (team : jsstring)
  : Z * Z :=
  let teamStandingsIdx := indexOf sortedTeams team in
  let low := teamStandingsIdx - 3 in
  let high := teamStandingsIdx + 4 in
  let '(low, high) :=
    if low <? 0 then
      let overflow := low in (0, high - overflow)
    else (low, high) in
  let '(low, high) :=
    if high >? Z.of_nat (length sortedTeams) - 1 then
      let overflow := high - Z.of_nat (length sortedTeams) in
      (low - overflow, Z.of_nat (length sortedTeams))
    else (low, high) in
  (low, high).

End TableSnippet.

(** ** [toInitials] (lib/team) *)

Module Team.

(** [String.prototype.toUpperCase] maps each code point through the Unicode
    upper-case mapping, with the unconditional special casings, which may
    lengthen the string.  [upper_unit] is that mapping on the code units
    U+0000..U+00FF. *)
Definition upper_unit (c : N) : jsstring :=
  (if (97 <=? c) && (c <=? 122) then [c - 32]            (* a..z *)
   else if c =? 181 then [924]                           (* micro sign *)
   else if c =? 223 then [83; 83]                        (* sharp s: SS *)
   else if (224 <=? c) && (c <=? 254) && negb (c =? 247) then [c - 32]
   else if c =? 255 then [376]                           (* y diaeresis *)
   else [c])%N.

Definition is_latin1 (s : jsstring) : bool := forallb (fun c => c <? 256)%N s.

(** What is known of [toUpperCase] here: its results on the strings of
    code units up to U+00FF. *)
Definition upper_cases_latin1 (toUpperCase : jsstring -> jsstring) : Prop :=
  forall s, is_latin1 s = true -> toUpperCase s = flat_map upper_unit s.

(** An upper-casing that is right on those strings (and leaves the other
    code units as they are). *)
Definition toUpperCase_latin1 (s : jsstring) : jsstring := flat_map upper_unit s.

(** The [switch] compares with [===]; a name that matches no [case] falls
    out of it. *)
Definition special_initials : list (jsstring * jsstring) :=
  [ (js "Brighton and Hove Albion", js "BHA");
    (js "Manchester City", js "MCI");
    (js "Manchester United", js "MUN");
    (js "Aston Villa", js "AVL");
    (js "Sheffield United", js "SHU");
    (js "West Bromwich Albion", js "WBA");
    (js "West Ham United", js "WHU") ].

Fixpoint switch_case (cases : list (jsstring * jsstring)) (team : jsstring)
  : option jsstring :=
  match cases with
  | [] => None
  | (name, code) :: rest =>
      if jsstring_eqb team name then Some code else switch_case rest team
  end.

Section ToInitials.

(** The language's [toUpperCase], taken as given. *)
Variable toUpperCase : jsstring -> jsstring.

Definition toInitials (team : jsstring) : jsstring :=
  match switch_case special_initials team with
  | Some code => code
  | None => toUpperCase (slice 0 3 team)
  end.

End ToInitials.

Definition is_ascii_unit (c : N) : bool := (c <? 128)%N.

(** Upper-casing of an ASCII code unit: [a..z] to [A..Z], the rest as is. *)
Definition ascii_upper (c : N) : N :=
  (if (97 <=? c) && (c <=? 122) then c - 32 else c)%N.

End Team.

(** ** [escape] (the SSR runtime) *)

Module Ssr.

Definition AMP : N := 38.
Definition QUOT : N := 34.
Definition LT : N := 60.

(** The two global regexes: [ATTR_REGEX] is the class of the ampersand and
    the double quote, [CONTENT_REGEX] the class of the ampersand and the
    less-than sign. *)
Inductive regex := ATTR_REGEX | CONTENT_REGEX.

Definition regex_matches (r : regex) (c : N) : bool :=
  match r with
  | ATTR_REGEX => N.eqb c AMP || N.eqb c QUOT
  | CONTENT_REGEX => N.eqb c AMP || N.eqb c LT
  end.

(** Offset of the first code unit of [l] in the class, if any. *)
Fixpoint find_match (r : regex) (l : jsstring) : option nat :=
  match l with
  | [] => None
  | c :: l' =>
      if regex_matches r c then Some O
      else match find_match r l' with
           | Some k => Some (S k)
           | None => None
           end
  end.

(** [pattern.test(str)] for a global regex whose [lastIndex] is given: the
    search starts at [lastIndex]; a match at index [j] answers [true] and
    leaves [lastIndex = j + 1], a failure answers [false] and leaves
    [lastIndex = 0].  The result is the answer and the new [lastIndex]. *)
Definition test (r : regex) (str : jsstring) (lastIndex : nat) : bool * nat :=
  match find_match r (skipn lastIndex str) with
  | Some k => (true, lastIndex + k + 1)%nat
  | None => (false, O)
  end.

(** The replacement of [ch = str[i]]: the ampersand's entity if [ch] is the
    ampersand, else the double quote's if [ch] is the double quote, else
    the less-than sign's ([None] is [undefined]). *)
Definition entity (ch : option N) : jsstring :=
  match ch with
  | Some c =>
      if N.eqb c AMP then js "&amp;"
      else if N.eqb c QUOT then js "&quot;"
      else js "&lt;"
  | None => js "&lt;"
  end.

Lemma find_match_lt (r : regex) (l : jsstring) (k : nat) :
  find_match r l = Some k -> (k < length l)%nat.
Proof.
  revert k; induction l as [|c l IH]; intros k; simpl; [discriminate|].
  destruct (regex_matches r c); [intros [= <-]; lia|].
  destruct (find_match r l) as [k'|]; [|discriminate].
  intros [= <-]. specialize (IH k' eq_refl). lia.
Qed.

Lemma test_advances (r : regex) (str : jsstring) (lastIndex lastIndex' : nat) :
  test r str lastIndex = (true, lastIndex') ->
  (length str - lastIndex' < length str - lastIndex)%nat.
Proof.
  unfold test. destruct (find_match r (skipn lastIndex str)) as [k|] eqn:E;
    [|discriminate].
  intros [= <-]. apply find_match_lt in E. rewrite length_skipn in E. lia.
Qed.

(** The [while (pattern.test(str))] loop, with its variables [lastIndex]
    (of the regex), [last] and [escaped]; it ends with
    [escaped + str.substring(last)]. *)
Equations escape_loop (r : regex) (str : jsstring)
  (lastIndex last : nat) (escaped : jsstring) : jsstring
  by wf (length str - lastIndex)%nat lt :=
escape_loop r str lastIndex last escaped with inspect (test r str lastIndex) := {
  | exist _ (true, lastIndex') Htest =>
      let i := (lastIndex' - 1)%nat in
      let ch := nth_error str i in
      escape_loop r str lastIndex' (i + 1)%nat
        (escaped ++ slice last i str ++ entity ch);
  | exist _ (false, _) Htest => escaped ++ skipn last str }.
Next Obligation. eapply test_advances; eauto. Qed.

Section Escape.

(** [String(value)] is not part of the bundle: it is the language's
    conversion, taken as given; [None] when the conversion throws. *)
Variable Value : Type.
Variable ToString : Value -> option jsstring.

Definition escape (value : Value) (is_attr : bool) : option jsstring :=
  match ToString value with
  | None => None
  | Some str =>
      let pattern := if is_attr then ATTR_REGEX else CONTENT_REGEX in
      (* pattern.lastIndex = 0; escaped = ''; last = 0 *)
      Some (escape_loop pattern str 0 0 [])
  end.

End Escape.

(** The per-character reference of the claim. *)
Definition escape_unit (is_attr : bool) (c : N) : jsstring :=
  if N.eqb c AMP then js "&amp;"
  else if is_attr then (if N.eqb c QUOT then js "&quot;" else [c])
  else (if N.eqb c LT then js "&lt;" else [c]).

Definition escape_reference (is_attr : bool) (str : jsstring) : jsstring :=
  flat_map (escape_unit is_attr) str.

End Ssr.

(** ** The store ([safe_not_equal], [writable]) *)

Module Store.

(** JavaScript values.  Numbers are IEEE doubles; an object or a function is
    known by its reference. *)
Inductive value :=
| VUndefined
| VNull
| VBool (b : bool)
| VNumber (x : float)
| VBigInt (z : Z)
| VString (s : jsstring)
| VSymbol (ref : nat)
| VObject (ref : nat)
| VFunction (ref : nat).

Inductive type_name :=
| t_undefined | t_object | t_boolean | t_number | t_bigint | t_string
| t_symbol | t_function.

Definition typeof (a : value) : type_name :=
  match a with
  | VUndefined => t_undefined
  | VNull => t_object
  | VBool _ => t_boolean
  | VNumber _ => t_number
  | VBigInt _ => t_bigint
  | VString _ => t_string
  | VSymbol _ => t_symbol
  | VObject _ => t_object
  | VFunction _ => t_function
  end.

Definition type_name_eqb (s t : type_name) : bool :=
  match s, t with
  | t_undefined, t_undefined | t_object, t_object | t_boolean, t_boolean
  | t_number, t_number | t_bigint, t_bigint | t_string, t_string
  | t_symbol, t_symbol | t_function, t_function => true
  | _, _ => false
  end.

(** [a === b]: IEEE equality on numbers (NaN differs from itself, the two
    zeros are equal), identity on references. *)
Definition strict_equal (a b : value) : bool :=
  match a, b with
  | VUndefined, VUndefined => true
  | VNull, VNull => true
  | VBool x, VBool y => Bool.eqb x y
  | VNumber x, VNumber y => PrimFloat.eqb x y
  | VBigInt x, VBigInt y => Z.eqb x y
  | VString x, VString y => jsstring_eqb x y
  | VSymbol x, VSymbol y => Nat.eqb x y
  | VObject x, VObject y => Nat.eqb x y
  | VFunction x, VFunction y => Nat.eqb x y
  | _, _ => false
  end.

(** [a == a]: both sides have the same type, where [==] is [===]. *)
Definition equals_itself (a : value) : bool := strict_equal a a.

Definition truthy (a : value) : bool :=
  match a with
  | VUndefined | VNull => false
  | VBool b => b
  | VNumber x => negb (PrimFloat.eqb x 0%float) && PrimFloat.eqb x x
  | VBigInt z => negb (Z.eqb z 0)
  | VString s => match s with [] => false | _ => true end
  | VSymbol _ | VObject _ | VFunction _ => true
  end.

(** [a != a ? b == b
            : a !== b || ((a && typeof a === 'object') || typeof a === 'function')] *)
Definition safe_not_equal (a b : value) : bool :=
  if negb (equals_itself a) then equals_itself b
  else negb (strict_equal a b)
       || ((truthy a && type_name_eqb (typeof a) t_object)
           || type_name_eqb (typeof a) t_function).

Definition is_primitive (a : value) : bool :=
  match a with
  | VObject _ | VFunction _ => false
  | _ => true
  end.

Definition is_nan (a : value) : bool :=
  match a with
  | VNumber x => negb (PrimFloat.eqb x x)
  | _ => false
  end.

(** The same value up to the sign of zero (what [Array.prototype.includes]
    and [Set] use): [===], or both NaN. *)
Definition same_value_zero (a b : value) : bool :=
  strict_equal a b || (is_nan a && is_nan b).

(** A subscriber is the array [[run, invalidate]] that [subscribe] builds;
    [sub_ref] is the identity of that array, [run] and [invalidate] are the
    references of the two callbacks. *)
Record subscriber := {
  sub_ref : nat;
  run : nat;
  invalidate : nat
}.

(** What the store does to the rest of the program is the sequence of its
    calls to the subscribers' callbacks.  A callback is opaque: its call is
    recorded, and it does not call back into the store while it runs. *)
Inductive event :=
| Invalidated (s : subscriber)          (* subscriber[1]() *)
| Ran (s : subscriber) (v : value).     (* subscriber[0](v) *)

(** The variable [stop] of the closure: not yet assigned, the function
    [start(set) || noop], or [null]. *)
Inductive stop_state := stop_undefined | stop_function | stop_null.

Definition stop_truthy (s : stop_state) : bool :=
  match s with stop_function => true | _ => false end.

(** The closure of [writable] ([value], [stop], [subscribers]), the
    module-level [subscriber_queue], the calls made so far, and the next
    fresh reference. *)
Record world := {
  value_of : value;
  stop : stop_state;
  subscribers : list subscriber;
  subscriber_queue : list (subscriber * value);
  trace : list event;
  next_ref : nat
}.

(** [writable(value)] with the default [start = noop]. *)
Definition writable (v : value) : world :=
  {| value_of := v; stop := stop_undefined; subscribers := [];
     subscriber_queue := []; trace := []; next_ref := O |}.

(** [for (const subscriber of subscribers)
       { subscriber[1](); subscriber_queue.push(subscriber, value); }] *)
Definition enqueue_all (subs : list subscriber) (v : value)
  (queue : list (subscriber * value)) (tr : list event)
  : list (subscriber * value) * list event :=
  fold_left (fun '(q, t) s => (q ++ [(s, v)], t ++ [Invalidated s]))
            subs (queue, tr).

(** [for (let i = 0; i < subscriber_queue.length; i += 2)
       subscriber_queue[i][0](subscriber_queue[i + 1]);] *)
Definition run_queue_all (queue : list (subscriber * value)) (tr : list event)
  : list event :=
  fold_left (fun t '(s, v) => t ++ [Ran s v]) queue tr.

Definition set (new_value : value) (w : world) : world :=
  if safe_not_equal (value_of w) new_value then
    if stop_truthy (stop w) then
      let run_queue := match subscriber_queue w with [] => true | _ => false end in
      let '(queue, tr) :=
        enqueue_all (subscribers w) new_value (subscriber_queue w) (trace w) in
      if run_queue then
        {| value_of := new_value; stop := stop w; subscribers := subscribers w;
           subscriber_queue := []; trace := run_queue_all queue tr;
           next_ref := next_ref w |}
      else
        {| value_of := new_value; stop := stop w; subscribers := subscribers w;
           subscriber_queue := queue; trace := tr; next_ref := next_ref w |}
    else
      {| value_of := new_value; stop := stop w; subscribers := subscribers w;
         subscriber_queue := subscriber_queue w; trace := trace w;
         next_ref := next_ref w |}
  else w.

(** [fn] is the updater the caller passes, a function of the current
    value. *)
Definition update (fn : value -> value) (w : world) : world :=
  set (fn (value_of w)) w.

(** [subscribe(run, invalidate)]: the new subscriber (the returned closure
    unsubscribes it) and the new state.  With [start = noop],
    [stop = start(set) || noop] is [noop]. *)
Definition subscribe (run_fn invalidate_fn : nat) (w : world)
  : subscriber * world :=
  let s := {| sub_ref := next_ref w; run := run_fn; invalidate := invalidate_fn |} in
  let subs := subscribers w ++ [s] in
  let stop' := if Nat.eqb (length subs) 1 then stop_function else stop w in
  (s, {| value_of := value_of w; stop := stop'; subscribers := subs;
         subscriber_queue := subscriber_queue w;
         trace := trace w ++ [Ran s (value_of w)];
         next_ref := S (next_ref w) |}).

Definition delete (s : subscriber) (subs : list subscriber) : list subscriber :=
  filter (fun s' => negb (Nat.eqb (sub_ref s') (sub_ref s))) subs.

(** The closure [subscribe] returns.  [stop()] throws when [stop] is not a
    function: [None]. *)
Definition unsubscribe (s : subscriber) (w : world) : option world :=
  let subs := delete s (subscribers w) in
  if Nat.eqb (length subs) 0 then
    if stop_truthy (stop w) then
      Some {| value_of := value_of w; stop := stop_null; subscribers := subs;
              subscriber_queue := subscriber_queue w; trace := trace w;
              next_ref := next_ref w |}
    else None
  else
    Some {| value_of := value_of w; stop := stop w; subscribers := subs;
            subscriber_queue := subscriber_queue w; trace := trace w;
            next_ref := next_ref w |}.

(** The states a program reaches from [writable(v)] by calling the store's
    three methods and the closures [subscribe] returned. *)
Inductive reachable : world -> Prop :=
| reach_writable (v : value) : reachable (writable v)
| reach_set (v : value) (w : world) : reachable w -> reachable (set v w)
| reach_update (fn : value -> value) (w : world) :
    reachable w -> reachable (update fn w)
| reach_subscribe (run_fn invalidate_fn : nat) (w : world) :
    reachable w -> reachable (snd (subscribe run_fn invalidate_fn w))
| reach_unsubscribe (s : subscriber) (w w' : world) :
    reachable w -> unsubscribe s w = Some w' -> reachable w'.

End Store.

(** ** Objects as property lists *)

(** A plain object whose keys are strings: its properties in the order of
    [Object.keys]. *)
Definition object (V : Type) := list (jsstring * V).

Fixpoint get {V : Type} (o : object V) (k : jsstring) : option V :=
  match o with
  | [] => None
  | (k', v) :: o' => if jsstring_eqb k' k then Some v else get o' k
  end.

(** [o[k] = v]: an existing property keeps its place, a new one goes last. *)
Fixpoint put {V : Type} (o : object V) (k : jsstring) (v : V) : object V :=
  match o with
  | [] => [(k, v)]
  | (k', v') :: o' =>
      if jsstring_eqb k' k then (k', v) :: o' else (k', v') :: put o' k v
  end.

(** The number a key stands for when it is an array index: the decimal
    form, without a leading zero, of an integer from 0 to 2^32 - 2.
    [Object.keys] lists such keys first, in ascending order. *)
Fixpoint digits_value (s : jsstring) (acc : N) : option N :=
  match s with
  | [] => Some acc
  | c :: s' =>
      if ((48 <=? c) && (c <=? 57))%N then digits_value s' (10 * acc + (c - 48))%N
      else None
  end.

Definition array_index (k : jsstring) : option N :=
  match k with
  | [] => None
  | c :: rest =>
      if N.eqb c 48 && negb (match rest with [] => true | _ => false end) then None
      else
        match digits_value k 0 with
        | Some n => if (n <=? 4294967294)%N then Some n else None
        | None => None
        end
  end.

(** Where a new property whose key is the array index [n] goes: after the
    smaller indices, before the larger ones and before every other key. *)
Fixpoint insert_index {V : Type} (o : object V) (n : N) (k : jsstring) (v : V)
  : object V :=
  match o with
  | [] => [(k, v)]
  | (k', v') :: o' =>
      match array_index k' with
      | Some n' =>
          if (n' <? n)%N then (k', v') :: insert_index o' n k v
          else (k, v) :: o
      | None => (k, v) :: o
      end
  end.

(** [o[k] = v] on an object made by [{}], for a value [v] that is a
    string.  The key [__proto__] is the accessor of [Object.prototype],
    whose setter ignores a value that is neither an object nor [null]: no
    property is made.  Otherwise an existing property keeps its place, a
    new array index goes among the indices, and any other new key goes
    last. *)
Definition set_property (o : object jsstring) (k : jsstring) (v : jsstring)
  : object jsstring :=
  if jsstring_eqb k (js "__proto__") then o
  else
    match get o k with
    | Some _ => put o k v
    | None =>
        match array_index k with
        | Some n => insert_index o n k v
        | None => o ++ [(k, v)]
        end
    end.

(** ** Clean sheets ([lib/goals], StatsValues.svelte) *)

Module StatsValues.

Record score := { homeGoals : Z; awayGoals : Z }.

(** An entry of [data.form[team][season]]: [score] is [null] until the
    match is played. *)
Record fixture := { fx_score : option score; atHome : bool }.

(** The fetched statistics, as far as [buildStats] reads them: [_id] is the
    current season, [standings] the keys of [data.standings], and
    [form team] is [data.form[team]] ([None] when [team in data.form] is
    false), whose value at a season is [data.form[team][season]], [None]
    when the team's form has no such season; a season's entries come in
    [Object.keys] order, with their matchday. *)
Record data := {
  _id : Z;
  standings : list jsstring;
  form : jsstring -> option (Z -> option (list (jsstring * fixture)))
}.

(** The entries a [for ... in] visits: none when the season is
    [undefined]. *)
Definition entries (season : option (list (jsstring * fixture)))
  : list (jsstring * fixture) :=
  match season with
  | Some l => l
  | None => []
  end.

Definition isCleanSheet (h a : Z) (atHome : bool) : bool :=
  ((a =? 0) && atHome) || ((h =? 0) && negb atHome).

Definition notScored (h a : Z) (atHome : bool) : bool :=
  ((h =? 0) && atHome) || ((a =? 0) && negb atHome).

Definition goalsScored (h a : Z) (atHome : bool) : Z :=
  if atHome then h else a.

Definition goalsConceded (h a : Z) (atHome : bool) : Z :=
  if atHome then a else h.

(** The numbers of a team's entry.  They are kept exact here (rationals): a
    count is exact in a double, and the double the code stores for a
    quotient is the rounding of the rational. *)
Record team_stats := {
  cleanSheetRatio : Q;
  noGoalRatio : Q;
  xC : Q;
  xG : Q;
  played : Q
}.

(** The body of the loop of [countOccurances] for one played match. *)
Definition count_match (sc : score) (home : bool) (e : team_stats) : team_stats :=
  let e := if isCleanSheet (homeGoals sc) (awayGoals sc) home
           then {| cleanSheetRatio := (cleanSheetRatio e + 1)%Q;
                   noGoalRatio := noGoalRatio e; xC := xC e; xG := xG e;
                   played := played e |}
           else e in
  let e := if notScored (homeGoals sc) (awayGoals sc) home
           then {| cleanSheetRatio := cleanSheetRatio e;
                   noGoalRatio := (noGoalRatio e + 1)%Q; xC := xC e; xG := xG e;
                   played := played e |}
           else e in
  {| cleanSheetRatio := cleanSheetRatio e; noGoalRatio := noGoalRatio e;
     xC := (xC e + inject_Z (goalsConceded (homeGoals sc) (awayGoals sc) home))%Q;
     xG := (xG e + inject_Z (goalsScored (homeGoals sc) (awayGoals sc) home))%Q;
     played := (played e + 1)%Q |}.

(** [seasonStats[team].field += ...]; reading a field of
    [seasonStats[team]] throws when the entry is missing ([None]). *)
Definition count_matchday (team : jsstring) (seasonStats : object team_stats)
  (m : fixture) : option (object team_stats) :=
  match fx_score m with
  | None => Some seasonStats
  | Some sc =>
      match get seasonStats team with
      | None => None
      | Some e => Some (put seasonStats team (count_match sc (atHome m) e))
      end
  end.

Fixpoint count_matchdays (team : jsstring) (seasonStats : object team_stats)
  (entries : list (jsstring * fixture)) : option (object team_stats) :=
  match entries with
  | [] => Some seasonStats
  | (_, m) :: rest =>
      match count_matchday team seasonStats m with
      | None => None
      | Some seasonStats' => count_matchdays team seasonStats' rest
      end
  end.

(** [Object.keys(data.form[team][season])] throws when the team's form
    has no such season: [None]. *)
Definition countOccurances (d : data) (seasonStats : object team_stats)
  (team : jsstring) (season : Z) : option (object team_stats) :=
  match form d team with
  | None => Some seasonStats
  | Some seasons =>
      match seasons season with
      | None => None
      | Some matchdays => count_matchdays team seasonStats matchdays
      end
  end.

Definition zero_stats : team_stats :=
  {| cleanSheetRatio := 0; noGoalRatio := 0; xC := 0; xG := 0; played := 0 |}.

(** [stats[team].xG /= stats[team].played] and the three like it.  The
    quotient is kept exact: what the code stores is the double nearest to
    it, so a statement about a stored ratio holds up to that rounding. *)
Definition divide_by_played (e : team_stats) : team_stats :=
  if Qlt_le_dec 0 (played e) then
    {| cleanSheetRatio := (cleanSheetRatio e / played e)%Q;
       noGoalRatio := (noGoalRatio e / played e)%Q;
       xC := (xC e / played e)%Q;
       xG := (xG e / played e)%Q;
       played := played e |}
  else e.

(** The body of the loop of [buildStats] for one team. *)
Definition build_team (d : data) (stats : object team_stats) (team : jsstring)
  : option (object team_stats) :=
  let stats := put stats team zero_stats in
  match countOccurances d stats team (_id d) with
  | None => None
  | Some stats =>
      match countOccurances d stats team (_id d - 1) with
      | None => None
      | Some stats =>
          match get stats team with
          | None => None
          | Some e => Some (put stats team (divide_by_played e))
          end
      end
  end.

Fixpoint build_teams (d : data) (stats : object team_stats)
  (teams : list jsstring) : option (object team_stats) :=
  match teams with
  | [] => Some stats
  | team :: rest =>
      match build_team d stats team with
      | None => None
      | Some stats' => build_teams d stats' rest
      end
  end.

Definition buildStats (d : data) : option (object team_stats) :=
  build_teams d [] (standings d).

(** The matches of the claim: those of seasons [_id] and [_id - 1] that have
    a score, with the side the team played on. *)
Definition season_fixtures (d : data) (team : jsstring) (season : Z)
  : list fixture :=
  match form d team with
  | None => []
  | Some seasons => map snd (entries (seasons season))
  end.

Definition played_matches (d : data) (team : jsstring) : list (score * bool) :=
  flat_map (fun m => match fx_score m with
                     | Some sc => [(sc, atHome m)]
                     | None => []
                     end)
           (season_fixtures d team (_id d) ++ season_fixtures d team (_id d - 1)).

(** The team conceded no goal: the away goals are zero at home, the home
    goals are zero away. *)
Definition conceded_none (m : score * bool) : bool :=
  let '(sc, home) := m in
  if home then awayGoals sc =? 0 else homeGoals sc =? 0.

End StatsValues.

(** ** [decodeURIComponent] *)

(** The language's [decodeURIComponent], which the router calls on the
    segments of the URI, written after its definition in ECMA-262
    ([Decode] with an empty set of preserved escapes): every [%XX] is an
    octet, the octets must be well-formed UTF-8, and the code points they
    encode come out as UTF-16.  [None] is the [URIError] it throws. *)
Module Uri.

Definition PERCENT : N := 37.

Definition hex_digit (c : N) : option N :=
  (if (48 <=? c) && (c <=? 57) then Some (c - 48)
   else if (65 <=? c) && (c <=? 70) then Some (c - 55)
   else if (97 <=? c) && (c <=? 102) then Some (c - 87)
   else None)%N.

Inductive token :=
| Lit (c : N)        (* a code unit that stands for itself *)
| Octet (b : N).     (* an escape sequence %XX *)

Fixpoint tokens (s : jsstring) : option (list token) :=
  match s with
  | [] => Some []
  | c :: s' =>
      if N.eqb c PERCENT then
        match s' with
        | h :: l :: rest =>
            match hex_digit h, hex_digit l, tokens rest with
            | Some a, Some b, Some ts => Some (Octet (16 * a + b)%N :: ts)
            | _, _, _ => None
            end
        | _ => None
        end
      else
        match tokens s' with
        | Some ts => Some (Lit c :: ts)
        | None => None
        end
  end.

Definition continuation (b : N) : bool := ((128 <=? b) && (b <=? 191))%N.

Definition utf16 (cp : N) : jsstring :=
  (if cp <? 65536 then [cp]
   else [55296 + (cp - 65536) / 1024; 56320 + (cp - 65536) mod 1024])%N.

(** The octets after the first must be escape sequences too. *)
Fixpoint utf8 (ts : list token) : option jsstring :=
  match ts with
  | [] => Some []
  | Lit c :: r =>
      match utf8 r with Some out => Some (c :: out) | None => None end
  | Octet b :: r =>
      (if b <? 128 then
         match utf8 r with Some out => Some (b :: out) | None => None end
       else if (194 <=? b) && (b <=? 223) then
         match r with
         | Octet b1 :: r1 =>
             if continuation b1 then
               match utf8 r1 with
               | Some out => Some (utf16 ((b - 192) * 64 + (b1 - 128)) ++ out)
               | None => None
               end
             else None
         | _ => None
         end
       else if (224 <=? b) && (b <=? 239) then
         match r with
         | Octet b1 :: Octet b2 :: r2 =>
             if continuation b1 && continuation b2
                && negb ((b =? 224) && (b1 <? 160))      (* overlong *)
                && negb ((b =? 237) && (160 <=? b1))     (* surrogate *)
             then
               match utf8 r2 with
               | Some out =>
                   Some (utf16 ((b - 224) * 4096 + (b1 - 128) * 64 + (b2 - 128))
                         ++ out)
               | None => None
               end
             else None
         | _ => None
         end
       else if (240 <=? b) && (b <=? 244) then
         match r with
         | Octet b1 :: Octet b2 :: Octet b3 :: r3 =>
             if continuation b1 && continuation b2 && continuation b3
                && negb ((b =? 240) && (b1 <? 144))      (* overlong *)
                && negb ((b =? 244) && (144 <=? b1))     (* above U+10FFFF *)
             then
               match utf8 r3 with
               | Some out =>
                   Some (utf16 ((b - 240) * 262144 + (b1 - 128) * 4096
                                + (b2 - 128) * 64 + (b3 - 128))
                         ++ out)
               | None => None
               end
             else None
         | _ => None
         end
       else None)%N
  end.

Definition decodeURIComponent (s : jsstring) : option jsstring :=
  match tokens s with
  | Some ts => utf8 ts
  | None => None
  end.

End Uri.

(** ** The router's utilities ([rankRoute], [rankRoutes], [pick]) *)

(** [Array.prototype.sort] is stable, and with a comparator that orders
    the elements consistently (those of this bundle compare a score and an
    index, or two time values) the sorted array is determined: a stable
    insertion sort computes it.  [cmp a b <= 0] keeps [a] before [b]. *)
Section Sort.

Variable A : Type.
Variable cmp : A -> A -> Z.

Fixpoint insert (x : A) (l : list A) : list A :=
  match l with
  | [] => [x]
  | y :: l' => if cmp x y <=? 0 then x :: y :: l' else y :: insert x l'
  end.

Definition sort (l : list A) : list A := fold_right insert [] l.

End Sort.

Arguments insert {A} cmp x l.
Arguments sort {A} cmp l.

Module Router.

Definition SLASH : N := 47.
Definition COLON : N := 58.
Definition STAR : N := 42.
Definition QUESTION : N := 63.

Definition SEGMENT_POINTS : Z := 4.
Definition STATIC_POINTS : Z := 3.
Definition DYNAMIC_POINTS : Z := 2.
Definition SPLAT_PENALTY : Z := 1.
Definition ROOT_POINTS : Z := 1.

(** A route is [{ path, default, value }]; [value] is the payload the
    router hands back, opaque here. *)
Record route := {
  path : jsstring;
  default : bool;
  value : nat
}.

(** [str.split(sep)] for a one-character separator: never empty. *)
Fixpoint split (sep : N) (s : jsstring) : list jsstring :=
  match s with
  | [] => [[]]
  | c :: s' =>
      if N.eqb c sep then [] :: split sep s'
      else match split sep s' with
           | seg :: rest => (c :: seg) :: rest
           | [] => [[c]]
           end
  end.

(** [arr.join(sep)] *)
Fixpoint join (sep : N) (l : list jsstring) : jsstring :=
  match l with
  | [] => []
  | [s] => s
  | s :: rest => s ++ sep :: join sep rest
  end.

Fixpoint strip_leading (s : jsstring) : jsstring :=
  match s with
  | c :: s' => if N.eqb c SLASH then strip_leading s' else s
  | [] => []
  end.

(** [str.replace(/(^\/+|\/+$)/g, "")]: the slashes at the start go, then
    those at the end. *)
Definition stripSlashes (s : jsstring) : jsstring :=
  rev (strip_leading (rev (strip_leading s))).

Definition segmentize (uri : jsstring) : list jsstring :=
  split SLASH (stripSlashes uri).

Definition isRootSegment (segment : jsstring) : bool :=
  match segment with [] => true | _ => false end.

(** The dot of a regex without the [s] flag matches any code unit but a
    line terminator (LF, CR, U+2028, U+2029). *)
Definition line_terminator (c : N) : bool :=
  (N.eqb c 10 || N.eqb c 13 || N.eqb c 8232 || N.eqb c 8233)%N.

Fixpoint dot_plus (s : jsstring) : jsstring :=
  match s with
  | c :: s' => if line_terminator c then [] else c :: dot_plus s'
  | [] => []
  end.

(** [paramRe.exec(segment)] for [paramRe = /^:(.+)/]: the first group of
    the match, [None] for [null]. *)
Definition paramRe_exec (segment : jsstring) : option jsstring :=
  match segment with
  | c :: rest =>
      if N.eqb c COLON then
        match dot_plus rest with
        | [] => None
        | name => Some name
        end
      else None
  | [] => None
  end.

Definition isDynamic (segment : jsstring) : bool :=
  match paramRe_exec segment with Some _ => true | None => false end.

(** [segment[0] === "*"] *)
Definition isSplat (segment : jsstring) : bool :=
  match segment with
  | c :: _ => N.eqb c STAR
  | [] => false
  end.

Record ranked := {
  r_route : route;
  r_score : Z;
  r_index : Z
}.

(** The callback of the [reduce] of [rankRoute]. *)
Definition add_segment (score : Z) (segment : jsstring) : Z :=
  let score := score + SEGMENT_POINTS in
  if isRootSegment segment then score + ROOT_POINTS
  else if isDynamic segment then score + DYNAMIC_POINTS
  else if isSplat segment then score - (SEGMENT_POINTS + SPLAT_PENALTY)
  else score + STATIC_POINTS.

Definition rankRoute (r : route) (index : Z) : ranked :=
  let score :=
    if default r then 0
    else fold_left add_segment (segmentize (path r)) 0 in
  {| r_route := r; r_score := score; r_index := index |}.

(** [routes.map(rankRoute)], the callback receiving the index. *)
Fixpoint map_indexed (routes : list route) (from : Z) : list ranked :=
  match routes with
  | [] => []
  | r :: rest => rankRoute r from :: map_indexed rest (from + 1)
  end.

Definition compare_ranked (a b : ranked) : Z :=
  if r_score a <? r_score b then 1
  else if r_score a >? r_score b then -1
  else r_index a - r_index b.

Definition rankRoutes (routes : list route) : list ranked :=
  sort compare_ranked (map_indexed routes 0).

(** A match is [{ route, params, uri }]. *)
Record matched := {
  m_route : route;
  m_params : object jsstring;
  m_uri : jsstring
}.

Inductive outcome :=
| Missed                                           (* missed = true *)
| Hit (params : object jsstring) (index : nat)     (* the loop ended or broke on a splat *)
| Threw.                                           (* URIError *)

(** [arr.map(decodeURIComponent)] *)
Fixpoint decode_all (l : list jsstring) : option (list jsstring) :=
  match l with
  | [] => Some []
  | s :: rest =>
      match Uri.decodeURIComponent s, decode_all rest with
      | Some d, Some ds => Some (d :: ds)
      | _, _ => None
      end
  end.

(** The inner [for] loop of [pick] from [index] on: [routeSegments] and
    [uriSegments] are what is left of the two arrays from [index] (an
    empty list: the array has no element at [index]). *)
Fixpoint match_segments (isRootUri : bool) (routeSegments uriSegments : list jsstring)
  (params : object jsstring) (index : nat) : outcome :=
  match routeSegments, uriSegments with
  | [], [] => Hit params index                     (* index = max *)
  | [], _ :: _ =>
      (* routeSegment is undefined: paramRe.exec gives null, and
         routeSegment !== uriSegment *)
      Missed
  | routeSegment :: routeRest, _ =>
      if isSplat routeSegment then
        let splatName :=
          if jsstring_eqb routeSegment [STAR] then [STAR]
          else slice 1 (length routeSegment) routeSegment in
        match decode_all uriSegments with
        | Some decoded =>
            Hit (set_property params splatName (join SLASH decoded)) index
        | None => Threw
        end
      else
        match uriSegments with
        | [] => Missed                              (* uriSegment === undefined *)
        | uriSegment :: uriRest =>
            match paramRe_exec routeSegment with
            | Some name =>
                if negb isRootUri then
                  match Uri.decodeURIComponent uriSegment with
                  | Some value =>
                      match_segments isRootUri routeRest uriRest
                        (set_property params name value) (S index)
                  | None => Threw
                  end
                else if negb (jsstring_eqb routeSegment uriSegment) then Missed
                else match_segments isRootUri routeRest uriRest params (S index)
            | None =>
                if negb (jsstring_eqb routeSegment uriSegment) then Missed
                else match_segments isRootUri routeRest uriRest params (S index)
            end
        end
  end.

(** The state [pick] computes before its loop. *)
Definition uriPathname (uri : jsstring) : jsstring :=
  match split QUESTION uri with
  | p :: _ => p
  | [] => []
  end.

Definition uriSegments (uri : jsstring) : list jsstring :=
  segmentize (uriPathname uri).

Definition isRootUri (uri : jsstring) : bool :=
  match uriSegments uri with
  | [] :: _ => true
  | _ => false
  end.

Definition match_route (r : route) (uri : jsstring) : outcome :=
  match_segments (isRootUri uri) (segmentize (path r)) (uriSegments uri) [] 0.

(** The outer loop of [pick].  The result is [match || default_ || null]
    ([Some None] for [null]); [None] when [decodeURIComponent] threw. *)
Fixpoint pick_loop (rankedRoutes : list ranked) (uri : jsstring)
  (default_ : option matched) : option (option matched) :=
  match rankedRoutes with
  | [] => Some default_
  | r :: rest =>
      let route := r_route r in
      if default route then
        pick_loop rest uri
          (Some {| m_route := route; m_params := []; m_uri := uri |})
      else
        match match_route route uri with
        | Threw => None
        | Missed => pick_loop rest uri default_
        | Hit params index =>
            Some (Some {| m_route := route; m_params := params;
                          m_uri := SLASH :: join SLASH (slice 0 index (uriSegments uri)) |})
        end
  end.

Definition pick (routes : list route) (uri : jsstring) : option (option matched) :=
  pick_loop (rankRoutes routes) uri None.

(** The score of the claim: per segment, 4 points plus 3 for a static
    segment, 2 for a dynamic one, 1 for the root segment, minus 5 for a
    splat. *)
Definition segment_points (segment : jsstring) : Z :=
  4 + (if isRootSegment segment then 1
       else if isDynamic segment then 2
       else if isSplat segment then -5
       else 3).

Definition route_score (r : route) : Z :=
  fold_right Z.add 0 (map segment_points (segmentize (path r))).

End Router.

(** ** The Dashboard page ([initDashboard], [switchTeam]) *)

Module Dashboard.

Definition TEAMS_URL : jsstring :=
  js "https://pldashboard-backend.vercel.app/api/teams".

(** What the page does to the world outside its variables. *)
Inductive effect :=
| Fetch (url : jsstring)                  (* fetch(url) *)
| PushState (url : jsstring)              (* history.pushState(_, _, url) *)
| SetLocation (href : jsstring)           (* window.location.href = href *)
| ConsoleLog                              (* console.log(data) *)
| DispatchResize.                         (* window.dispatchEvent(new Event("resize")) *)

Definition is_fetch (e : effect) : bool :=
  match e with Fetch _ => true | _ => false end.

(** How an [async] function or a call ends. *)
Inductive completion := Fulfilled | Rejected.

Section Page.

(** The parsed body of the response, and what the helpers make of it.  The
    helpers ([toTitleCase], [toHyphenatedName], [currentMatchday],
    [playedMatchdayDates]) format names and collect matchdays; their
    results do not bear on the fetch and are taken as given.  [None] is a
    throw: [Object.keys(json.standings)] throws when [standings] is
    missing, and the two matchday helpers when the team has no form. *)
Variable Json : Type.
Variable Matchday : Type.
Variable Dates : Type.
Variable standings_keys : Json -> option (list jsstring).
Variable toTitleCase : jsstring -> jsstring.
Variable toHyphenatedName : jsstring -> jsstring.
Variable currentMatchday : Json -> jsstring -> option Matchday.
Variable playedMatchdayDates : Json -> jsstring -> option Dates.
Variable location_href : jsstring.

(** The answer of the network to the one request: [fetch] rejects, or it
    resolves to a response whose [json()] rejects ([Body None]) or resolves
    to a value. *)
Inductive response :=
| NetworkError
| Body (json : option Json).

(** The variables of the component ([None]: [undefined] or [null]). *)
Record component := {
  hyphenatedTeam : option jsstring;
  title : jsstring;
  team : option jsstring;
  teams : list jsstring;
  currentMatchday_1 : option Matchday;
  playedDates : option Dates;
  data : option Json
}.

(** The state of a component that was just created with the prop
    [hyphenatedTeam]. *)
Definition created (prop : option jsstring) : component :=
  {| hyphenatedTeam := prop; title := js "Dashboard"; team := Some [];
     teams := []; currentMatchday_1 := None; playedDates := None;
     data := None |}.

(** [`Dashboard | ${team}`] *)
Definition title_of (team : option jsstring) : jsstring :=
  js "Dashboard | " ++ match team with Some t => t | None => js "undefined" end.

(** [str.replace(/\-/g, " ")] *)
Definition hyphens_to_spaces (s : jsstring) : jsstring :=
  map (fun c => if N.eqb c 45 then 32%N else c) s.

Definition is_overview (t : option jsstring) (name : jsstring) : bool :=
  match t with Some s => jsstring_eqb s name | None => false end.

(** The statements of [initDashboard] before the [fetch]. *)
Definition name_page (c : component) : component :=
  if is_overview (hyphenatedTeam c) (js "overview") then
    {| hyphenatedTeam := Some (js "overview");
       title := title_of (Some (js "Overview")); team := Some (js "Overview");
       teams := teams c; currentMatchday_1 := currentMatchday_1 c;
       playedDates := playedDates c; data := data c |}
  else match hyphenatedTeam c with
       | Some h =>
           let t := Some (toTitleCase (hyphens_to_spaces h)) in
           {| hyphenatedTeam := hyphenatedTeam c; title := title_of t; team := t;
              teams := teams c; currentMatchday_1 := currentMatchday_1 c;
              playedDates := playedDates c; data := data c |}
       | None => c
       end.

(** The statements after [teams = Object.keys(json.standings)] up to, and
    without, [data = json]: the result is the state, the effects, and
    whether a statement threw. *)
Definition select_team (json : Json) (keys : list jsstring) (c : component)
  : component * list effect * completion :=
  let c := {| hyphenatedTeam := hyphenatedTeam c; title := title c; team := team c;
              teams := keys; currentMatchday_1 := currentMatchday_1 c;
              playedDates := playedDates c; data := data c |} in
  let '(c, effects, outcome) :=
    match hyphenatedTeam c with
    | None =>
        (* If root, set team to current leader *)
        let t := nth_error keys 0 in
        let c := {| hyphenatedTeam := hyphenatedTeam c; title := title_of t;
                    team := t; teams := teams c;
                    currentMatchday_1 := currentMatchday_1 c;
                    playedDates := playedDates c; data := data c |} in
        match t with
        | None => (c, [], Rejected)       (* toHyphenatedName(undefined) throws *)
        | Some name =>
            let h := toHyphenatedName name in
            ({| hyphenatedTeam := Some h; title := title c; team := team c;
                teams := teams c; currentMatchday_1 := currentMatchday_1 c;
                playedDates := playedDates c; data := data c |},
             [PushState (location_href ++ h)], Fulfilled)
        end
    | Some _ =>
        if negb (is_overview (team c) (js "Overview"))
           && negb (match team c with
                    | Some t => existsb (jsstring_eqb t) keys
                    | None => false
                    end)
        then (c, [SetLocation (js "/error")], Fulfilled)
        else (c, [], Fulfilled)
    end in
  match outcome with
  | Rejected => (c, effects, Rejected)
  | Fulfilled =>
      if negb (is_overview (team c) (js "Overview")) then
        match team c with
        | None => (c, effects, Rejected)
        | Some t =>
            match currentMatchday json t with
            | None => (c, effects, Rejected)
            | Some m =>
                let c := {| hyphenatedTeam := hyphenatedTeam c; title := title c;
                            team := team c; teams := teams c;
                            currentMatchday_1 := Some m;
                            playedDates := playedDates c; data := data c |} in
                match playedMatchdayDates json t with
                | None => (c, effects, Rejected)
                | Some p =>
                    ({| hyphenatedTeam := hyphenatedTeam c; title := title c;
                        team := team c; teams := teams c;
                        currentMatchday_1 := currentMatchday_1 c;
                        playedDates := Some p; data := data c |},
                     effects, Fulfilled)
                end
            end
        end
      else (c, effects, Fulfilled)
  end.

(** [initDashboard]: an [await] whose promise rejects ends the function,
    its promise rejected, and nothing catches it. *)
Definition initDashboard (net : response) (c : component)
  : component * list effect * completion :=
  let c := name_page c in
  (* const response = await fetch(...) *)
  match net with
  | NetworkError => (c, [Fetch TEAMS_URL], Rejected)
  | Body None => (c, [Fetch TEAMS_URL], Rejected)     (* await response.json() *)
  | Body (Some json) =>
      match standings_keys json with
      | None => (c, [Fetch TEAMS_URL], Rejected)
      | Some keys =>
          let '(c, effects, outcome) := select_team json keys c in
          match outcome with
          | Rejected => (c, Fetch TEAMS_URL :: effects, Rejected)
          | Fulfilled =>
              ({| hyphenatedTeam := hyphenatedTeam c; title := title c;
                  team := team c; teams := teams c;
                  currentMatchday_1 := currentMatchday_1 c;
                  playedDates := playedDates c; data := Some json |},
               Fetch TEAMS_URL :: effects ++ [ConsoleLog; DispatchResize],
               Fulfilled)
          end
      end
  end.

(** [switchTeam(newTeam)], the only other function of the page that
    assigns its variables.  With [data] undefined the matchday helpers
    throw on it. *)
Definition switchTeam (newTeam : jsstring) (c : component)
  : component * list effect * completion :=
  if jsstring_eqb newTeam (js "overview") then
    ({| hyphenatedTeam := Some newTeam; title := title_of (Some (js "Overview"));
        team := Some (js "Overview"); teams := teams c;
        currentMatchday_1 := currentMatchday_1 c; playedDates := playedDates c;
        data := data c |},
     [PushState newTeam], Fulfilled)
  else
    let t := toTitleCase (hyphens_to_spaces newTeam) in
    let c := {| hyphenatedTeam := Some newTeam; title := title_of (Some t);
                team := Some t; teams := teams c;
                currentMatchday_1 := currentMatchday_1 c;
                playedDates := playedDates c; data := data c |} in
    match data c with
    | None => (c, [], Rejected)
    | Some json =>
        match currentMatchday json t with
        | None => (c, [], Rejected)
        | Some m =>
            let c := {| hyphenatedTeam := hyphenatedTeam c; title := title c;
                        team := team c; teams := teams c;
                        currentMatchday_1 := Some m;
                        playedDates := playedDates c; data := data c |} in
            match playedMatchdayDates json t with
            | None => (c, [], Rejected)
            | Some p =>
                ({| hyphenatedTeam := hyphenatedTeam c; title := title c;
                    team := team c; teams := teams c;
                    currentMatchday_1 := currentMatchday_1 c;
                    playedDates := Some p; data := data c |},
                 [PushState newTeam], Fulfilled)
            end
        end
    end.

(** The page shows its content when [data != undefined] and the loading
    spinner otherwise. *)
Definition loading_spinner (c : component) : bool :=
  match data c with None => true | Some _ => false end.

(** The page after its load ([onMount] calls [initDashboard] once) and a
    series of clicks on team links. *)
Definition after_clicks (c : component) (clicks : list jsstring) : component :=
  fold_left (fun c newTeam => fst (fst (switchTeam newTeam c))) clicks c.

Definition page_load (prop : option jsstring) (net : response)
  : component * list effect * completion :=
  initDashboard net (created prop).

End Page.

End Dashboard.

(** ** The Predictions page ([sortByDate], [insertExtras]) *)

Module Predictions.

(** Goals as they come in the JSON: the predicted ones are fractions. *)
Record scoreline := { homeGoals : Q; awayGoals : Q }.

(** [Math.round]: the nearest integer, a half going up. *)
Definition round (x : Q) : Z := Qfloor (x + (1 # 2)).

Definition identicalScore (prediction actual : scoreline) : bool :=
  Qeq_bool (inject_Z (round (homeGoals prediction))) (homeGoals actual)
  && Qeq_bool (inject_Z (round (awayGoals prediction))) (awayGoals actual).

Definition sameResult (prediction actual : scoreline) : bool :=
  ((round (homeGoals prediction) >? round (awayGoals prediction))
   && (round (homeGoals actual) >? round (awayGoals actual)))
  || ((round (homeGoals prediction) =? round (awayGoals prediction))
      && (round (homeGoals actual) =? round (awayGoals actual)))
  || ((round (homeGoals prediction) <? round (awayGoals prediction))
      && (round (homeGoals actual) <? round (awayGoals actual))).

(** The objects of the fetched JSON live in a heap and are known by their
    references, so that what a function does to an object is seen through
    every reference to it.  A date is kept as the time value [new Date]
    gives it. *)
Definition ref := nat.

Record prediction := {
  home : jsstring;
  away : jsstring;
  datetime : Z;
  predicted : scoreline;            (* the property [prediction] *)
  actual : option scoreline;        (* [null] before the match *)
  colour : option jsstring          (* absent in the fetched JSON *)
}.

Record accuracy := {
  scoreAccuracy : option Q;         (* [None]: 0 / 0, not a number *)
  resultAccuracy : option Q
}.

Inductive cell :=
| PredictionObj (p : prediction)
| DayObj (_id : Z) (predictions : ref)            (* { _id, predictions } *)
| ArrayObj (elements : list ref)
| PageObj (predictions : ref) (acc : option accuracy).   (* { predictions, accuracy } *)

Definition heap := list cell.

Definition read (h : heap) (r : ref) : option cell := nth_error h r.

(** Writing through a reference; [None] when nothing is there. *)
Definition write (h : heap) (r : ref) (c : cell) : option heap :=
  match nth_error h r with
  | Some _ => Some (firstn r h ++ c :: skipn (S r) h)
  | None => None
  end.

Definition alloc (h : heap) (c : cell) : ref * heap := (length h, h ++ [c]).

(** The time value an element of an array is sorted on; [None] (a throw)
    when the element is not an object of the expected kind. *)
Definition day_key (h : heap) (r : ref) : option Z :=
  match read h r with
  | Some (DayObj id _) => Some id
  | _ => None
  end.

Definition prediction_key (h : heap) (r : ref) : option Z :=
  match read h r with
  | Some (PredictionObj p) => Some (datetime p)
  | _ => None
  end.

Fixpoint with_keys (key : ref -> option Z) (l : list ref) : option (list (Z * ref)) :=
  match l with
  | [] => Some []
  | r :: rest =>
      match key r, with_keys key rest with
      | Some k, Some ks => Some ((k, r) :: ks)
      | _, _ => None
      end
  end.

(** [arr.sort(compare)] in place, for a comparator that subtracts the
    elements' time values: [descending] is [key b - key a]. *)
Definition sort_in_place (h : heap) (arr : ref) (key : ref -> option Z)
  (descending : bool) : option heap :=
  match read h arr with
  | Some (ArrayObj elements) =>
      match with_keys key elements with
      | Some keyed =>
          let compare (a b : Z * ref) :=
            if descending then fst b - fst a else fst a - fst b in
          write h arr (ArrayObj (map snd (sort compare keyed)))
      | None => None
      end
  | _ => None
  end.

(** The loop of [sortByDate] over the days. *)
Fixpoint sort_days (h : heap) (days : list ref) : option heap :=
  match days with
  | [] => Some h
  | d :: rest =>
      match read h d with
      | Some (DayObj _ preds) =>
          match sort_in_place h preds (prediction_key h) false with
          | Some h' => sort_days h' rest
          | None => None
          end
      | _ => None
      end
  end.

Definition sortByDate (h : heap) (predictions : ref) : option heap :=
  match sort_in_place h predictions (day_key h) true with
  | Some h' =>
      match read h' predictions with
      | Some (ArrayObj days) => sort_days h' days
      | _ => None
      end
  | None => None
  end.

(** The counters [scoreCorrect], [resultCorrect] and [total]. *)
Record counters := { scoreCorrect : Z; resultCorrect : Z; total : Z }.

Definition set_colour (p : prediction) (c : jsstring) : prediction :=
  {| home := home p; away := away p; datetime := datetime p;
     predicted := predicted p; actual := actual p; colour := Some c |}.

(** The body of the inner loop of [insertExtras] for one prediction. *)
Definition mark (h : heap) (n : counters) (r : ref) : option (heap * counters) :=
  match read h r with
  | Some (PredictionObj p) =>
      match actual p with
      | Some a =>
          if identicalScore (predicted p) a then
            match write h r (PredictionObj (set_colour p (js "green"))) with
            | Some h' =>
                Some (h', {| scoreCorrect := scoreCorrect n + 1;
                             resultCorrect := resultCorrect n + 1;
                             total := total n + 1 |})
            | None => None
            end
          else if sameResult (predicted p) a then
            match write h r (PredictionObj (set_colour p (js "yellow"))) with
            | Some h' =>
                Some (h', {| scoreCorrect := scoreCorrect n;
                             resultCorrect := resultCorrect n + 1;
                             total := total n + 1 |})
            | None => None
            end
          else
            match write h r (PredictionObj (set_colour p (js "red"))) with
            | Some h' =>
                Some (h', {| scoreCorrect := scoreCorrect n;
                             resultCorrect := resultCorrect n;
                             total := total n + 1 |})
            | None => None
            end
      | None => Some (h, n)
      end
  | _ => None
  end.

Fixpoint mark_all (h : heap) (n : counters) (preds : list ref)
  : option (heap * counters) :=
  match preds with
  | [] => Some (h, n)
  | r :: rest =>
      match mark h n r with
      | Some (h', n') => mark_all h' n' rest
      | None => None
      end
  end.

Fixpoint mark_days (h : heap) (n : counters) (days : list ref)
  : option (heap * counters) :=
  match days with
  | [] => Some (h, n)
  | d :: rest =>
      match read h d with
      | Some (DayObj _ preds) =>
          match read h preds with
          | Some (ArrayObj elements) =>
              match mark_all h n elements with
              | Some (h', n') => mark_days h' n' rest
              | None => None
              end
          | _ => None
          end
      | _ => None
      end
  end.

Definition ratio (a b : Z) : option Q :=
  if b =? 0 then None else Some (inject_Z a / inject_Z b)%Q.

(** [insertExtras(json)], [json] being the wrapper object. *)
Definition insertExtras (h : heap) (json : ref) : option heap :=
  match read h json with
  | Some (PageObj preds _) =>
      match read h preds with
      | Some (ArrayObj days) =>
          match mark_days h {| scoreCorrect := 0; resultCorrect := 0; total := 0 |} days with
          | Some (h', n) =>
              write h' json
                (PageObj preds
                   (Some {| scoreAccuracy := ratio (scoreCorrect n) (total n);
                            resultAccuracy := ratio (resultCorrect n) (total n) |}))
          | None => None
          end
      | _ => None
      end
  | _ => None
  end.

(** The callback of [onMount] after the fetch: [fetched] is the array
    [response.json()] resolved to.  The result is the heap and the
    reference of [data]. *)
Definition process (h : heap) (fetched : ref) : option (heap * ref) :=
  match sortByDate h fetched with
  | Some h1 =>
      let '(json, h2) := alloc h1 (PageObj fetched None) in   (* json = { predictions: json } *)
      match insertExtras h2 json with
      | Some h3 => Some (h3, json)
      | None => None
      end
  | None => None
  end.

End Predictions.

(** ** Routes of a Router component (svelte-routing, Router.svelte and
    Route.svelte) *)

Module Routing.
Import Router.

(** [match(route, uri)] *)
Definition match_ (route : route) (uri : jsstring) : option (option matched) :=
  pick [route] uri.

Definition combinePaths (basepath path : jsstring) : jsstring :=
  stripSlashes
    (if jsstring_eqb path [SLASH] then basepath
     else stripSlashes basepath ++ SLASH :: stripSlashes path)
  ++ [SLASH].

(** A route object once registered: [{ path, default, _path }].  The
    [value] of the route stands for the identity of the object, which is
    what [$activeRoute.route === route] compares. *)
Record route_object := {
  ro_route : route;
  _path : jsstring
}.

(** What the closure of a Router component holds: [$base.path],
    [$location.pathname], the array of the [routes] store, the
    [hasActiveRoute] flag and the value of the [activeRoute] store
    ([None] for [null]).  [activeRoute.set] is always given a fresh object
    here, which a writable store stores and hands to its subscribers. *)
Record router := {
  base_path : jsstring;
  pathname : jsstring;
  routes : list route_object;
  hasActiveRoute : bool;
  activeRoute : option matched
}.

(** [registerRoute(route)]; [window] tells whether [typeof window] is not
    ["undefined"].  The route object is mutated before anything else; the
    result is [None] when [match] threw. *)
Definition registerRoute (window : bool) (rt : router) (r : route)
  : option (router * route_object) :=
  let basepath := base_path rt in
  let path_ := path r in
  let r' := {| path := combinePaths basepath path_;
               default := default r;
               value := value r |} in
  let obj := {| ro_route := r'; _path := path_ |} in
  if negb window then
    if hasActiveRoute rt then Some (rt, obj)
    else
      match match_ r' (pathname rt) with
      | None => None
      | Some None => Some (rt, obj)
      | Some (Some matchingRoute) =>
          Some ({| base_path := base_path rt;
                   pathname := pathname rt;
                   routes := routes rt;
                   hasActiveRoute := true;
                   activeRoute := Some matchingRoute |}, obj)
      end
  else
    Some ({| base_path := base_path rt;
             pathname := pathname rt;
             routes := routes rt ++ [obj];
             hasActiveRoute := hasActiveRoute rt;
             activeRoute := activeRoute rt |}, obj).

(** The render of a Route component with the [path] prop given, up to
    the test that guards its markup:
    [$activeRoute !== null && $activeRoute.route === route].  [id] is the
    identity of the route object this render creates. *)
Definition Route (window : bool) (rt : router) (path_ : jsstring) (id : nat)
  : option (router * bool) :=
  let route := {| path := path_;
                  default := jsstring_eqb path_ [];
                  value := id |} in
  match registerRoute window rt route with
  | None => None
  | Some (rt', _) =>
      Some (rt',
            match activeRoute rt' with
            | Some m => Nat.eqb (value (m_route m)) id
            | None => false
            end)
  end.

(** The Route components of a Router render one after the other, in the
    order of the markup. *)
Fixpoint render_routes (window : bool) (rt : router) (props : list (jsstring * nat))
  : option (router * list bool) :=
  match props with
  | [] => Some (rt, [])
  | (path_, id) :: rest =>
      match Route window rt path_ id with
      | None => None
      | Some (rt', shown) =>
          match render_routes window rt' rest with
          | None => None
          | Some (rt'', flags) => Some (rt'', shown :: flags)
          end
      end
  end.

(** The Router as its children find it when the server renders them: the
    script of the component has run [activeRoute.set(pick($routes, ...))]
    on the empty array of routes. *)
Definition ssr_router (basepath url : jsstring) : router :=
  {| base_path := basepath;
     pathname := url;
     routes := [];
     hasActiveRoute := false;
     activeRoute := None |}.

End Routing.

(** ** Arrays *)

Module Arr.

Section IndexOf.

Context {A : Type} (eqb : A -> A -> bool).

(** [arr.indexOf(x)] with [eqb] for [===]. *)
Fixpoint indexOf (l : list A) (x : A) : Z :=
  match l with
  | [] => -1
  | y :: l' =>
      if eqb y x then 0
      else let r := indexOf l' x in if r <? 0 then -1 else r + 1
  end.

End IndexOf.

(** [arr.splice(start, deleteCount)], the array it leaves: a negative
    [start] counts from the end, and both ends are clamped to the array. *)
Definition splice {A : Type} (start : Z) (deleteCount : nat) (l : list A) : list A :=
  let len := Z.of_nat (length l) in
  let actualStart :=
    Z.to_nat (if start <? 0 then Z.max (len + start) 0 else Z.min start len) in
  firstn actualStart l ++ skipn (actualStart + deleteCount) l.

(** An array with holes: [None] is a hole or [undefined]. *)
Definition sparse (A : Type) := list (option A).

(** [arr[i]], [undefined] outside the array and at a hole. *)
Definition at_ {A : Type} (a : sparse A) (i : nat) : option A :=
  match nth_error a i with
  | Some x => x
  | None => None
  end.

(** [arr[i] = x]: past the end the array grows, with holes up to [i]. *)
Definition assign {A : Type} (a : sparse A) (i : nat) (x : option A) : sparse A :=
  firstn i a ++ repeat None (i - length a) ++ x :: skipn (S i) a.

(** [arr.push(x)] *)
Definition push {A : Type} (a : sparse A) (x : option A) : sparse A := a ++ [x].

End Arr.

(** ** History (svelte-routing, history.js) *)

Module History.

(** An entry of the stack: [{ pathname, search }]. *)
Record entry := {
  pathname : jsstring;
  search : jsstring
}.

(** [const [pathname, search = ""] = uri.split("?")] *)
Definition split_uri (uri : jsstring) : entry :=
  match Router.split Router.QUESTION uri with
  | p :: s :: _ => {| pathname := p; search := s |}
  | p :: [] => {| pathname := p; search := [] |}
  | [] => {| pathname := []; search := [] |}
  end.

Section Source.

(** The states given to [pushState] and [replaceState]; [None] is
    [undefined]. *)
Variable State : Type.

(** The variables the closure of [createMemorySource] holds. *)
Record source := {
  index : nat;
  stack : Arr.sparse entry;
  states : Arr.sparse State
}.

Definition createMemorySource (initialPathname : jsstring) : source :=
  {| index := 0;
     stack := [Some {| pathname := initialPathname; search := [] |}];
     states := [] |}.

(** [source.location] *)
Definition location (s : source) : option entry := Arr.at_ (stack s) (index s).

(** [source.history.state] *)
Definition state (s : source) : option State := Arr.at_ (states s) (index s).

Definition pushState (st : option State) (uri : jsstring) (s : source) : source :=
  {| index := S (index s);
     stack := Arr.push (stack s) (Some (split_uri uri));
     states := Arr.push (states s) st |}.

Definition replaceState (st : option State) (uri : jsstring) (s : source) : source :=
  {| index := index s;
     stack := Arr.assign (stack s) (index s) (Some (split_uri uri));
     states := Arr.assign (states s) (index s) st |}.

End Source.

Arguments index {State} s.
Arguments stack {State} s.
Arguments states {State} s.
Arguments location {State} s.
Arguments state {State} s.
Arguments pushState {State} st uri s.
Arguments replaceState {State} st uri s.

Section Navigation.

(** What the caller of [navigate] passes as [state], spread into the state
    object that [navigate] builds; opaque. *)
Variable User : Type.

(** [{ ...state, key }] *)
Record history_state := {
  user : User;
  key : jsstring
}.

(** The object [getLocation] returns:
    [{ ...source.location, state, key }]. *)
Record history_location := {
  l_entry : option entry;
  l_state : option history_state;
  l_key : jsstring
}.

Definition getLocation (s : source history_state) : history_location :=
  {| l_entry := location s;
     l_state := state s;
     l_key := or_else (option_map key (state s)) (js "initial") |}.

Inductive action := PUSH | POP.

(** The closure of [createHistory]: the source, the array of listeners
    (a listener is a function, known by its identity) and the [location]
    variable.  [calls] records the calls [navigate] makes to the listeners,
    with the object they receive; the listeners are taken not to call back
    into the history. *)
Record history := {
  h_source : source history_state;
  listeners : list nat;
  h_location : history_location;
  calls : list (nat * history_location * action)
}.

Definition createHistory (s : source history_state) : history :=
  {| h_source := s;
     listeners := [];
     h_location := getLocation s;
     calls := [] |}.

(** [listen(listener)]; registering on a memory source does nothing. *)
Definition listen (listener : nat) (h : history) : history :=
  {| h_source := h_source h;
     listeners := listeners h ++ [listener];
     h_location := h_location h;
     calls := calls h |}.

(** The function [listen(listener)] returns. *)
Definition unlisten (listener : nat) (h : history) : history :=
  let index := Arr.indexOf Nat.eqb (listeners h) listener in
  {| h_source := h_source h;
     listeners := Arr.splice index 1 (listeners h);
     h_location := h_location h;
     calls := calls h |}.

(** [navigate(to, { state, replace })]; [now] is [Date.now() + ""].  The
    memory source never throws, so the [catch] is not entered. *)
Definition navigate (now to : jsstring) (st : User) (replace : bool) (h : history)
  : history :=
  let state := Some {| user := st; key := now |} in
  let s :=
    if replace then replaceState state to (h_source h)
    else pushState state to (h_source h) in
  let location := getLocation s in
  {| h_source := s;
     listeners := listeners h;
     h_location := location;
     calls := calls h ++ map (fun listener => (listener, location, PUSH)) (listeners h) |}.

End Navigation.

Arguments user {User} h.
Arguments key {User} h.
Arguments l_entry {User} h.
Arguments l_state {User} h.
Arguments l_key {User} h.
Arguments getLocation {User} s.
Arguments h_source {User} h.
Arguments listeners {User} h.
Arguments h_location {User} h.
Arguments calls {User} h.
Arguments createHistory {User} s.
Arguments listen {User} listener h.
Arguments unlisten {User} listener h.
Arguments navigate {User} now to st replace h.

End History.

(** ** A team's form over a season ([lib/team], SpiderGraph.svelte) *)

Module Form.
Import StatsValues.

(** [data.form]: [form team] is [form[team]], [None] when the team is not
    a key, and its value at a season is [form[team][season]], [None] when
    there is no such season; a season's entries come in the order
    [for ... in] visits them. *)
Definition form_of := jsstring -> option (Z -> option (list (jsstring * fixture))).

(** The test [match.atHome && homeGoals > awayGoals ||
    !match.atHome && homeGoals < awayGoals]. *)
Definition won (m : fixture) (sc : score) : bool :=
  (atHome m && (homeGoals sc >? awayGoals sc))
  || (negb (atHome m) && (homeGoals sc <? awayGoals sc)).

Definition was_beaten (m : fixture) (sc : score) : bool :=
  (atHome m && (homeGoals sc <? awayGoals sc))
  || (negb (atHome m) && (homeGoals sc >? awayGoals sc)).

(** The body of the loop of [formCleanSheets]. *)
Definition clean_sheet_step (nCleanSheets : Z) (m : fixture) : Z :=
  match fx_score m with
  | Some sc =>
      if atHome m && (awayGoals sc =? 0) then nCleanSheets + 1
      else if negb (atHome m) && (homeGoals sc =? 0) then nCleanSheets + 1
      else nCleanSheets
  | None => nCleanSheets
  end.

(** Reading [form[team][season]] throws when [form[team]] is undefined:
    [None].  A [for ... in] over a season that is undefined visits
    nothing. *)
Definition formCleanSheets (form : form_of) (team : jsstring) (season : Z) : option Z :=
  match form team with
  | None => None
  | Some seasons =>
      Some (fold_left clean_sheet_step (map snd (entries (seasons season))) 0)
  end.

Inductive result := win | lost | draw.

Definition result_eqb (a b : result) : bool :=
  match a, b with
  | win, win | lost, lost | draw, draw => true
  | _, _ => false
  end.

Definition result_of (m : fixture) (sc : score) : result :=
  if won m sc then win
  else if was_beaten m sc then lost
  else draw.

(** The body of the loop of [formConsistency], on the pair
    [(backToBack, prevResult)]. *)
Definition consistency_step (st : Z * option result) (m : fixture)
  : Z * option result :=
  let '(backToBack, prevResult) := st in
  match fx_score m with
  | Some sc =>
      let result := result_of m sc in
      let backToBack :=
        match prevResult with
        | Some prev => if result_eqb prev result then backToBack + 1 else backToBack
        | None => backToBack
        end in
      (backToBack, Some result)
  | None => st
  end.

Definition formConsistency (form : form_of) (team : jsstring) (season : Z) : option Z :=
  match form team with
  | None => None
  | Some seasons =>
      Some (fst (fold_left consistency_step (map snd (entries (seasons season)))
                           (0, None)))
  end.

(** The body of the loop of [formWinStreak], on the pair
    [(winStreak, tempWinStreak)]. *)
Definition win_streak_step (st : Z * Z) (m : fixture) : Z * Z :=
  let '(winStreak, tempWinStreak) := st in
  match fx_score m with
  | Some sc =>
      if won m sc then
        let tempWinStreak := tempWinStreak + 1 in
        if tempWinStreak >? winStreak then (tempWinStreak, tempWinStreak)
        else (winStreak, tempWinStreak)
      else (winStreak, 0)
  | None => st
  end.

Definition formWinStreak (form : form_of) (team : jsstring) (season : Z) : option Z :=
  match form team with
  | None => None
  | Some seasons =>
      Some (fst (fold_left win_streak_step (map snd (entries (seasons season)))
                           (0, 0)))
  end.

(** [removeItem(arr, value)] on an array of strings; the array is changed
    in place and returned. *)
Definition removeItem (arr : list jsstring) (value : jsstring) : list jsstring :=
  let index := Arr.indexOf jsstring_eqb arr value in
  if index >? -1 then Arr.splice index 1 arr else arr.

(** [playedMatchdays(data, team)]: its [for ... in] visits nothing when
    the season [data._id] is undefined. *)
Definition playedMatchdays (d : data) (team : jsstring) : option (list jsstring) :=
  match form d team with
  | None => None
  | Some seasons =>
      Some (flat_map (fun '(matchday, m) =>
                        match fx_score m with
                        | Some _ => [matchday]
                        | None => []
                        end)
                     (entries (seasons (_id d))))
  end.

(** The loop of [currentMatchday]: [i] runs down from the last index;
    [rev_entries] are the entries from index [i] down. *)
Fixpoint current_from (rev_entries : list (jsstring * fixture)) : option jsstring :=
  match rev_entries with
  | [] => None
  | (matchday, m) :: rest =>
      match fx_score m with
      | Some _ => Some matchday
      | None => current_from rest
      end
  end.

(** [currentMatchday(data, team)]: [Some None] is [null].
    [Object.keys(data.form[team][data._id])] throws when the season is
    undefined; the keys are those of the object the entries are read
    from, so every lookup succeeds. *)
Definition currentMatchday (d : data) (team : jsstring) : option (option jsstring) :=
  match form d team with
  | None => None
  | Some seasons =>
      match seasons (_id d) with
      | None => None
      | Some matchdays => Some (current_from (rev matchdays))
      end
  end.

(** The loop of [latestNPlayedMatchdays]: [rev_matchdays] are the
    matchdays from index [i] down, [season] is
    [data.form[team][data._id]], read anew in every round: reading a
    matchday of it throws when [data.form[team]] or the season is
    undefined ([season] is [None]), and so does reading [.score] of a
    matchday that is not a key of the season. *)
Fixpoint latest_from (season : option (object fixture)) (rev_matchdays : list jsstring)
  (N : Z) (latestN : list jsstring) : option (list jsstring) :=
  match rev_matchdays with
  | [] => Some latestN
  | matchday :: rest =>
      match season with
      | None => None
      | Some played =>
          match get played matchday with
          | None => None
          | Some m =>
              let latestN :=
                match fx_score m with
                | Some _ => latestN ++ [matchday]
                | None => latestN
                end in
              if Z.of_nat (length latestN) >=? N then Some latestN
              else latest_from season rest N latestN
          end
      end
  end.

Definition latestNPlayedMatchdays (d : data) (team : jsstring)
  (matchdays : list jsstring) (N : Z) : option (list jsstring) :=
  latest_from (match form d team with
               | Some seasons => seasons (_id d)
               | None => None
               end)
              (rev matchdays) N [].

End Form.

(** ** Goal frequencies (GoalsPerGame.svelte) *)

Module GoalsPerGame.
Import StatsValues.

(** A [goalFreq] object: its keys are numbers of goals.  The functions
    below read it by key and take a maximum over its keys, so the order
    in which its keys are enumerated is not tracked: new keys go last. *)
Definition goal_freq := list (Z * Z).

(** [goalFreq[k]], [None] when [k in goalFreq] is false. *)
Fixpoint lookup (goalFreq : goal_freq) (k : Z) : option Z :=
  match goalFreq with
  | [] => None
  | (k', v) :: rest => if k' =? k then Some v else lookup rest k
  end.

(** [goalFreq[k] = v] *)
Fixpoint store (goalFreq : goal_freq) (k v : Z) : goal_freq :=
  match goalFreq with
  | [] => [(k, v)]
  | (k', v') :: rest =>
      if k' =? k then (k', v) :: rest else (k', v') :: store rest k v
  end.

(** [if (goals in goalFreq) goalFreq[goals] += 1; else goalFreq[goals] = 1;] *)
Definition count_goals (goalFreq : goal_freq) (goals : Z) : goal_freq :=
  match lookup goalFreq goals with
  | Some n => store goalFreq goals (n + 1)
  | None => store goalFreq goals 1
  end.

Definition count_scored_match (goalFreq : goal_freq) (m : fixture) : goal_freq :=
  match fx_score m with
  | Some sc =>
      if atHome m then count_goals goalFreq (homeGoals sc)
      else count_goals goalFreq (awayGoals sc)
  | None => goalFreq
  end.

(** [Object.keys(data.form[team][season])] throws when the team's form
    has no such season: [None]. *)
Definition countScored (d : data) (goalFreq : goal_freq) (season : Z) (team : jsstring)
  : option goal_freq :=
  match form d team with
  | None => Some goalFreq
  | Some seasons =>
      match seasons season with
      | None => None
      | Some matchdays => Some (fold_left count_scored_match (map snd matchdays) goalFreq)
      end
  end.

Definition count_conceded_match (goalFreq : goal_freq) (m : fixture) : goal_freq :=
  match fx_score m with
  | Some sc =>
      if atHome m then count_goals goalFreq (awayGoals sc)
      else count_goals goalFreq (homeGoals sc)
  | None => goalFreq
  end.

Definition countConceded (d : data) (goalFreq : goal_freq) (season : Z) (team : jsstring)
  : option goal_freq :=
  match form d team with
  | None => Some goalFreq
  | Some seasons =>
      match seasons season with
      | None => None
      | Some matchdays =>
          Some (fold_left count_conceded_match (map snd matchdays) goalFreq)
      end
  end.

(** [parseInt] of a key gives the number back. *)
Definition maxObjKey (obj : goal_freq) : Z :=
  fold_left (fun max '(g, _) => if g >? max then g else max) obj 0.

(** [for (let i = 1; i < max; i++) if (!(i in goalFreq)) goalFreq[i] = 0;] *)
Definition fillGoalFreqBlanks (goalFreq : goal_freq) : goal_freq :=
  let max := maxObjKey goalFreq in
  fold_left (fun goalFreq i =>
               match lookup goalFreq i with
               | Some _ => goalFreq
               | None => store goalFreq i 0
               end)
            (map Z.of_nat (seq 1 (Z.to_nat max - 1))) goalFreq.

Definition teamScoredFrequencies (d : data) (team : jsstring) : option goal_freq :=
  let goalFreq := [] in
  match countScored d goalFreq (_id d) team with
  | None => None
  | Some goalFreq =>
      match countScored d goalFreq (_id d - 1) team with
      | None => None
      | Some goalFreq => Some (fillGoalFreqBlanks goalFreq)
      end
  end.

Definition teamConcededFrequencies (d : data) (team : jsstring) : option goal_freq :=
  let goalFreq := [] in
  match countConceded d goalFreq (_id d) team with
  | None => None
  | Some goalFreq =>
      match countConceded d goalFreq (_id d - 1) team with
      | None => None
      | Some goalFreq => Some (fillGoalFreqBlanks goalFreq)
      end
  end.

End GoalsPerGame.

(** ** The table snippet (TableSnippet.svelte) *)

Module Snippet.

(** [data.standings[team][data._id]], as far as the snippet reads it. *)
Record standing := {
  position : Z;
  points : Z;
  gD : Z
}.

(** A row of the snippet; [name] is [sortedTeams[i]], [None] for
    [undefined]. *)
Record row := {
  row_name : option jsstring;
  row_position : Z;
  row_points : Z;
  row_gd : Z
}.

Record snippet := {
  teamTableIdx : option Z;
  rows : list row
}.

(** The object [data.standings], each team with its entry of the season
    [data._id].  [Object.keys(data.standings).sort(...)] compares two keys
    by the positions of their entries: the entries are sorted here and
    their keys taken. *)
Definition sorted_teams (standings : object standing) : list jsstring :=
  map fst (sort (fun a b => position (snd a) - position (snd b)) standings).

(** One round of the loop of [buildTableSnippet].  [sortedTeams[i]] is
    [undefined] outside the array; as a property key [undefined] is the
    string of that name, and reading [.position] of a missing entry
    throws. *)
Definition add_row (standings : object standing) (sortedTeams : list jsstring)
  (team : jsstring) (low : Z) (st : option (option Z * list row)) (i : Z)
  : option (option Z * list row) :=
  match st with
  | None => None
  | Some (teamTableIdx, rows) =>
      let name := index sortedTeams i in
      let teamTableIdx :=
        match name with
        | Some n => if jsstring_eqb n team then Some (i - low) else teamTableIdx
        | None => teamTableIdx
        end in
      let key := match name with Some n => n | None => js "undefined" end in
      match get standings key with
      | None => None
      | Some s =>
          Some (teamTableIdx,
                rows ++ [{| row_name := name;
                            row_position := position s;
                            row_points := points s;
                            row_gd := gD s |}])
      end
  end.

(** The values [i] takes in [for (let i = low; i < high; i++)]. *)
Definition range (low high : Z) : list Z :=
  map (fun k => low + Z.of_nat k) (seq 0 (Z.to_nat (high - low))).

Definition buildTableSnippet (standings : object standing) (team : jsstring)
  : option snippet :=
  let sortedTeams := sorted_teams standings in
  let '(low, high) := TableSnippet.tableSnippetRange sortedTeams team in
  match fold_left (add_row standings sortedTeams team low) (range low high)
                  (Some (None, [])) with
  | None => None
  | Some (teamTableIdx, rows) =>
      Some {| teamTableIdx := teamTableIdx; rows := rows |}
  end.

End Snippet.

(** ** The marker of the next game (FixturesGraph.svelte) *)

Module FixturesGraph.

(** The loop of [increaseNextGameMarker] from index [i] on: [x] holds the
    time values of the dates from there, [minDiff] is [None] for
    [Number.POSITIVE_INFINITY] and [nextGameIdx] is [None] for
    [undefined]. *)
Fixpoint next_game (x : list Z) (now : Z) (i : nat)
  (minDiff : option Z) (nextGameIdx : option nat) : option nat :=
  match x with
  | [] => nextGameIdx
  | xi :: rest =>
      let diff := xi - now in
      if (0 <? diff) && (match minDiff with
                         | None => true
                         | Some m => diff <? m
                         end)
      then next_game rest now (S i) (Some diff) (Some i)
      else next_game rest now (S i) minDiff nextGameIdx
  end.

Definition increaseNextGameMarker (sizes : Arr.sparse Z) (x : list Z)
  (now bigMarkerSize : Z) : Arr.sparse Z :=
  match next_game x now 0 None None with
  | Some nextGameIdx => Arr.assign sizes nextGameIdx (Some bigMarkerSize)
  | None => sizes
  end.

End FixturesGraph.

(** ** The rank of a team's statistic (StatsValues.svelte) *)

Module StatsRank.
Import StatsValues.

(** The sign of [seasonStats[team2][attribute] - seasonStats[team1][attribute]],
    which is all the sort reads of it. *)
Definition compare_desc (attribute : team_stats -> Q)
  (team1 team2 : jsstring * team_stats) : Z :=
  match Qcompare (attribute (snd team2)) (attribute (snd team1)) with
  | Lt => -1
  | Eq => 0
  | Gt => 1
  end.

(** [Object.keys(seasonStats).sort(...)]: the entries are sorted and their
    keys taken.  [attribute] is the field the name selects. *)
Definition sorted (seasonStats : object team_stats) (attribute : team_stats -> Q)
  : list jsstring :=
  map fst (sort (compare_desc attribute) seasonStats).

Definition getStatsRank (seasonStats : object team_stats)
  (attribute : team_stats -> Q) (team : jsstring) (reverse : bool) : Z :=
  let rank := TableSnippet.indexOf (sorted seasonStats attribute) team + 1 in
  if reverse then 21 - rank else rank.

End StatsRank.

(** ** The bars of the clean sheets graph (CleanSheetsGraph.svelte) *)

Module CleanSheetsGraph.
Import StatsValues.

(** The body of the loop of [getTeamCleanSheets], on the pair
    [(cleanSheets, notCleanSheets)]. *)
Definition push_match (st : list Z * list Z) (m : fixture) : list Z * list Z :=
  let '(cleanSheets, notCleanSheets) := st in
  match fx_score m with
  | Some sc =>
      if atHome m then
        if awayGoals sc >? 0 then (cleanSheets ++ [0], notCleanSheets ++ [1])
        else (cleanSheets ++ [1], notCleanSheets ++ [0])
      else
        if homeGoals sc >? 0 then (cleanSheets ++ [0], notCleanSheets ++ [1])
        else (cleanSheets ++ [1], notCleanSheets ++ [0])
  | None => st
  end.

(** Reading [data.form[team][data._id]] throws when the team has no
    form, and [Object.keys] of it when the season is undefined: [None]. *)
Definition getTeamCleanSheets (d : data) (team : jsstring) : option (list Z * list Z) :=
  match form d team with
  | None => None
  | Some seasons =>
      match seasons (_id d) with
      | None => None
      | Some matchdays => Some (fold_left push_match (map snd matchdays) ([], []))
      end
  end.

End CleanSheetsGraph.

(** * Properties *)

(** ** Strings *)

Lemma jsstring_eqb_spec (a b : jsstring) : jsstring_eqb a b = true <-> a = b.
Proof.
  revert b; induction a as [|x a IH]; intros [|y b]; simpl; split;
    try congruence; try reflexivity.
  - intros H. apply andb_prop in H as [Hx Hab].
    apply N.eqb_eq in Hx. apply IH in Hab. congruence.
  - intros H. inversion H; subst. rewrite N.eqb_refl. simpl. now apply IH.
Qed.

Lemma jsstring_eqb_refl (a : jsstring) : jsstring_eqb a a = true.
Proof. now apply jsstring_eqb_spec. Qed.

(** ** [ordinal] *)

Definition ordinal_of_last_two (a : Z) : jsstring :=
  or_else (Format.ord_at (if a >? 20 then Z.rem a 10 else a)) (js "th").

Definition english_of_last_two (a : Z) : jsstring :=
  let d := a mod 10 in
  if (d =? 1) && negb (a =? 11) then js "st"
  else if (d =? 2) && negb (a =? 12) then js "nd"
  else if (d =? 3) && negb (a =? 13) then js "rd"
  else js "th".

Definition teens_are_th (a : Z) : bool :=
  negb ((4 <=? a) && (a <=? 20)) || jsstring_eqb (ordinal_of_last_two a) (js "th").

Lemma last_two_table :
  forallb (fun a => jsstring_eqb (ordinal_of_last_two a) (english_of_last_two a)
                    && teens_are_th a)
          (map Z.of_nat (seq 0 100)) = true.
Proof. vm_compute. reflexivity. Qed.

Lemma last_two_agree (a : Z) :
  0 <= a < 100 ->
  ordinal_of_last_two a = english_of_last_two a /\ teens_are_th a = true.
Proof.
  intros Ha.
  pose proof last_two_table as T.
  rewrite forallb_forall in T.
  specialize (T a).
  assert (Hin : In a (map Z.of_nat (seq 0 100))).
  { apply in_map_iff. exists (Z.to_nat a). split; [lia|].
    apply in_seq. lia. }
  apply T in Hin. apply andb_prop in Hin as [H1 H2].
  apply jsstring_eqb_spec in H1. auto.
Qed.

(** C10: for a non-negative integer [n], [ordinal n] is the English ordinal
    suffix of [n]: "st", "nd" or "rd" when the last digit is 1, 2 or 3 and
    the last two digits are not 11, 12 or 13, and "th" otherwise; in
    particular it is "th" whenever [n mod 100] lies between 4 and 20. *)
Theorem ordinal_is_english_suffix (n : Z) :
  0 <= n ->
  Format.ordinal n = Format.english_suffix n /\
  (4 <= n mod 100 <= 20 -> Format.ordinal n = js "th").
Proof.
  intros Hn.
  assert (Ha : 0 <= n mod 100 < 100) by (apply Z.mod_pos_bound; lia).
  destruct (last_two_agree (n mod 100) Ha) as [Heq Hth].
  assert (Hrem : Z.rem n 100 = n mod 100) by (apply Z.rem_mod_nonneg; lia).
  assert (Hd : (n mod 100) mod 10 = n mod 10).
  { apply Z.mod_mod_divide. exists 10. reflexivity. }
  assert (Hord : Format.ordinal n = ordinal_of_last_two (n mod 100)).
  { unfold Format.ordinal, ordinal_of_last_two. rewrite Hrem. reflexivity. }
  split.
  - rewrite Hord, Heq. unfold english_of_last_two, Format.english_suffix.
    cbv zeta. rewrite Hd. reflexivity.
  - intros Hrange. rewrite Hord. unfold teens_are_th in Hth.
    apply orb_prop in Hth as [Hth|Hth].
    + apply negb_true_iff in Hth. apply andb_false_iff in Hth as [Hth|Hth];
        [apply Z.leb_gt in Hth | apply Z.leb_gt in Hth]; lia.
    + now apply jsstring_eqb_spec.
Qed.

Lemma ordinal_is_english_suffix_witness :
  Format.ordinal 112 = Format.english_suffix 112 /\
  (4 <= 112 mod 100 <= 20 -> Format.ordinal 112 = js "th").
Proof. apply (ordinal_is_english_suffix 112). lia. Defined.

(** ** [tableSnippetRange] *)

Lemma indexOf_bounds (l : list jsstring) (x : jsstring) :
  -1 <= TableSnippet.indexOf l x < Z.of_nat (length l).
Proof.
  induction l as [|y l IH]; simpl; [lia|].
  destruct (jsstring_eqb y x); [lia|].
  destruct (TableSnippet.indexOf l x <? 0) eqn:E; lia.
Qed.

Lemma indexOf_In (l : list jsstring) (x : jsstring) :
  In x l -> 0 <= TableSnippet.indexOf l x.
Proof.
  induction l as [|y l IH]; simpl; [tauto|].
  intros [->|Hin].
  - rewrite jsstring_eqb_refl. lia.
  - destruct (jsstring_eqb y x); [lia|].
    specialize (IH Hin).
    destruct (TableSnippet.indexOf l x <? 0) eqn:E; [apply Z.ltb_lt in E|]; lia.
Qed.

(** C3: on a table of at least 7 teams that contains [team], the bounds
    [(low, high)] of [tableSnippetRange] satisfy [0 <= low],
    [high <= length], [high - low = 7] and [low <= indexOf team < high];
    and when the index is at least 3 from the start and at least 4 from the
    end, the window is [(index - 3, index + 4)]. *)
Theorem tableSnippetRange_window (sortedTeams : list jsstring) (team : jsstring) :
  (7 <= length sortedTeams)%nat ->
  In team sortedTeams ->
  let i := TableSnippet.indexOf sortedTeams team in
  let '(low, high) := TableSnippet.tableSnippetRange sortedTeams team in
  0 <= low /\ high <= Z.of_nat (length sortedTeams) /\ high - low = 7 /\
  low <= i < high /\
  (3 <= i -> i + 4 <= Z.of_nat (length sortedTeams) ->
   low = i - 3 /\ high = i + 4).
Proof.
  intros Hlen Hin.
  pose proof (indexOf_bounds sortedTeams team) as Hb.
  pose proof (indexOf_In sortedTeams team Hin) as H0.
  unfold TableSnippet.tableSnippetRange.
  set (i := TableSnippet.indexOf sortedTeams team) in *.
  cbv zeta.
  destruct (i - 3 <? 0) eqn:Elow.
  - apply Z.ltb_lt in Elow.
    destruct (i + 4 - (i - 3) >? Z.of_nat (length sortedTeams) - 1) eqn:Ehigh;
      [apply Z.gtb_lt in Ehigh | rewrite Z.gtb_ltb in Ehigh; apply Z.ltb_ge in Ehigh];
      lia.
  - apply Z.ltb_ge in Elow.
    destruct (i + 4 >? Z.of_nat (length sortedTeams) - 1) eqn:Ehigh;
      [apply Z.gtb_lt in Ehigh | rewrite Z.gtb_ltb in Ehigh; apply Z.ltb_ge in Ehigh];
      lia.
Qed.

Definition sample_table : list jsstring :=
  map js ["Arsenal"; "Chelsea"; "Everton"; "Fulham"; "Leeds United";
          "Liverpool"; "Newcastle United"; "Tottenham Hotspur"]%string.

Lemma tableSnippetRange_window_witness :
  let i := TableSnippet.indexOf sample_table (js "Newcastle United") in
  let '(low, high) :=
    TableSnippet.tableSnippetRange sample_table (js "Newcastle United") in
  0 <= low /\ high <= Z.of_nat (length sample_table) /\ high - low = 7 /\
  low <= i < high /\
  (3 <= i -> i + 4 <= Z.of_nat (length sample_table) ->
   low = i - 3 /\ high = i + 4).
Proof.
  apply (tableSnippetRange_window sample_table (js "Newcastle United")).
  - simpl. lia.
  - simpl. tauto.
Defined.

Example tableSnippetRange_near_the_end :
  TableSnippet.tableSnippetRange sample_table (js "Newcastle United") = (1, 8).
Proof. reflexivity. Qed.

Example tableSnippetRange_near_the_start :
  TableSnippet.tableSnippetRange sample_table (js "Chelsea") = (0, 7).
Proof. reflexivity. Qed.

(** ** [toInitials] *)

Lemma switch_case_In (cases : list (jsstring * jsstring)) (team code : jsstring) :
  Team.switch_case cases team = Some code -> In (team, code) cases.
Proof.
  induction cases as [|[name c] rest IH]; simpl; [discriminate|].
  destruct (jsstring_eqb team name) eqn:E.
  - intros [= <-]. apply jsstring_eqb_spec in E. subst. now left.
  - intros H. right. now apply IH.
Qed.

Lemma switch_case_not_In (cases : list (jsstring * jsstring)) (team : jsstring) :
  ~ In team (map fst cases) -> Team.switch_case cases team = None.
Proof.
  induction cases as [|[name c] rest IH]; simpl; [reflexivity|].
  intros H. destruct (jsstring_eqb team name) eqn:E.
  - apply jsstring_eqb_spec in E. subst. tauto.
  - apply IH. tauto.
Qed.

Lemma special_initials_have_three_units :
  Forall (fun p => length (snd p) = 3%nat) Team.special_initials.
Proof. repeat constructor. Qed.

Lemma upper_unit_ascii (c : N) :
  Team.is_ascii_unit c = true -> Team.upper_unit c = [Team.ascii_upper c].
Proof.
  unfold Team.is_ascii_unit. intros Hc. apply N.ltb_lt in Hc.
  unfold Team.upper_unit, Team.ascii_upper.
  destruct ((97 <=? c)%N && (c <=? 122)%N) eqn:E1; [reflexivity|].
  replace (c =? 181)%N with false by (symmetry; apply N.eqb_neq; lia).
  replace (c =? 223)%N with false by (symmetry; apply N.eqb_neq; lia).
  replace (224 <=? c)%N with false by (symmetry; apply N.leb_gt; lia).
  replace (c =? 255)%N with false by (symmetry; apply N.eqb_neq; lia).
  reflexivity.
Qed.

Lemma ascii_is_latin1 (s : jsstring) :
  forallb Team.is_ascii_unit s = true -> Team.is_latin1 s = true.
Proof.
  unfold Team.is_latin1. rewrite !forallb_forall. intros H c Hc.
  specialize (H c Hc). unfold Team.is_ascii_unit in H.
  apply N.ltb_lt in H. apply N.ltb_lt. lia.
Qed.

Lemma toUpperCase_ascii (toUpperCase : jsstring -> jsstring) (s : jsstring) :
  Team.upper_cases_latin1 toUpperCase ->
  forallb Team.is_ascii_unit s = true ->
  toUpperCase s = map Team.ascii_upper s.
Proof.
  intros Hup Hs. rewrite (Hup s (ascii_is_latin1 s Hs)).
  induction s as [|c s IH]; simpl; [reflexivity|].
  simpl in Hs. apply andb_prop in Hs as [Hc Hs].
  rewrite (upper_unit_ascii c Hc), (IH Hs). reflexivity.
Qed.

Lemma slice_0_length {A : Type} (n : nat) (l : list A) :
  (n <= length l)%nat -> length (slice 0 n l) = n.
Proof.
  intros H. unfold slice. simpl. rewrite Nat.sub_0_r.
  rewrite length_firstn. lia.
Qed.

(** C4, as the code has it: the seven special names give their listed
    codes; any other name gives [toUpperCase] of its first three code
    units; and a name of at least three code units whose first three are
    ASCII gives exactly three code units (the ASCII upper-casing of the
    first three, unless the name is a special one). *)
Theorem toInitials_codes (toUpperCase : jsstring -> jsstring) (team : jsstring) :
  Team.upper_cases_latin1 toUpperCase ->
  Team.toInitials toUpperCase (js "Brighton and Hove Albion") = js "BHA" /\
  Team.toInitials toUpperCase (js "Manchester City") = js "MCI" /\
  Team.toInitials toUpperCase (js "Manchester United") = js "MUN" /\
  Team.toInitials toUpperCase (js "Aston Villa") = js "AVL" /\
  Team.toInitials toUpperCase (js "Sheffield United") = js "SHU" /\
  Team.toInitials toUpperCase (js "West Bromwich Albion") = js "WBA" /\
  Team.toInitials toUpperCase (js "West Ham United") = js "WHU" /\
  (~ In team (map fst Team.special_initials) ->
   Team.toInitials toUpperCase team = toUpperCase (slice 0 3 team)) /\
  ((3 <= length team)%nat ->
   forallb Team.is_ascii_unit (slice 0 3 team) = true ->
   length (Team.toInitials toUpperCase team) = 3%nat /\
   (~ In team (map fst Team.special_initials) ->
    Team.toInitials toUpperCase team = map Team.ascii_upper (slice 0 3 team))).
Proof.
  intros Hup.
  do 7 (split; [reflexivity|]).
  assert (Hother : ~ In team (map fst Team.special_initials) ->
                   Team.toInitials toUpperCase team = toUpperCase (slice 0 3 team)).
  { intros H. unfold Team.toInitials.
    now rewrite (switch_case_not_In _ _ H). }
  split; [exact Hother|].
  intros Hlen Hascii. split.
  - unfold Team.toInitials.
    destruct (Team.switch_case Team.special_initials team) as [code|] eqn:E.
    + apply switch_case_In in E.
      pose proof special_initials_have_three_units as F.
      rewrite Forall_forall in F. exact (F _ E).
    + rewrite (toUpperCase_ascii _ _ Hup Hascii), length_map.
      now apply slice_0_length.
  - intros H. rewrite (Hother H). now apply toUpperCase_ascii.
Qed.

Lemma toInitials_codes_witness :
  Team.upper_cases_latin1 Team.toUpperCase_latin1 /\
  Team.toInitials Team.toUpperCase_latin1 (js "Arsenal") = js "ARS".
Proof.
  assert (Hup : Team.upper_cases_latin1 Team.toUpperCase_latin1)
    by (intros s _; reflexivity).
  split; [exact Hup|].
  destruct (toInitials_codes Team.toUpperCase_latin1 (js "Arsenal") Hup)
    as (_ & _ & _ & _ & _ & _ & _ & _ & H).
  destruct H as [_ H]; [simpl; lia | reflexivity |].
  rewrite H; [reflexivity|].
  simpl. intros Hin. repeat destruct Hin as [Hin|Hin]; try discriminate Hin.
  exact Hin.
Defined.

(** C4 as stated fails: the name made of the code units of "ßab"
    (U+00DF, a, b) has three code units, all below U+0100, and its
    initials, "SSAB", have four. *)
Lemma toInitials_sharp_s_has_four_units :
  length [223; 97; 98]%N = 3%nat /\
  Team.toInitials Team.toUpperCase_latin1 [223; 97; 98]%N = js "SSAB" /\
  length (Team.toInitials Team.toUpperCase_latin1 [223; 97; 98]%N) = 4%nat.
Proof. repeat split. Qed.

(** The same for any upper-casing that is right on the code units up to
    U+00FF: none makes every name of three code units or more a
    three-unit code. *)
Lemma no_upper_casing_keeps_three_units :
  ~ exists toUpperCase,
      Team.upper_cases_latin1 toUpperCase /\
      forall team, (3 <= length team)%nat ->
                   length (Team.toInitials toUpperCase team) = 3%nat.
Proof.
  intros (toUpperCase & Hup & H).
  specialize (H [223; 97; 98]%N (le_n 3)).
  assert (E : Team.toInitials toUpperCase [223; 97; 98]%N
              = toUpperCase [223; 97; 98]%N) by reflexivity.
  rewrite E, (Hup [223; 97; 98]%N eq_refl) in H. discriminate H.
Qed.

(** ** [escape] *)

Definition unit_of (r : Ssr.regex) (c : N) : jsstring :=
  if Ssr.regex_matches r c then Ssr.entity (Some c) else [c].

Lemma escape_unit_unit_of (is_attr : bool) (c : N) :
  Ssr.escape_unit is_attr c =
  unit_of (if is_attr then Ssr.ATTR_REGEX else Ssr.CONTENT_REGEX) c.
Proof.
  unfold Ssr.escape_unit, unit_of, Ssr.regex_matches, Ssr.entity.
  destruct (N.eqb c Ssr.AMP) eqn:Ea; destruct is_attr; simpl;
    try reflexivity.
  - destruct (N.eqb c Ssr.QUOT); reflexivity.
  - destruct (N.eqb c Ssr.LT) eqn:El; [|reflexivity].
    apply N.eqb_eq in El. subst c. reflexivity.
Qed.

Lemma find_match_none (r : Ssr.regex) (l : jsstring) :
  Ssr.find_match r l = None -> flat_map (unit_of r) l = l.
Proof.
  induction l as [|c l IH]; simpl; [reflexivity|].
  unfold unit_of at 1.
  destruct (Ssr.regex_matches r c); [discriminate|].
  destruct (Ssr.find_match r l); [discriminate|].
  intros _. simpl. now rewrite IH.
Qed.

Lemma find_match_some (r : Ssr.regex) (l : jsstring) (k : nat) :
  Ssr.find_match r l = Some k ->
  flat_map (unit_of r) l =
  firstn k l ++ Ssr.entity (nth_error l k) ++ flat_map (unit_of r) (skipn (S k) l).
Proof.
  revert k; induction l as [|c l IH]; intros k; simpl; [discriminate|].
  unfold unit_of at 1.
  destruct (Ssr.regex_matches r c) eqn:Ec.
  - intros [= <-]. reflexivity.
  - destruct (Ssr.find_match r l) as [k'|]; [|discriminate].
    intros [= <-]. simpl. now rewrite (IH k' eq_refl).
Qed.

Lemma escape_loop_spec (r : Ssr.regex) (str : jsstring)
  (lastIndex last : nat) (escaped : jsstring) :
  last = lastIndex ->
  Ssr.escape_loop r str lastIndex last escaped =
  escaped ++ flat_map (unit_of r) (skipn last str).
Proof.
  funelim (Ssr.escape_loop r str lastIndex last escaped); intros ->.
  - (* a match at index lastIndex' - 1 *)
    clear Heqcall.
    pose proof Htest as Ht. unfold Ssr.test in Ht.
    destruct (Ssr.find_match r (skipn lastIndex str)) as [k|] eqn:E;
      [|discriminate].
    injection Ht as <-.
    replace (lastIndex + k + 1 - 1)%nat with (lastIndex + k)%nat in * by lia.
    rewrite H by lia.
    rewrite (find_match_some _ _ _ E).
    rewrite <- !app_assoc. f_equal.
    unfold slice.
    replace (lastIndex + k - lastIndex)%nat with k by lia.
    f_equal. f_equal.
    + now rewrite nth_error_skipn.
    + f_equal. rewrite skipn_skipn. f_equal. lia.
  - (* no further match *)
    pose proof Htest as Ht. unfold Ssr.test in Ht.
    destruct (Ssr.find_match r (skipn lastIndex str)) as [k|] eqn:E;
      [discriminate|].
    now rewrite (find_match_none _ _ E).
Qed.

(** C8: [escape value is_attr] is [String(value)] with each ampersand
    replaced by its entity and, in content mode, each less-than sign, in
    attribute mode, each double quote, replaced by its entity, every other
    code unit kept in place: the loop equals the per-character reference
    (and throws exactly when [String(value)] does). *)
Theorem escape_equals_reference (Value : Type) (ToString : Value -> option jsstring)
  (value : Value) (is_attr : bool) :
  Ssr.escape Value ToString value is_attr =
  option_map (Ssr.escape_reference is_attr) (ToString value).
Proof.
  unfold Ssr.escape, Ssr.escape_reference.
  destruct (ToString value) as [str|]; [|reflexivity].
  simpl. rewrite escape_loop_spec by reflexivity. simpl. f_equal.
  apply flat_map_ext. intros c. symmetry. apply escape_unit_unit_of.
Qed.

Example escape_content :
  Ssr.escape jsstring Some (js "a<b && c") false = Some (js "a&lt;b &amp;&amp; c").
Proof. reflexivity. Qed.

(** ** The store *)

Import Store.

Definition notifications (subs : list subscriber) (v : value) : list event :=
  map Invalidated subs ++ map (fun s => Ran s v) subs.

(** The invariant of the closure: outside [set] the queue is empty, [stop]
    is a function exactly while there are subscribers, and the subscribers
    are distinct arrays. *)
Record store_invariant (w : world) : Prop := {
  inv_queue : subscriber_queue w = [];
  inv_stop : stop_truthy (stop w) = true <-> subscribers w <> [];
  inv_nodup : NoDup (map sub_ref (subscribers w));
  inv_fresh : Forall (fun s => (sub_ref s < next_ref w)%nat) (subscribers w)
}.

Lemma enqueue_all_spec (subs : list subscriber) (v : value)
  (queue : list (subscriber * value)) (tr : list event) :
  enqueue_all subs v queue tr =
  (queue ++ map (fun s => (s, v)) subs, tr ++ map Invalidated subs).
Proof.
  unfold enqueue_all. revert queue tr.
  induction subs as [|s subs IH]; intros queue tr; simpl.
  - now rewrite !app_nil_r.
  - rewrite IH, <- !app_assoc. reflexivity.
Qed.

Lemma run_queue_all_spec (queue : list (subscriber * value)) (tr : list event) :
  run_queue_all queue tr = tr ++ map (fun '(s, v) => Ran s v) queue.
Proof.
  unfold run_queue_all. revert tr.
  induction queue as [|[s v] queue IH]; intros tr; simpl.
  - now rewrite app_nil_r.
  - rewrite IH, <- app_assoc. reflexivity.
Qed.

Lemma set_fields (v : value) (w : world) :
  stop (set v w) = stop w /\ subscribers (set v w) = subscribers w /\
  next_ref (set v w) = next_ref w.
Proof.
  unfold set.
  destruct (safe_not_equal (value_of w) v); [|auto].
  destruct (stop_truthy (stop w)); [|auto].
  rewrite enqueue_all_spec.
  destruct (subscriber_queue w); auto.
Qed.

Lemma set_trace (v : value) (w : world) :
  store_invariant w ->
  subscriber_queue (set v w) = [] /\
  trace (set v w) =
  trace w ++ (if safe_not_equal (value_of w) v
              then notifications (subscribers w) v else []) /\
  value_of (set v w) = if safe_not_equal (value_of w) v then v else value_of w.
Proof.
  intros [Hq Hstop _ _]. unfold set.
  destruct (safe_not_equal (value_of w) v).
  - destruct (stop_truthy (stop w)) eqn:Es.
    + rewrite enqueue_all_spec, Hq. simpl. split; [reflexivity|].
      split; [|reflexivity].
      rewrite run_queue_all_spec, map_map, <- app_assoc. reflexivity.
    + simpl. split; [exact Hq|]. split; [|reflexivity].
      destruct (subscribers w) as [|s subs] eqn:Esubs.
      * now rewrite app_nil_r.
      * assert (false = true) by (apply Hstop; discriminate).
        discriminate.
  - split; [exact Hq|]. now rewrite app_nil_r.
Qed.

Lemma set_invariant (v : value) (w : world) :
  store_invariant w -> store_invariant (set v w).
Proof.
  intros Hinv. destruct (set_fields v w) as (Hs & Hsubs & Hn).
  destruct (set_trace v w Hinv) as (Hq & _).
  destruct Hinv as [_ Hstop Hnd Hfr].
  constructor; rewrite ?Hs, ?Hsubs, ?Hn; assumption.
Qed.

Lemma subscribe_invariant (run_fn invalidate_fn : nat) (w : world) :
  store_invariant w -> store_invariant (snd (subscribe run_fn invalidate_fn w)).
Proof.
  intros [Hq Hstop Hnd Hfr]. constructor; simpl.
  - exact Hq.
  - split; [intros _; now destruct (subscribers w)|]. intros _.
    rewrite length_app. simpl.
    destruct (subscribers w) as [|s subs] eqn:E; [reflexivity|].
    simpl. replace (length subs + 1 =? 0)%nat with false
      by (symmetry; apply Nat.eqb_neq; lia).
    apply Hstop. discriminate.
  - rewrite map_app. simpl. apply NoDup_app; [exact Hnd | repeat constructor; tauto |].
    intros r Hr [<-|[]]. apply in_map_iff in Hr as (s & Hs & Hin).
    rewrite Forall_forall in Hfr. specialize (Hfr s Hin). lia.
  - apply Forall_app. split.
    + eapply Forall_impl; [|exact Hfr]. simpl. intros; lia.
    + repeat constructor.
Qed.

Lemma NoDup_map_filter {A B : Type} (g : A -> B) (f : A -> bool) (l : list A) :
  NoDup (map g l) -> NoDup (map g (filter f l)).
Proof.
  induction l as [|x l IH]; simpl; [auto|].
  intros H. inversion H as [|? ? Hx Hl]; subst.
  destruct (f x); simpl; [constructor|]; auto.
  intros Hin. apply Hx. apply in_map_iff in Hin as (y & Hy & Hin).
  apply filter_In in Hin as [Hin _]. apply in_map_iff. eauto.
Qed.

Lemma Forall_filter {A : Type} (P : A -> Prop) (f : A -> bool) (l : list A) :
  Forall P l -> Forall P (filter f l).
Proof.
  intros H. rewrite Forall_forall in *. intros x Hx.
  apply filter_In in Hx as [Hx _]. auto.
Qed.

Lemma unsubscribe_invariant (s : subscriber) (w w' : world) :
  store_invariant w -> unsubscribe s w = Some w' -> store_invariant w'.
Proof.
  intros [Hq Hstop Hnd Hfr]. unfold unsubscribe.
  destruct (length (delete s (subscribers w)) =? 0)%nat eqn:Elen.
  - destruct (stop_truthy (stop w)); [|discriminate].
    intros [= <-]. apply Nat.eqb_eq in Elen. apply length_zero_iff_nil in Elen.
    constructor; simpl; rewrite ?Elen; auto.
    + split; [discriminate | congruence].
    + constructor.
  - intros [= <-]. apply Nat.eqb_neq in Elen.
    assert (Hne : delete s (subscribers w) <> []).
    { intros E. rewrite E in Elen. simpl in Elen. lia. }
    constructor; simpl; auto.
    + split; [auto|]. intros _. apply Hstop. intros E.
      apply Hne. unfold delete. now rewrite E.
    + now apply NoDup_map_filter.
    + now apply Forall_filter.
Qed.

Lemma reachable_invariant (w : world) : reachable w -> store_invariant w.
Proof.
  induction 1 as [v|v w _ IH|fn w _ IH|r i w _ IH|s w w' _ IH Hun].
  - constructor; simpl; auto using NoDup_nil.
    split; [discriminate | congruence].
  - now apply set_invariant.
  - now apply set_invariant.
  - now apply subscribe_invariant.
  - eapply unsubscribe_invariant; eauto.
Qed.

Lemma delete_other (s : subscriber) (l : list subscriber) :
  ~ In (sub_ref s) (map sub_ref l) -> delete s l = l.
Proof.
  induction l as [|x l IH]; simpl; [reflexivity|].
  intros H. destruct (sub_ref x =? sub_ref s)%nat eqn:E.
  - apply Nat.eqb_eq in E. tauto.
  - simpl. f_equal. apply IH. tauto.
Qed.

Lemma delete_exactly (s : subscriber) (l1 l2 : list subscriber) :
  NoDup (map sub_ref (l1 ++ s :: l2)) ->
  delete s (l1 ++ s :: l2) = l1 ++ l2 /\ ~ In s (l1 ++ l2).
Proof.
  intros H. rewrite map_app in H. simpl in H.
  apply NoDup_remove in H as [_ Hs]. rewrite <- map_app in Hs.
  split.
  - unfold delete. rewrite filter_app. simpl. rewrite Nat.eqb_refl. simpl.
    rewrite <- filter_app. apply delete_other. exact Hs.
  - intros Hin. apply Hs. now apply in_map.
Qed.

Lemma float_eqb_left_refl (x y : float) :
  PrimFloat.eqb x y = true -> PrimFloat.eqb x x = true.
Proof.
  rewrite !eqb_spec. unfold SFeqb.
  destruct (Prim2SF x) as [s|s| |s m e], (Prim2SF y) as [s'|s'| |s' m' e'];
    simpl; try discriminate; try reflexivity.
  all: try (destruct s; reflexivity).
  all: intros _; rewrite Z.compare_refl; destruct s;
    rewrite ?Pos.compare_cont_refl; reflexivity.
Qed.

Lemma strict_equal_left_refl (a b : value) :
  strict_equal a b = true -> equals_itself a = true.
Proof.
  unfold equals_itself.
  destruct a, b; simpl; try discriminate; intros H; try reflexivity.
  - apply eqb_reflx.
  - eapply float_eqb_left_refl; eauto.
  - apply Z.eqb_refl.
  - apply jsstring_eqb_refl.
  - apply Nat.eqb_refl.
  - apply Nat.eqb_refl.
  - apply Nat.eqb_refl.
Qed.

(** Setting a primitive strictly equal to the current value is no change. *)
Lemma safe_not_equal_primitive (a b : value) :
  is_primitive b = true -> strict_equal a b = true -> safe_not_equal a b = false.
Proof.
  intros Hp He. unfold safe_not_equal.
  rewrite (strict_equal_left_refl a b He), He. simpl.
  destruct a, b; simpl in *; try discriminate;
    rewrite ?andb_false_r; reflexivity.
Qed.

(** Setting an object or a function is always a change. *)
Lemma safe_not_equal_reference (a b : value) :
  is_primitive b = false -> safe_not_equal a b = true.
Proof.
  intros Hp. unfold safe_not_equal, equals_itself.
  destruct b; simpl in Hp; try discriminate.
  - destruct a; simpl; rewrite ?Nat.eqb_refl; try reflexivity.
    + now destruct (Bool.eqb b b).
    + now destruct (PrimFloat.eqb x x).
    + now destruct (z =? z).
    + now destruct (jsstring_eqb s s).
    + now rewrite orb_true_r.
  - destruct a; simpl; rewrite ?Nat.eqb_refl; try reflexivity.
    + now destruct (Bool.eqb b b).
    + now destruct (PrimFloat.eqb x x).
    + now destruct (z =? z).
    + now destruct (jsstring_eqb s s).
    + now rewrite orb_true_r.
Qed.

(** A value that differs from the current one is a change. *)
Lemma safe_not_equal_differs (a b : value) :
  same_value_zero a b = false -> safe_not_equal a b = true.
Proof.
  unfold same_value_zero, safe_not_equal, equals_itself.
  intros H. apply orb_false_iff in H as [Hs Hn]. rewrite Hs. simpl.
  destruct (strict_equal a a) eqn:Ea; simpl; [reflexivity|].
  destruct a; simpl in Ea; try discriminate;
    rewrite ?Nat.eqb_refl, ?Z.eqb_refl, ?eqb_reflx, ?jsstring_eqb_refl in Ea;
    try discriminate.
  simpl in Hn. rewrite Ea in Hn. simpl in Hn.
  destruct b; simpl;
    rewrite ?Nat.eqb_refl, ?Z.eqb_refl, ?eqb_reflx, ?jsstring_eqb_refl;
    try reflexivity.
  simpl in Hn. now apply negb_false_iff in Hn.
Qed.

(** C2: in a state of a store made by [writable(v)], [subscribe(run)] calls
    [run] at once with the current value and registers a new subscriber;
    the closure it returns (for any registered subscriber) removes exactly
    that subscriber; [set(w)] with a [w] that differs from the current value
    stores [w] and calls every registered subscriber once with [w];
    [update(fn)] is [set(fn(value))]. *)
Theorem writable_store_contract (w : world) :
  reachable w ->
  (forall run_fn invalidate_fn,
     let s := fst (subscribe run_fn invalidate_fn w) in
     let w1 := snd (subscribe run_fn invalidate_fn w) in
     run s = run_fn /\
     trace w1 = trace w ++ [Ran s (value_of w)] /\
     subscribers w1 = subscribers w ++ [s] /\
     ~ In s (subscribers w) /\
     value_of w1 = value_of w) /\
  (forall s, In s (subscribers w) ->
     exists w' l1 l2,
       unsubscribe s w = Some w' /\
       subscribers w = l1 ++ s :: l2 /\
       subscribers w' = l1 ++ l2 /\ ~ In s (l1 ++ l2) /\
       trace w' = trace w /\ value_of w' = value_of w) /\
  (forall v, same_value_zero (value_of w) v = false ->
     value_of (set v w) = v /\
     subscribers (set v w) = subscribers w /\
     trace (set v w) =
       trace w ++ map Invalidated (subscribers w)
               ++ map (fun s => Ran s v) (subscribers w)) /\
  NoDup (subscribers w) /\
  (forall fn, update fn w = set (fn (value_of w)) w).
Proof.
  intros Hr. pose proof (reachable_invariant w Hr) as Hinv.
  pose proof Hinv as [Hq Hstop Hnd Hfr].
  split; [|split; [|split; [|split]]].
  - intros run_fn invalidate_fn. simpl. repeat split.
    intros Hin. rewrite Forall_forall in Hfr. specialize (Hfr _ Hin).
    simpl in Hfr. lia.
  - intros s Hin. apply in_split in Hin as (l1 & l2 & Hsplit).
    destruct (delete_exactly s l1 l2) as [Hdel Hnot];
      [now rewrite <- Hsplit|].
    rewrite <- Hsplit in Hdel.
    unfold unsubscribe. rewrite Hdel.
    assert (Hst : stop_truthy (stop w) = true).
    { apply Hstop. rewrite Hsplit. now destruct l1. }
    rewrite Hst.
    destruct (length (l1 ++ l2) =? 0)%nat; eexists; exists l1, l2;
      repeat split; auto.
  - intros v Hdiff. destruct (set_trace v w Hinv) as (_ & Ht & Hv).
    rewrite (safe_not_equal_differs _ _ Hdiff) in Ht, Hv.
    destruct (set_fields v w) as (_ & Hsubs & _). auto.
  - eapply NoDup_map_inv; eauto.
  - reflexivity.
Qed.

(** C9: with subscribers registered, [set(v)] notifies exactly when
    [safe_not_equal(value, v)] holds: a primitive strictly equal to the
    current value changes nothing at all, and an object or a function, even
    the one the store already holds, notifies every subscriber. *)
Theorem set_notifies_iff_safe_not_equal (w : world) (v : value) :
  reachable w ->
  trace (set v w) =
    trace w ++ (if safe_not_equal (value_of w) v
                then notifications (subscribers w) v else []) /\
  (is_primitive v = true -> strict_equal (value_of w) v = true -> set v w = w) /\
  (is_primitive v = false ->
   trace (set v w) = trace w ++ notifications (subscribers w) v /\
   value_of (set v w) = v).
Proof.
  intros Hr. pose proof (reachable_invariant w Hr) as Hinv.
  destruct (set_trace v w Hinv) as (_ & Ht & Hv).
  split; [exact Ht|]. split.
  - intros Hp He. unfold set.
    now rewrite (safe_not_equal_primitive _ _ Hp He).
  - intros Hp. rewrite (safe_not_equal_reference _ _ Hp) in Ht, Hv. auto.
Qed.

(** A store holding the string "a" with one subscriber. *)
Definition sample_store : world :=
  snd (subscribe 7 0 (writable (VString (js "a")))).

Lemma sample_store_reachable : reachable sample_store.
Proof. apply reach_subscribe, reach_writable. Qed.

Lemma writable_store_contract_witness :
  reachable sample_store /\
  forall v, same_value_zero (value_of sample_store) v = false ->
    value_of (set v sample_store) = v /\
    subscribers (set v sample_store) = subscribers sample_store /\
    trace (set v sample_store) =
      trace sample_store ++ map Invalidated (subscribers sample_store)
        ++ map (fun s => Ran s v) (subscribers sample_store).
Proof.
  split; [exact sample_store_reachable|].
  exact (proj1 (proj2 (proj2
           (writable_store_contract sample_store sample_store_reachable)))).
Defined.

Lemma set_notifies_iff_safe_not_equal_witness :
  reachable sample_store /\
  (is_primitive (VString (js "a")) = true ->
   strict_equal (value_of sample_store) (VString (js "a")) = true ->
   set (VString (js "a")) sample_store = sample_store).
Proof.
  split; [exact sample_store_reachable|].
  exact (proj1 (proj2
           (set_notifies_iff_safe_not_equal sample_store (VString (js "a"))
              sample_store_reachable))).
Defined.

Example sample_store_set_b :
  trace (set (VString (js "b")) sample_store) =
  let s := {| sub_ref := 0; run := 7; invalidate := 0 |} in
  [Ran s (VString (js "a")); Invalidated s; Ran s (VString (js "b"))].
Proof. reflexivity. Qed.

Example sample_store_set_same_object :
  let w := snd (subscribe 7 0 (writable (VObject 3))) in
  trace (set (VObject 3) w) =
  let s := {| sub_ref := 0; run := 7; invalidate := 0 |} in
  [Ran s (VObject 3); Invalidated s; Ran s (VObject 3)].
Proof. reflexivity. Qed.

Example sample_store_set_nan :
  let w := snd (subscribe 7 0 (writable (VNumber nan))) in
  set (VNumber nan) w = w.
Proof. reflexivity. Qed.

(** ** Objects *)

Lemma get_put_same {V : Type} (o : object V) (k : jsstring) (v : V) :
  get (put o k v) k = Some v.
Proof.
  induction o as [|[k' v'] o IH]; simpl.
  - now rewrite jsstring_eqb_refl.
  - destruct (jsstring_eqb k' k) eqn:E; simpl; rewrite E; auto.
Qed.

Lemma get_put_other {V : Type} (o : object V) (k k' : jsstring) (v : V) :
  k <> k' -> get (put o k v) k' = get o k'.
Proof.
  intros Hne. induction o as [|[k0 v0] o IH]; simpl.
  - destruct (jsstring_eqb k k') eqn:E; [|reflexivity].
    apply jsstring_eqb_spec in E. contradiction.
  - destruct (jsstring_eqb k0 k) eqn:E; simpl.
    + apply jsstring_eqb_spec in E. subst k0.
      destruct (jsstring_eqb k k') eqn:E'; [|reflexivity].
      apply jsstring_eqb_spec in E'. contradiction.
    + now rewrite IH.
Qed.

(** ** Clean sheets *)

Import StatsValues.

(** The entry of one team after the two calls of [countOccurances]. *)
Fixpoint tally (entries : list (jsstring * fixture)) (e : team_stats) : team_stats :=
  match entries with
  | [] => e
  | (_, m) :: rest =>
      tally rest (match fx_score m with
                  | Some sc => count_match sc (atHome m) e
                  | None => e
                  end)
  end.

Definition season_entries (d : data) (team : jsstring) (season : Z)
  : list (jsstring * fixture) :=
  match form d team with
  | None => []
  | Some seasons => entries (seasons season)
  end.

(** The team's form, when it has one, has the season: the condition under
    which [Object.keys(data.form[team][season])] does not throw. *)
Definition has_season (d : data) (team : jsstring) (season : Z) : Prop :=
  match form d team with
  | None => True
  | Some seasons => seasons season <> None
  end.

Definition has_seasons (d : data) (team : jsstring) : Prop :=
  has_season d team (_id d) /\ has_season d team (_id d - 1).

Definition team_entry (d : data) (team : jsstring) : team_stats :=
  divide_by_played
    (tally (season_entries d team (_id d - 1))
       (tally (season_entries d team (_id d)) zero_stats)).

Definition plays (l : list fixture) : list (score * bool) :=
  flat_map (fun m => match fx_score m with
                     | Some sc => [(sc, atHome m)]
                     | None => []
                     end) l.

Lemma isCleanSheet_conceded_none (sc : score) (home : bool) :
  isCleanSheet (homeGoals sc) (awayGoals sc) home = conceded_none (sc, home).
Proof.
  unfold isCleanSheet, conceded_none.
  destruct home; simpl; now rewrite ?andb_true_r, ?andb_false_r, ?orb_false_r.
Qed.

Lemma count_matchdays_spec (team : jsstring) (entries : list (jsstring * fixture))
  (st : object team_stats) (e : team_stats) :
  get st team = Some e ->
  exists st',
    count_matchdays team st entries = Some st' /\
    get st' team = Some (tally entries e) /\
    forall k, k <> team -> get st' k = get st k.
Proof.
  revert st e. induction entries as [|[day m] rest IH]; intros st e Hget; simpl.
  - exists st. auto.
  - unfold count_matchday. destruct (fx_score m) as [sc|].
    + rewrite Hget.
      destruct (IH (put st team (count_match sc (atHome m) e))
                   (count_match sc (atHome m) e)) as (st' & H1 & H2 & H3).
      { apply get_put_same. }
      exists st'. repeat split; auto.
      intros k Hk. rewrite (H3 k Hk). apply get_put_other. congruence.
    + now apply IH.
Qed.

Lemma countOccurances_spec (d : data) (team : jsstring) (season : Z)
  (st : object team_stats) (e : team_stats) :
  has_season d team season ->
  get st team = Some e ->
  exists st',
    countOccurances d st team season = Some st' /\
    get st' team = Some (tally (season_entries d team season) e) /\
    forall k, k <> team -> get st' k = get st k.
Proof.
  intros Hs Hget. unfold countOccurances, season_entries, has_season in *.
  destruct (form d team) as [seasons|].
  - destruct (seasons season) as [matchdays|]; [|congruence].
    now apply count_matchdays_spec.
  - exists st. auto.
Qed.

Lemma countOccurances_throws (d : data) (team : jsstring) (season : Z)
  (st : object team_stats) :
  ~ has_season d team season -> countOccurances d st team season = None.
Proof.
  unfold countOccurances, has_season. intros Hs.
  destruct (form d team) as [seasons|]; [|tauto].
  destruct (seasons season); [|reflexivity]. exfalso. apply Hs. discriminate.
Qed.

Lemma has_season_dec (d : data) (team : jsstring) (season : Z) :
  {has_season d team season} + {~ has_season d team season}.
Proof.
  unfold has_season. destruct (form d team) as [seasons|]; [|left; exact I].
  destruct (seasons season); [left; discriminate|right; tauto].
Qed.

Lemma build_team_spec (d : data) (st : object team_stats) (team : jsstring) :
  has_seasons d team ->
  exists st',
    build_team d st team = Some st' /\
    get st' team = Some (team_entry d team) /\
    forall k, k <> team -> get st' k = get st k.
Proof.
  intros [Hs1 Hs2]. unfold build_team.
  destruct (countOccurances_spec d team (_id d) (put st team zero_stats) zero_stats Hs1)
    as (st1 & H1 & G1 & O1); [apply get_put_same|].
  destruct (countOccurances_spec d team (_id d - 1) st1 _ Hs2 G1)
    as (st2 & H2 & G2 & O2).
  rewrite H1, H2, G2. eexists. split; [reflexivity|]. split.
  - apply get_put_same.
  - intros k Hk. rewrite get_put_other by congruence.
    rewrite (O2 k Hk), (O1 k Hk). apply get_put_other. congruence.
Qed.

Lemma build_team_throws (d : data) (st : object team_stats) (team : jsstring) :
  ~ has_seasons d team -> build_team d st team = None.
Proof.
  intros Hn. unfold build_team.
  destruct (has_season_dec d team (_id d)) as [Hs1|Hs1].
  - destruct (countOccurances_spec d team (_id d) (put st team zero_stats) zero_stats Hs1)
      as (st1 & H1 & _); [apply get_put_same|].
    rewrite H1. rewrite countOccurances_throws; [reflexivity|].
    intros Hs2. apply Hn. now split.
  - now rewrite countOccurances_throws.
Qed.

Lemma build_teams_spec (d : data) (teams : list jsstring) (st : object team_stats) :
  (forall t, In t teams -> has_seasons d t) ->
  exists st',
    build_teams d st teams = Some st' /\
    (forall t, In t teams -> get st' t = Some (team_entry d t)) /\
    (forall k, ~ In k teams -> get st' k = get st k).
Proof.
  revert st. induction teams as [|team rest IH]; intros st Hall; simpl.
  - exists st. repeat split; auto. intros t [].
  - destruct (build_team_spec d st team) as (st1 & H1 & G1 & O1);
      [apply Hall; now left|].
    rewrite H1. destruct (IH st1) as (st' & H2 & G2 & O2);
      [intros t Ht; apply Hall; now right|].
    exists st'. split; [exact H2|]. split.
    + intros t Hin.
      destruct (in_dec (list_eq_dec N.eq_dec) t rest) as [Hr|Hr].
      * now apply G2.
      * destruct Hin as [<-|Hin]; [|contradiction].
        now rewrite (O2 _ Hr).
    + intros k Hk. rewrite O2 by tauto. apply O1. intros ->. tauto.
Qed.

Lemma build_teams_throws (d : data) (teams : list jsstring) (st : object team_stats) :
  (exists t, In t teams /\ ~ has_seasons d t) -> build_teams d st teams = None.
Proof.
  revert st. induction teams as [|team rest IH]; intros st (t & Hin & Hn); simpl.
  - destruct Hin.
  - destruct (build_team d st team) as [st1|] eqn:E; [|reflexivity].
    apply IH. exists t. split; [|exact Hn].
    destruct Hin as [<-|Hin]; [|exact Hin].
    rewrite (build_team_throws d st team Hn) in E. discriminate.
Qed.

Lemma count_match_fields (sc : score) (home : bool) (e : team_stats) :
  cleanSheetRatio (count_match sc home e) =
    (if conceded_none (sc, home) then cleanSheetRatio e + 1 else cleanSheetRatio e)%Q /\
  played (count_match sc home e) = (played e + 1)%Q.
Proof.
  unfold count_match. rewrite isCleanSheet_conceded_none.
  destruct (conceded_none (sc, home));
    destruct (notScored (homeGoals sc) (awayGoals sc) home); split; reflexivity.
Qed.

Lemma plays_cons (m : fixture) (l : list fixture) :
  plays (m :: l) =
  match fx_score m with
  | Some sc => (sc, atHome m) :: plays l
  | None => plays l
  end.
Proof. unfold plays. simpl. now destruct (fx_score m). Qed.

Lemma tally_counts (entries : list (jsstring * fixture)) (e : team_stats) :
  (cleanSheetRatio (tally entries e) ==
     cleanSheetRatio e
     + inject_Z (Z.of_nat (length (filter conceded_none (plays (map snd entries))))))%Q /\
  (played (tally entries e) ==
     played e + inject_Z (Z.of_nat (length (plays (map snd entries)))))%Q.
Proof.
  revert e. induction entries as [|[day m] rest IH]; intros e.
  - simpl. split; ring.
  - cbn [tally map snd]. rewrite plays_cons.
    destruct (fx_score m) as [sc|] eqn:Esc; [|apply IH].
    destruct (IH (count_match sc (atHome m) e)) as [Hc Hp].
    destruct (count_match_fields sc (atHome m) e) as [Fc Fp].
    rewrite Hc, Hp, Fc, Fp. clear Hc Hp Fc Fp IH.
    cbn [filter].
    destruct (conceded_none (sc, atHome m)); cbn [length];
      rewrite ?Nat2Z.inj_succ; unfold Z.succ; rewrite ?inject_Z_plus;
      split; ring.
Qed.

Lemma played_matches_plays (d : data) (team : jsstring) :
  played_matches d team =
  plays (map snd (season_entries d team (_id d)))
  ++ plays (map snd (season_entries d team (_id d - 1))).
Proof.
  unfold played_matches, plays, season_fixtures, season_entries.
  rewrite flat_map_app. destruct (form d team); reflexivity.
Qed.

(** C5: when every team of [data.standings] that has a form has the
    seasons [_id] and [_id - 1] in it, [buildStats] returns, and for a team
    of [data.standings] the clean-sheet ratio is the number of its played
    matches of seasons [_id] and [_id - 1] in which it conceded no goal
    divided by the number of those played matches when that number is
    positive, and 0 when the team played none. *)
Theorem buildStats_clean_sheet_ratio (d : data) (team : jsstring) :
  (forall t, In t (standings d) -> has_seasons d t) ->
  In team (standings d) ->
  exists stats e,
    buildStats d = Some stats /\
    get stats team = Some e /\
    let total := Z.of_nat (length (played_matches d team)) in
    let clean :=
      Z.of_nat (length (filter conceded_none (played_matches d team))) in
    (0 < total -> (cleanSheetRatio e == inject_Z clean / inject_Z total)%Q) /\
    (total = 0 -> (cleanSheetRatio e == 0)%Q).
Proof.
  intros Hall Hin. unfold buildStats.
  destruct (build_teams_spec d (standings d) [] Hall) as (stats & Hb & Hg & _).
  exists stats, (team_entry d team). split; [exact Hb|].
  split; [now apply Hg|]. cbv zeta.
  rewrite played_matches_plays, filter_app, !length_app, !Nat2Z.inj_add.
  unfold team_entry.
  set (s1 := season_entries d team (_id d)).
  set (s2 := season_entries d team (_id d - 1)).
  destruct (tally_counts s1 zero_stats) as [Hc1 Hp1].
  destruct (tally_counts s2 (tally s1 zero_stats)) as [Hc2 Hp2].
  rewrite Hc1 in Hc2. rewrite Hp1 in Hp2. simpl in Hc2, Hp2.
  set (c1 := Z.of_nat (length (filter conceded_none (plays (map snd s1))))) in *.
  set (c2 := Z.of_nat (length (filter conceded_none (plays (map snd s2))))) in *.
  set (n1 := Z.of_nat (length (plays (map snd s1)))) in *.
  set (n2 := Z.of_nat (length (plays (map snd s2)))) in *.
  assert (Hc : (cleanSheetRatio (tally s2 (tally s1 zero_stats)) == inject_Z (c1 + c2))%Q).
  { rewrite Hc2, inject_Z_plus. ring. }
  assert (Hp : (played (tally s2 (tally s1 zero_stats)) == inject_Z (n1 + n2))%Q).
  { rewrite Hp2, inject_Z_plus. ring. }
  assert (Hle1 : 0 <= c1 <= n1).
  { unfold c1, n1. pose proof (filter_length_le conceded_none (plays (map snd s1))). lia. }
  assert (Hle2 : 0 <= c2 <= n2).
  { unfold c2, n2. pose proof (filter_length_le conceded_none (plays (map snd s2))). lia. }
  unfold divide_by_played.
  destruct (Qlt_le_dec 0 (played (tally s2 (tally s1 zero_stats)))) as [Hpos|Hnpos];
    simpl; split.
  - intros _. now rewrite Hc, Hp.
  - intros H0. rewrite Hp, H0 in Hpos. discriminate.
  - intros Hn. rewrite Hp in Hnpos.
    assert (inject_Z 0 < inject_Z (n1 + n2))%Q by (rewrite <- Zlt_Qlt; lia).
    exfalso. apply (Qlt_irrefl 0). eapply Qlt_le_trans; eauto.
  - intros H0. rewrite Hc. replace (c1 + c2) with 0 by lia. reflexivity.
Qed.

Definition sample_data : data :=
  {| _id := 2022;
     standings := [js "Arsenal"; js "Fulham"];
     form := fun team =>
       if jsstring_eqb team (js "Arsenal") then
         Some (fun season =>
           if season =? 2022 then
             Some
             [ (js "1", {| fx_score := Some {| homeGoals := 2; awayGoals := 0 |};
                           atHome := true |});
               (js "2", {| fx_score := Some {| homeGoals := 1; awayGoals := 1 |};
                           atHome := false |});
               (js "3", {| fx_score := None; atHome := true |}) ]
           else if season =? 2021 then
             Some
             [ (js "38", {| fx_score := Some {| homeGoals := 0; awayGoals := 3 |};
                            atHome := false |}) ]
           else None)
       else None |}.

Lemma sample_data_has_seasons (t : jsstring) :
  In t (standings sample_data) -> has_seasons sample_data t.
Proof.
  intros [<-|[<-|[]]]; split; vm_compute; solve [exact I | discriminate].
Qed.

(** A first season: the promoted team has no entry for the season
    before. *)
Definition first_season_data : data :=
  {| _id := 2022;
     standings := [js "Arsenal"];
     form := fun team =>
       if jsstring_eqb team (js "Arsenal") then
         Some (fun season =>
           if season =? 2022 then
             Some
             [ (js "1", {| fx_score := Some {| homeGoals := 2; awayGoals := 0 |};
                           atHome := true |}) ]
           else None)
       else None |}.

Lemma buildStats_clean_sheet_ratio_witness :
  (forall t, In t (standings sample_data) -> has_seasons sample_data t) /\
  In (js "Arsenal") (standings sample_data) /\
  exists stats e,
    buildStats sample_data = Some stats /\
    get stats (js "Arsenal") = Some e /\
    let total := Z.of_nat (length (played_matches sample_data (js "Arsenal"))) in
    let clean :=
      Z.of_nat (length (filter conceded_none
                          (played_matches sample_data (js "Arsenal")))) in
    (0 < total -> (cleanSheetRatio e == inject_Z clean / inject_Z total)%Q) /\
    (total = 0 -> (cleanSheetRatio e == 0)%Q).
Proof.
  split; [exact sample_data_has_seasons|].
  split; [simpl; tauto|].
  apply (buildStats_clean_sheet_ratio sample_data (js "Arsenal")).
  - exact sample_data_has_seasons.
  - simpl. tauto.
Defined.

(** C5, the case the sentence leaves out: the team is in
    [data.standings] and played a match of season [_id], its form has no
    season [_id - 1], and [buildStats] throws instead of computing a
    ratio. *)
Lemma buildStats_throws_on_missing_season :
  In (js "Arsenal") (standings first_season_data) /\
  length (played_matches first_season_data (js "Arsenal")) = 1%nat /\
  buildStats first_season_data = None.
Proof. repeat split; vm_compute; tauto. Qed.

Example buildStats_sample :
  option_map (fun stats => option_map cleanSheetRatio (get stats (js "Arsenal")))
             (buildStats sample_data) = Some (Some (2 / 3)%Q) /\
  option_map (fun stats => option_map cleanSheetRatio (get stats (js "Fulham")))
             (buildStats sample_data) = Some (Some 0%Q).
Proof. split; vm_compute; reflexivity. Qed.

(** ** Sorting *)

Section SortFacts.

Context {A : Type} (cmp : A -> A -> Z).

Let le (x y : A) : Prop := cmp x y <= 0.

Hypothesis le_total : forall x y, cmp x y <= 0 \/ cmp y x <= 0.
Hypothesis le_trans : forall x y z, cmp x y <= 0 -> cmp y z <= 0 -> cmp x z <= 0.

Lemma insert_Permutation (x : A) (l : list A) :
  Permutation (x :: l) (insert cmp x l).
Proof.
  induction l as [|y l IH]; simpl; [reflexivity|].
  destruct (cmp x y <=? 0); [reflexivity|].
  rewrite perm_swap. now constructor.
Qed.

Lemma sort_Permutation (l : list A) : Permutation l (sort cmp l).
Proof.
  induction l as [|x l IH]; simpl; [constructor|].
  rewrite <- insert_Permutation. now constructor.
Qed.

Lemma insert_sorted (x : A) (l : list A) :
  StronglySorted le l -> StronglySorted le (insert cmp x l).
Proof.
  induction 1 as [|y l Hs IH Hall]; simpl.
  - repeat constructor.
  - destruct (cmp x y <=? 0) eqn:E.
    + apply Z.leb_le in E. constructor; [now constructor|].
      constructor; [exact E|].
      eapply Forall_impl; [|exact Hall]. intros z Hz. eapply le_trans; eauto.
    + apply Z.leb_gt in E. constructor; [exact IH|].
      eapply Permutation_Forall; [apply insert_Permutation|].
      constructor; [|exact Hall].
      destruct (le_total x y); [lia|assumption].
Qed.

Lemma sort_sorted (l : list A) : StronglySorted le (sort cmp l).
Proof.
  induction l as [|x l IH]; simpl; [constructor|]. now apply insert_sorted.
Qed.

End SortFacts.

(** ** The router *)

Import Router.

Lemma fold_add_segment (l : list jsstring) (acc : Z) :
  fold_left add_segment l acc = acc + fold_right Z.add 0 (map segment_points l).
Proof.
  revert acc. induction l as [|s l IH]; intros acc; simpl; [lia|].
  rewrite IH. unfold add_segment, segment_points,
    SEGMENT_POINTS, ROOT_POINTS, DYNAMIC_POINTS, SPLAT_PENALTY, STATIC_POINTS.
  destruct (isRootSegment s); [lia|].
  destruct (isDynamic s); [lia|].
  destruct (isSplat s); lia.
Qed.

(** The score [rankRoute] gives a route that is not the default one is the
    score of the claim. *)
Lemma rankRoute_score (r : route) (i : Z) :
  r_score (rankRoute r i) = if default r then 0 else route_score r.
Proof.
  unfold rankRoute, route_score. simpl.
  destruct (default r); [reflexivity|]. now rewrite fold_add_segment.
Qed.

Lemma compare_ranked_le (a b : ranked) :
  compare_ranked a b <= 0 <->
  r_score b < r_score a \/ (r_score b = r_score a /\ r_index a <= r_index b).
Proof.
  unfold compare_ranked.
  destruct (r_score a <? r_score b) eqn:E1;
    [apply Z.ltb_lt in E1 | apply Z.ltb_ge in E1].
  - split; lia.
  - destruct (r_score a >? r_score b) eqn:E2;
      [apply Z.gtb_lt in E2 | rewrite Z.gtb_ltb in E2; apply Z.ltb_ge in E2];
      split; lia.
Qed.

Lemma compare_ranked_total (a b : ranked) :
  compare_ranked a b <= 0 \/ compare_ranked b a <= 0.
Proof. rewrite !compare_ranked_le. lia. Qed.

Lemma compare_ranked_trans (a b c : ranked) :
  compare_ranked a b <= 0 -> compare_ranked b c <= 0 -> compare_ranked a c <= 0.
Proof. rewrite !compare_ranked_le. lia. Qed.

Lemma rankRoutes_sorted (routes : list route) :
  StronglySorted (fun a b => compare_ranked a b <= 0) (rankRoutes routes).
Proof.
  apply sort_sorted; [apply compare_ranked_total | apply compare_ranked_trans].
Qed.

Lemma map_indexed_In (routes : list route) (from : Z) (x : ranked) :
  In x (map_indexed routes from) <->
  exists i r, nth_error routes i = Some r /\ x = rankRoute r (from + Z.of_nat i).
Proof.
  revert from. induction routes as [|r0 routes IH]; intros from; simpl.
  - split; [tauto|]. intros (i & r & H & _). now destruct i.
  - rewrite IH. split.
    + intros [<-|(i & r & H & ->)].
      * exists O, r0. split; [reflexivity|]. f_equal. lia.
      * exists (S i), r. split; [exact H|]. f_equal. lia.
    + intros ([|i] & r & H & ->); simpl in H.
      * left. injection H as ->. f_equal. lia.
      * right. exists i, r. split; [exact H|]. f_equal. lia.
Qed.

Lemma rankRoutes_In (routes : list route) (x : ranked) :
  In x (rankRoutes routes) <->
  exists i r, nth_error routes i = Some r /\ x = rankRoute r (Z.of_nat i).
Proof.
  unfold rankRoutes. split.
  - intros H. eapply Permutation_in in H;
      [|symmetry; apply sort_Permutation].
    apply map_indexed_In in H. exact H.
  - intros H. eapply Permutation_in; [apply sort_Permutation|].
    apply map_indexed_In. exact H.
Qed.

Definition decodable (uri : jsstring) : Prop :=
  Forall (fun segment => Uri.decodeURIComponent segment <> None) (uriSegments uri).

Lemma decode_all_total (l : list jsstring) :
  Forall (fun segment => Uri.decodeURIComponent segment <> None) l ->
  exists decoded, decode_all l = Some decoded.
Proof.
  induction 1 as [|s l Hs _ IH]; simpl; [eauto|].
  destruct IH as (ds & ->).
  destruct (Uri.decodeURIComponent s); [eauto | contradiction].
Qed.

Lemma match_segments_no_throw (root : bool) (routeSegs uriSegs : list jsstring)
  (params : object jsstring) (index : nat) :
  Forall (fun segment => Uri.decodeURIComponent segment <> None) uriSegs ->
  match_segments root routeSegs uriSegs params index <> Threw.
Proof.
  revert uriSegs params index.
  induction routeSegs as [|rs routeRest IH]; intros uriSegs params index Hdec.
  - destruct uriSegs; simpl; discriminate.
  - simpl. destruct (isSplat rs).
    + destruct (decode_all_total _ Hdec) as (ds & ->). discriminate.
    + destruct uriSegs as [|us uriRest]; [discriminate|].
      inversion Hdec as [|? ? Hus Hrest]; subst.
      destruct (paramRe_exec rs) as [name|].
      * destruct (negb root).
        -- destruct (Uri.decodeURIComponent us); [now apply IH | contradiction].
        -- destruct (negb (jsstring_eqb rs us)); [discriminate | now apply IH].
      * destruct (negb (jsstring_eqb rs us)); [discriminate | now apply IH].
Qed.

Lemma match_route_no_throw (r : route) (uri : jsstring) :
  decodable uri -> match_route r uri <> Threw.
Proof. intros H. now apply match_segments_no_throw. Qed.

(** The default match the loop holds after a stretch of ranked routes. *)
Definition default_after (l : list ranked) (uri : jsstring) (d : option matched)
  : option matched :=
  fold_left (fun acc x =>
               if default (r_route x)
               then Some {| m_route := r_route x; m_params := []; m_uri := uri |}
               else acc) l d.

Definition hit (x : ranked) (uri : jsstring) (params : object jsstring) (index : nat)
  : matched :=
  {| m_route := r_route x; m_params := params;
     m_uri := SLASH :: join SLASH (slice 0 index (uriSegments uri)) |}.

(** The loop returns the first ranked route that is not the default one
    and does not miss, or the last default it met. *)
Lemma pick_loop_scan (uri : jsstring) (l : list ranked) (d : option matched) :
  decodable uri ->
  (exists l1 x l2 params index,
      l = l1 ++ x :: l2 /\ default (r_route x) = false /\
      match_route (r_route x) uri = Hit params index /\
      Forall (fun y => default (r_route y) = false ->
                       match_route (r_route y) uri = Missed) l1 /\
      pick_loop l uri d = Some (Some (hit x uri params index)))
  \/ (Forall (fun y => default (r_route y) = false ->
                       match_route (r_route y) uri = Missed) l /\
      pick_loop l uri d = Some (default_after l uri d)).
Proof.
  intros Hdec. revert d. induction l as [|x l IH]; intros d.
  - right. split; [constructor | reflexivity].
  - simpl. destruct (default (r_route x)) eqn:Edef.
    + destruct (IH (Some {| m_route := r_route x; m_params := []; m_uri := uri |}))
        as [(l1 & y & l2 & p & k & -> & Hy & Hm & Hl1 & Hp)|[Hall Hp]].
      * left. exists (x :: l1), y, l2, p, k. repeat split; auto.
        constructor; [congruence | exact Hl1].
      * right. split; [|unfold default_after in *; simpl; rewrite ?Edef; exact Hp].
        constructor; [congruence | exact Hall].
    + destruct (match_route (r_route x) uri) as [|p k|] eqn:Em.
      * destruct (IH d) as [(l1 & y & l2 & p & k & -> & Hy & Hm & Hl1 & Hp)|[Hall Hp]].
        -- left. exists (x :: l1), y, l2, p, k. repeat split; auto.
        -- right. split; [|unfold default_after in *; simpl; rewrite ?Edef; exact Hp].
           constructor; auto.
      * left. exists [], x, l, p, k. repeat split; auto.
      * exfalso. eapply match_route_no_throw; eauto.
Qed.

Lemma default_after_spec (uri : jsstring) (l : list ranked) (d : option matched) :
  (exists l1 x l2,
      l = l1 ++ x :: l2 /\ default (r_route x) = true /\
      Forall (fun y => default (r_route y) = false) l2 /\
      default_after l uri d =
        Some {| m_route := r_route x; m_params := []; m_uri := uri |})
  \/ (Forall (fun y => default (r_route y) = false) l /\ default_after l uri d = d).
Proof.
  revert d. induction l as [|x l IH]; intros d.
  - right. split; [constructor | reflexivity].
  - unfold default_after. simpl. fold (default_after l uri).
    destruct (default (r_route x)) eqn:Edef.
    + destruct (IH (Some {| m_route := r_route x; m_params := []; m_uri := uri |}))
        as [(l1 & y & l2 & -> & Hy & Hl2 & Hd)|[Hall Hd]].
      * left. exists (x :: l1), y, l2. auto.
      * left. exists [], x, l. auto.
    + destruct (IH d) as [(l1 & y & l2 & -> & Hy & Hl2 & Hd)|[Hall Hd]].
      * left. exists (x :: l1), y, l2. auto.
      * right. split; [constructor; auto | exact Hd].
Qed.

Lemma StronglySorted_app_le {A : Type} (R : A -> A -> Prop) (l1 l2 : list A) (x : A) :
  StronglySorted R (l1 ++ x :: l2) ->
  Forall (fun y => R y x) l1 /\ Forall (R x) l2.
Proof.
  induction l1 as [|y l1 IH]; simpl; intros H.
  - inversion H; subst. split; [constructor | assumption].
  - inversion H as [|? ? Hs Hall]; subst. destruct (IH Hs) as [H1 H2].
    split; [|exact H2]. constructor; [|exact H1].
    rewrite Forall_forall in Hall. apply Hall. apply in_elt.
Qed.

Definition route_matches (r : route) (uri : jsstring) : Prop :=
  exists params index, match_route r uri = Hit params index.

(** The route at index [i] is tried before the one at index [j]: a higher
    score, or the same score and not a later index. *)
Definition tried_before (i j : nat) (r r' : route) : Prop :=
  route_score r' < route_score r \/
  (route_score r' = route_score r /\ (i <= j)%nat).

Lemma rankRoute_inj (r r' : route) (i j : nat) :
  rankRoute r (Z.of_nat i) = rankRoute r' (Z.of_nat j) -> r = r' /\ i = j.
Proof.
  unfold rankRoute. intros H. injection H as Hr _ Hi. split; [exact Hr | lia].
Qed.

(** C1, for the URIs [decodeURIComponent] accepts: [pick] returns the
    match of the route that is not the default one, matches the URI and
    comes first by score (4 per segment, plus 3, 2, 1 or minus 5) and then
    by index; when no such route matches it returns the match of the
    default route (the last one, with empty params and the URI as given),
    and [null] when there is no default route either. *)
Theorem pick_best_match (routes : list route) (uri : jsstring) :
  decodable uri ->
  (exists i r params index,
      nth_error routes i = Some r /\ default r = false /\
      match_route r uri = Hit params index /\
      (forall j r', nth_error routes j = Some r' -> default r' = false ->
                    route_matches r' uri -> tried_before i j r r') /\
      pick routes uri =
        Some (Some {| m_route := r; m_params := params;
                      m_uri := SLASH :: join SLASH (slice 0 index (uriSegments uri)) |}))
  \/ ((forall r, In r routes -> default r = false -> match_route r uri = Missed) /\
      ((exists i r,
           nth_error routes i = Some r /\ default r = true /\
           (forall j r', nth_error routes j = Some r' -> default r' = true ->
                         (j <= i)%nat) /\
           pick routes uri =
             Some (Some {| m_route := r; m_params := []; m_uri := uri |}))
       \/ ((forall r, In r routes -> default r = false) /\
           pick routes uri = Some None))).
Proof.
  intros Hdec. unfold pick.
  pose proof (rankRoutes_sorted routes) as Hsorted.
  destruct (pick_loop_scan uri (rankRoutes routes) None Hdec)
    as [(l1 & x & l2 & p & k & El & Hx & Hm & Hl1 & Hp)|[Hall Hp]].
  - left.
    assert (Hin : In x (rankRoutes routes)) by (rewrite El; apply in_elt).
    apply rankRoutes_In in Hin as (i & r & Hi & ->). simpl in Hx, Hm.
    exists i, r, p, k. repeat split; auto.
    intros j r' Hj Hdef' (p' & k' & Hm').
    assert (Hin' : In (rankRoute r' (Z.of_nat j)) (rankRoutes routes))
      by (apply rankRoutes_In; eauto).
    rewrite El in Hin', Hsorted.
    apply StronglySorted_app_le in Hsorted as [_ Hafter].
    apply in_app_or in Hin' as [Hin'|[Heq|Hin']].
    + rewrite Forall_forall in Hl1. specialize (Hl1 _ Hin' Hdef').
      simpl in Hl1. congruence.
    + apply rankRoute_inj in Heq as [-> ->]. right. split; [reflexivity | lia].
    + rewrite Forall_forall in Hafter. specialize (Hafter _ Hin').
      apply compare_ranked_le in Hafter.
      rewrite !rankRoute_score, Hx, Hdef' in Hafter. simpl in Hafter.
      unfold tried_before. lia.
  - right. split.
    + intros r Hin Hdef. apply In_nth_error in Hin as (i & Hi).
      rewrite Forall_forall in Hall.
      apply (Hall (rankRoute r (Z.of_nat i))); [|exact Hdef].
      apply rankRoutes_In. eauto.
    + rewrite Hp.
      destruct (default_after_spec uri (rankRoutes routes) None)
        as [(l1 & x & l2 & El & Hx & Hl2 & Hd)|[Hnone Hd]].
      * left.
        assert (Hin : In x (rankRoutes routes)) by (rewrite El; apply in_elt).
        apply rankRoutes_In in Hin as (i & r & Hi & ->). simpl in Hx, Hd.
        exists i, r. repeat split; auto; [|now rewrite Hd].
        intros j r' Hj Hdef'.
        assert (Hin' : In (rankRoute r' (Z.of_nat j)) (rankRoutes routes))
          by (apply rankRoutes_In; eauto).
        rewrite El in Hin', Hsorted.
        apply StronglySorted_app_le in Hsorted as [Hbefore _].
        apply in_app_or in Hin' as [Hin'|[Heq|Hin']].
        -- rewrite Forall_forall in Hbefore. specialize (Hbefore _ Hin').
           apply compare_ranked_le in Hbefore.
           rewrite !rankRoute_score, Hx, Hdef' in Hbefore. simpl in Hbefore. lia.
        -- apply rankRoute_inj in Heq as [_ ->]. lia.
        -- rewrite Forall_forall in Hl2. specialize (Hl2 _ Hin').
           simpl in Hl2. congruence.
      * right. split; [|now rewrite Hd].
        intros r Hin. apply In_nth_error in Hin as (i & Hi).
        rewrite Forall_forall in Hnone.
        apply (Hnone (rankRoute r (Z.of_nat i))). apply rankRoutes_In. eauto.
Qed.

Definition users_new : route := {| path := js "/users/new"; default := false; value := 1 |}.
Definition users_id : route := {| path := js "/users/:id"; default := false; value := 2 |}.
Definition files_splat : route := {| path := js "/files/*"; default := false; value := 3 |}.
Definition not_found : route := {| path := js ""; default := true; value := 4 |}.

Definition sample_routes : list route :=
  [users_id; not_found; files_splat; users_new].

Example rankRoutes_sample :
  map (fun x => (value (r_route x), r_score x)) (rankRoutes sample_routes) =
  [(1%nat, 14); (2%nat, 13); (3%nat, 6); (4%nat, 0)].
Proof. reflexivity. Qed.

Example pick_static_over_dynamic :
  pick sample_routes (js "/users/new") =
  Some (Some {| m_route := users_new; m_params := []; m_uri := js "/users/new" |}).
Proof. reflexivity. Qed.

Example pick_dynamic :
  pick sample_routes (js "/users/%342?tab=form") =
  Some (Some {| m_route := users_id; m_params := [(js "id", js "42")];
                m_uri := js "/users/%342" |}).
Proof. reflexivity. Qed.

Example pick_splat :
  pick sample_routes (js "/files/a/b") =
  Some (Some {| m_route := files_splat; m_params := [(js "*", js "a/b")];
                m_uri := js "/files" |}).
Proof. reflexivity. Qed.

Example pick_default :
  pick sample_routes (js "/teams") =
  Some (Some {| m_route := not_found; m_params := []; m_uri := js "/teams" |}).
Proof. reflexivity. Qed.

Example pick_null : pick [users_new] (js "/teams") = Some None.
Proof. reflexivity. Qed.

Example segmentize_slashes :
  segmentize (js "//teams//arsenal/") = [js "teams"; js ""; js "arsenal"] /\
  segmentize (js "/") = [js ""] /\
  isRootUri (js "/?tab=form") = true.
Proof. repeat split. Qed.

Example pick_root :
  pick [{| path := js "/"; default := false; value := 5 |}] (js "/") =
  Some (Some {| m_route := {| path := js "/"; default := false; value := 5 |};
                m_params := []; m_uri := js "/" |}).
Proof. reflexivity. Qed.

Example decodeURIComponent_euro :
  Uri.decodeURIComponent (js "%E2%82%AC%20") = Some [8364; 32]%N /\
  Uri.decodeURIComponent (js "%F0%9F%98%80") = Some [55357; 56832]%N /\
  Uri.decodeURIComponent (js "%C0%80") = None /\
  Uri.decodeURIComponent (js "%zz") = None.
Proof. repeat split. Qed.

Lemma pick_best_match_witness :
  decodable (js "/users/42") /\
  ((exists i r params index,
       nth_error sample_routes i = Some r /\ default r = false /\
       match_route r (js "/users/42") = Hit params index /\
       (forall j r', nth_error sample_routes j = Some r' -> default r' = false ->
                     route_matches r' (js "/users/42") -> tried_before i j r r') /\
       pick sample_routes (js "/users/42") =
         Some (Some {| m_route := r; m_params := params;
                       m_uri := SLASH :: join SLASH
                                  (slice 0 index (uriSegments (js "/users/42"))) |}))
   \/ ((forall r, In r sample_routes -> default r = false ->
                  match_route r (js "/users/42") = Missed) /\
       ((exists i r,
            nth_error sample_routes i = Some r /\ default r = true /\
            (forall j r', nth_error sample_routes j = Some r' -> default r' = true ->
                          (j <= i)%nat) /\
            pick sample_routes (js "/users/42") =
              Some (Some {| m_route := r; m_params := [];
                            m_uri := js "/users/42" |}))
        \/ ((forall r, In r sample_routes -> default r = false) /\
            pick sample_routes (js "/users/42") = Some None)))).
Proof.
  assert (H : decodable (js "/users/42")).
  { unfold decodable.
    let l := eval vm_compute in (uriSegments (js "/users/42")) in
    change (uriSegments (js "/users/42")) with l.
    repeat constructor; intros E; vm_compute in E; discriminate. }
  split; [exact H|].
  exact (pick_best_match sample_routes (js "/users/42") H).
Defined.

(** C1 as stated fails on a URI that [decodeURIComponent] rejects: the
    route [/users/:id] is tried on [/users/%], the decoding of the segment
    [%] throws, and [pick] returns nothing (neither a match, nor the
    default route's match, nor [null]). *)
Lemma pick_throws_on_malformed_escape :
  Uri.decodeURIComponent (js "%") = None /\
  pick sample_routes (js "/users/%") = None.
Proof. split; reflexivity. Qed.

(** ** The Dashboard page *)

Section DashboardFacts.

Import Dashboard.

Context {Json Matchday Dates : Type}.
Variable standings_keys : Json -> option (list jsstring).
Variable toTitleCase : jsstring -> jsstring.
Variable toHyphenatedName : jsstring -> jsstring.
Variable currentMatchday : Json -> jsstring -> option Matchday.
Variable playedMatchdayDates : Json -> jsstring -> option Dates.
Variable location_href : jsstring.

Abbreviation component := (component Json Matchday Dates).
Abbreviation select_team :=
  (select_team Json Matchday Dates toHyphenatedName currentMatchday
     playedMatchdayDates location_href).
Abbreviation initDashboard :=
  (initDashboard Json Matchday Dates standings_keys toTitleCase toHyphenatedName
     currentMatchday playedMatchdayDates location_href).
Abbreviation switchTeam :=
  (switchTeam Json Matchday Dates toTitleCase currentMatchday playedMatchdayDates).
Abbreviation after_clicks :=
  (after_clicks Json Matchday Dates toTitleCase currentMatchday playedMatchdayDates).
Abbreviation page_load :=
  (page_load Json Matchday Dates standings_keys toTitleCase toHyphenatedName
     currentMatchday playedMatchdayDates location_href).

Lemma name_page_data (c : component) :
  data _ _ _ (name_page _ _ _ toTitleCase c) = data _ _ _ c.
Proof.
  unfold name_page.
  destruct (is_overview (hyphenatedTeam _ _ _ c) (js "overview")); [reflexivity|].
  now destruct (hyphenatedTeam _ _ _ c).
Qed.

Lemma select_team_frame (json : Json) (keys : list jsstring) (c : component) :
  filter is_fetch (snd (fst (select_team json keys c))) = [] /\
  data _ _ _ (fst (fst (select_team json keys c))) = data _ _ _ c.
Proof.
  unfold Dashboard.select_team. cbn [hyphenatedTeam team teams data].
  destruct (hyphenatedTeam _ _ _ c) as [h|].
  - destruct (negb (is_overview (team _ _ _ c) (js "Overview")) &&
              negb match team _ _ _ c with
                   | Some t => existsb (jsstring_eqb t) keys
                   | None => false
                   end);
      cbn [hyphenatedTeam team teams data];
      (destruct (negb (is_overview (team _ _ _ c) (js "Overview")));
       [destruct (team _ _ _ c) as [t|]; [|split; reflexivity];
        destruct (currentMatchday json t); [|split; reflexivity];
        destruct (playedMatchdayDates json t); split; reflexivity
       | split; reflexivity]).
  - destruct (nth_error keys 0) as [name|]; [|split; reflexivity].
    cbn [hyphenatedTeam team teams data].
    destruct (negb (is_overview (Some name) (js "Overview"))); [|split; reflexivity].
    destruct (currentMatchday json name); [|split; reflexivity].
    destruct (playedMatchdayDates json name); split; reflexivity.
Qed.

Lemma switchTeam_data (newTeam : jsstring) (c : component) :
  data _ _ _ (fst (fst (switchTeam newTeam c))) = data _ _ _ c.
Proof.
  unfold switchTeam.
  destruct (jsstring_eqb newTeam (js "overview")); [reflexivity|]. simpl.
  destruct (data _ _ _ c) as [json|] eqn:E; simpl; [|congruence].
  destruct (currentMatchday json _); simpl; [|congruence].
  destruct (playedMatchdayDates json _); simpl; congruence.
Qed.

Lemma after_clicks_data (clicks : list jsstring) (c : component) :
  data _ _ _ (after_clicks c clicks) = data _ _ _ c.
Proof.
  revert c. induction clicks as [|t clicks IH]; intros c; simpl; [reflexivity|].
  unfold Dashboard.after_clicks in *. simpl. rewrite IH. apply switchTeam_data.
Qed.


End DashboardFacts.

Example page_load_succeeds :
  Dashboard.page_load (list jsstring) unit unit Some (fun s => s) (fun s => s)
    (fun _ _ => Some tt) (fun _ _ => Some tt) (js "/")
    None (Dashboard.Body _ (Some [js "Arsenal"; js "Fulham"])) =
  ({| Dashboard.hyphenatedTeam := Some (js "Arsenal");
      Dashboard.title := js "Dashboard | Arsenal";
      Dashboard.team := Some (js "Arsenal");
      Dashboard.teams := [js "Arsenal"; js "Fulham"];
      Dashboard.currentMatchday_1 := Some tt;
      Dashboard.playedDates := Some tt;
      Dashboard.data := Some [js "Arsenal"; js "Fulham"] |},
   [Dashboard.Fetch Dashboard.TEAMS_URL; Dashboard.PushState (js "/Arsenal");
    Dashboard.ConsoleLog; Dashboard.DispatchResize],
   Dashboard.Fulfilled).
Proof. reflexivity. Qed.

(** ** The Predictions page *)

Import Predictions.

(** What the page's processing may do to an object: give a prediction a
    colour (only one that has an actual score), reorder an array, set the
    accuracy of the wrapper; a day object stays as it is. *)
Definition same_but_colour (p p' : prediction) : Prop :=
  home p' = home p /\ away p' = away p /\ datetime p' = datetime p /\
  predicted p' = predicted p /\ actual p' = actual p.

Definition cell_kept (c c' : cell) : Prop :=
  match c with
  | PredictionObj p =>
      exists p', c' = PredictionObj p' /\ same_but_colour p p' /\
                 (actual p = None -> p' = p)
  | DayObj id preds => c' = DayObj id preds
  | ArrayObj l => exists l', c' = ArrayObj l' /\ Permutation l l'
  | PageObj preds _ => exists acc, c' = PageObj preds acc
  end.

Definition evolves (h h' : heap) : Prop :=
  forall r c, read h r = Some c ->
              exists c', read h' r = Some c' /\ cell_kept c c'.

Lemma cell_kept_refl (c : cell) : cell_kept c c.
Proof.
  destruct c as [p|id preds|l|preds acc]; simpl.
  - exists p. unfold same_but_colour. repeat split; reflexivity.
  - reflexivity.
  - exists l. split; [reflexivity | apply Permutation_refl].
  - exists acc. reflexivity.
Qed.

Lemma cell_kept_trans (a b c : cell) :
  cell_kept a b -> cell_kept b c -> cell_kept a c.
Proof.
  destruct a as [p|id preds|l|preds acc]; simpl.
  - intros (p1 & -> & S1 & N1). simpl. intros (p2 & -> & S2 & N2).
    exists p2. split; [reflexivity|].
    unfold same_but_colour in *. split; [intuition congruence|].
    intros Hn. rewrite N2, N1; auto. rewrite N1 by auto. exact Hn.
  - intros ->. simpl. auto.
  - intros (l1 & -> & P1). simpl. intros (l2 & -> & P2).
    exists l2. split; [reflexivity|]. now transitivity l1.
  - intros (acc1 & ->). simpl. auto.
Qed.

Lemma evolves_refl (h : heap) : evolves h h.
Proof. intros r c H. exists c. split; [exact H | apply cell_kept_refl]. Qed.

Lemma evolves_trans (h1 h2 h3 : heap) :
  evolves h1 h2 -> evolves h2 h3 -> evolves h1 h3.
Proof.
  intros H12 H23 r c H. destruct (H12 r c H) as (c2 & R2 & K2).
  destruct (H23 r c2 R2) as (c3 & R3 & K3).
  exists c3. split; [exact R3 | eapply cell_kept_trans; eauto].
Qed.

Lemma read_write (h h' : heap) (r r' : ref) (c : cell) :
  write h r c = Some h' ->
  read h' r' = if Nat.eqb r' r then Some c else read h r'.
Proof.
  unfold write, read. destruct (nth_error h r) as [c0|] eqn:E; [|discriminate].
  intros [= <-].
  assert (Hr : (r < length h)%nat) by (apply nth_error_Some; congruence).
  destruct (Nat.eqb r' r) eqn:Er.
  - apply Nat.eqb_eq in Er. subst r'.
    rewrite nth_error_app2; rewrite length_firstn; [|lia].
    replace (r - Nat.min r (length h))%nat with O by lia. reflexivity.
  - apply Nat.eqb_neq in Er.
    destruct (Nat.lt_ge_cases r' r) as [Hlt|Hge].
    + rewrite nth_error_app1 by (rewrite length_firstn; lia).
      now rewrite nth_error_firstn, (proj2 (Nat.ltb_lt _ _) Hlt).
    + rewrite nth_error_app2; rewrite length_firstn; [|lia].
      replace (Nat.min r (length h)) with r by lia.
      destruct (r' - r)%nat as [|k] eqn:Ek; [lia|].
      cbn [nth_error]. change (nth_error (skipn (S r) h) k = nth_error h r').
      rewrite nth_error_skipn. f_equal. lia.
Qed.

Lemma write_evolves (h h' : heap) (r : ref) (c c' : cell) :
  read h r = Some c -> cell_kept c c' -> write h r c' = Some h' -> evolves h h'.
Proof.
  intros Hr Hk Hw r0 c0 H0. rewrite (read_write _ _ _ r0 _ Hw).
  destruct (Nat.eqb r0 r) eqn:E.
  - apply Nat.eqb_eq in E. subst r0. exists c'. split; [reflexivity|]. congruence.
  - exists c0. split; [exact H0 | apply cell_kept_refl].
Qed.

Lemma alloc_evolves (h : heap) (c : cell) : evolves h (snd (alloc h c)).
Proof.
  intros r c0 H. exists c0. split; [|apply cell_kept_refl].
  unfold read in *. simpl. rewrite nth_error_app1; [exact H|].
  apply nth_error_Some. congruence.
Qed.

Lemma with_keys_snd (key : ref -> option Z) (l : list ref) (keyed : list (Z * ref)) :
  with_keys key l = Some keyed -> map snd keyed = l.
Proof.
  revert keyed. induction l as [|r l IH]; intros keyed; simpl.
  - now intros [= <-].
  - destruct (key r); [|discriminate].
    destruct (with_keys key l) as [ks|]; [|discriminate].
    intros [= <-]. simpl. f_equal. now apply IH.
Qed.

Lemma sort_in_place_evolves (h h' : heap) (arr : ref) (key : ref -> option Z)
  (descending : bool) :
  sort_in_place h arr key descending = Some h' -> evolves h h'.
Proof.
  unfold sort_in_place.
  destruct (read h arr) as [[| |l|]|] eqn:Er; try discriminate.
  destruct (with_keys key l) as [keyed|] eqn:Ek; [|discriminate].
  intros Hw. eapply write_evolves; [exact Er| |exact Hw].
  simpl. eexists. split; [reflexivity|].
  rewrite <- (with_keys_snd _ _ _ Ek). apply Permutation_map, sort_Permutation.
Qed.

Lemma sort_days_evolves (days : list ref) (h h' : heap) :
  sort_days h days = Some h' -> evolves h h'.
Proof.
  revert h. induction days as [|d days IH]; intros h; simpl.
  - intros [= <-]. apply evolves_refl.
  - destruct (read h d) as [[|id preds| |]|]; try discriminate.
    destruct (sort_in_place h preds (prediction_key h) false) as [h1|] eqn:Es;
      [|discriminate].
    intros H. eapply evolves_trans; [eapply sort_in_place_evolves; eauto|].
    now apply IH.
Qed.

Lemma sortByDate_evolves (h h' : heap) (fetched : ref) :
  sortByDate h fetched = Some h' -> evolves h h'.
Proof.
  unfold sortByDate.
  destruct (sort_in_place h fetched (day_key h) true) as [h1|] eqn:Es;
    [|discriminate].
  destruct (read h1 fetched) as [[| |days|]|]; try discriminate.
  intros H. eapply evolves_trans; [eapply sort_in_place_evolves; eauto|].
  eapply sort_days_evolves; eauto.
Qed.

Lemma set_colour_kept (p : prediction) (a : scoreline) (c : jsstring) :
  actual p = Some a ->
  cell_kept (PredictionObj p) (PredictionObj (set_colour p c)).
Proof.
  intros Ha. simpl. eexists. split; [reflexivity|].
  split; [unfold same_but_colour; simpl; auto|]. congruence.
Qed.

Lemma mark_evolves (h h' : heap) (n n' : counters) (r : ref) :
  mark h n r = Some (h', n') -> evolves h h'.
Proof.
  unfold mark. destruct (read h r) as [[p| | |]|] eqn:Er; try discriminate.
  destruct (actual p) as [a|] eqn:Ea.
  - destruct (identicalScore (predicted p) a);
      [|destruct (sameResult (predicted p) a)];
      match goal with
      | |- context [write h r ?c] =>
          destruct (write h r c) as [h1|] eqn:Ew; [|discriminate]
      end;
      intros [= <- _];
      (eapply write_evolves; [exact Er | eapply set_colour_kept; eauto | exact Ew]).
  - intros [= <- _]. apply evolves_refl.
Qed.

Lemma mark_all_evolves (preds : list ref) (h h' : heap) (n n' : counters) :
  mark_all h n preds = Some (h', n') -> evolves h h'.
Proof.
  revert h n. induction preds as [|r preds IH]; intros h n; simpl.
  - intros [= <- _]. apply evolves_refl.
  - destruct (mark h n r) as [[h1 n1]|] eqn:Em; [|discriminate].
    intros H. eapply evolves_trans; [eapply mark_evolves; eauto|].
    eapply IH; eauto.
Qed.

Lemma mark_days_evolves (days : list ref) (h h' : heap) (n n' : counters) :
  mark_days h n days = Some (h', n') -> evolves h h'.
Proof.
  revert h n. induction days as [|d days IH]; intros h n; simpl.
  - intros [= <- _]. apply evolves_refl.
  - destruct (read h d) as [[|id preds| |]|]; try discriminate.
    destruct (read h preds) as [[| |elements|]|]; try discriminate.
    destruct (mark_all h n elements) as [[h1 n1]|] eqn:Em; [|discriminate].
    intros H. eapply evolves_trans; [eapply mark_all_evolves; eauto|].
    eapply IH; eauto.
Qed.

Lemma insertExtras_evolves (h h' : heap) (json : ref) :
  insertExtras h json = Some h' -> evolves h h'.
Proof.
  unfold insertExtras.
  destruct (read h json) as [[| | |preds acc]|] eqn:Ej; try discriminate.
  destruct (read h preds) as [[| |days|]|]; try discriminate.
  destruct (mark_days h _ days) as [[h1 n]|] eqn:Em; [|discriminate].
  intros Hw. pose proof (mark_days_evolves _ _ _ _ _ Em) as H1.
  eapply evolves_trans; [exact H1|].
  destruct (H1 _ _ Ej) as (c1 & R1 & K1).
  eapply write_evolves; [exact R1| |exact Hw].
  simpl in K1. destruct K1 as (acc1 & ->). simpl. eauto.
Qed.

Lemma process_evolves (h h' : heap) (fetched json : ref) :
  process h fetched = Some (h', json) -> evolves h h'.
Proof.
  unfold process.
  destruct (sortByDate h fetched) as [h1|] eqn:Es; [|discriminate].
  destruct (insertExtras (h1 ++ [PageObj fetched None]) (length h1)) as [h3|] eqn:Ei;
    simpl; rewrite Ei; [|discriminate].
  intros [= <- <-].
  eapply evolves_trans; [eapply sortByDate_evolves; eauto|].
  eapply evolves_trans; [apply (alloc_evolves h1 (PageObj fetched None))|].
  eapply insertExtras_evolves; eauto.
Qed.

(** The shape of the fetched JSON: an array of day objects, each with an
    array of prediction objects. *)
Definition is_prediction (h : heap) (r : ref) : Prop :=
  exists p, read h r = Some (PredictionObj p).

Definition is_day (h : heap) (r : ref) : Prop :=
  exists id preds elements,
    read h r = Some (DayObj id preds) /\
    read h preds = Some (ArrayObj elements) /\
    Forall (is_prediction h) elements.

Definition well_formed (h : heap) (fetched : ref) : Prop :=
  exists days, read h fetched = Some (ArrayObj days) /\ Forall (is_day h) days.

Lemma is_prediction_evolves (h h' : heap) (r : ref) :
  evolves h h' -> is_prediction h r -> is_prediction h' r.
Proof.
  intros He (p & Hp). destruct (He _ _ Hp) as (c' & Hr & p' & -> & _).
  now exists p'.
Qed.

Lemma is_day_evolves (h h' : heap) (r : ref) :
  evolves h h' -> is_day h r -> is_day h' r.
Proof.
  intros He (id & preds & elements & Hd & Ha & Hall).
  destruct (He _ _ Hd) as (c1 & R1 & K1). simpl in K1. subst c1.
  destruct (He _ _ Ha) as (c2 & R2 & l' & -> & Hperm).
  exists id, preds, l'. repeat split; auto.
  eapply Permutation_Forall; [exact Hperm|].
  eapply Forall_impl; [|exact Hall]. intros p. now apply is_prediction_evolves.
Qed.

Lemma well_formed_evolves (h h' : heap) (fetched : ref) :
  evolves h h' -> well_formed h fetched -> well_formed h' fetched.
Proof.
  intros He (days & Hr & Hall).
  destruct (He _ _ Hr) as (c & R & l' & -> & Hperm).
  exists l'. split; [exact R|].
  eapply Permutation_Forall; [exact Hperm|].
  eapply Forall_impl; [|exact Hall]. intros d. now apply is_day_evolves.
Qed.

Lemma write_total (h : heap) (r : ref) (c c' : cell) :
  read h r = Some c -> exists h', write h r c' = Some h'.
Proof. unfold read, write. intros ->. eauto. Qed.

Lemma with_keys_total (key : ref -> option Z) (l : list ref) :
  Forall (fun r => exists k, key r = Some k) l ->
  exists keyed, with_keys key l = Some keyed.
Proof.
  induction 1 as [|r l (k & Hk) _ (ks & IH)]; simpl; [eauto|].
  rewrite Hk, IH. eauto.
Qed.

Lemma sort_in_place_total (h : heap) (arr : ref) (key : ref -> option Z)
  (descending : bool) (l : list ref) :
  read h arr = Some (ArrayObj l) ->
  Forall (fun r => exists k, key r = Some k) l ->
  exists h', sort_in_place h arr key descending = Some h'.
Proof.
  intros Hr Hk. unfold sort_in_place. rewrite Hr.
  destruct (with_keys_total key l Hk) as (keyed & ->).
  eapply write_total; eauto.
Qed.

Lemma sort_days_total (days : list ref) (h : heap) :
  Forall (is_day h) days -> exists h', sort_days h days = Some h'.
Proof.
  revert h. induction days as [|d days IH]; intros h Hall; simpl; [eauto|].
  inversion Hall as [|? ? (id & preds & elements & Hd & Ha & Hp) Hrest]; subst.
  rewrite Hd.
  destruct (sort_in_place_total h preds (prediction_key h) false elements Ha)
    as (h1 & Hs).
  { eapply Forall_impl; [|exact Hp]. intros p (x & Hx).
    unfold prediction_key. rewrite Hx. eauto. }
  rewrite Hs. apply IH.
  eapply Forall_impl; [|exact Hrest]. intros d'.
  apply is_day_evolves. eapply sort_in_place_evolves; eauto.
Qed.

Lemma sortByDate_total (h : heap) (fetched : ref) :
  well_formed h fetched -> exists h', sortByDate h fetched = Some h'.
Proof.
  intros Hwf. pose proof Hwf as (days & Hr & Hall). unfold sortByDate.
  destruct (sort_in_place_total h fetched (day_key h) true days Hr) as (h1 & Hs).
  { eapply Forall_impl; [|exact Hall]. intros d (id & preds & elements & Hd & _).
    unfold day_key. rewrite Hd. eauto. }
  rewrite Hs.
  destruct (well_formed_evolves h h1 fetched) as (days1 & Hr1 & Hall1);
    [eapply sort_in_place_evolves; eauto | exact Hwf |].
  rewrite Hr1. now apply sort_days_total.
Qed.

Lemma mark_total (h : heap) (n : counters) (r : ref) :
  is_prediction h r -> exists h' n', mark h n r = Some (h', n').
Proof.
  intros (p & Hp). unfold mark. rewrite Hp.
  destruct (actual p) as [a|]; [|eauto].
  destruct (identicalScore (predicted p) a);
    [|destruct (sameResult (predicted p) a)];
    match goal with
    | |- context [write h r ?c] =>
        destruct (write_total h r _ c Hp) as (h1 & ->)
    end; eauto.
Qed.

Lemma mark_all_total (preds : list ref) (h : heap) (n : counters) :
  Forall (is_prediction h) preds ->
  exists h' n', mark_all h n preds = Some (h', n').
Proof.
  revert h n. induction preds as [|r preds IH]; intros h n Hall; simpl; [eauto|].
  inversion Hall as [|? ? Hr Hrest]; subst.
  destruct (mark_total h n r Hr) as (h1 & n1 & Hm). rewrite Hm.
  apply IH. eapply Forall_impl; [|exact Hrest]. intros p.
  apply is_prediction_evolves. eapply mark_evolves; eauto.
Qed.

Lemma mark_days_total (days : list ref) (h : heap) (n : counters) :
  Forall (is_day h) days -> exists h' n', mark_days h n days = Some (h', n').
Proof.
  revert h n. induction days as [|d days IH]; intros h n Hall; simpl; [eauto|].
  inversion Hall as [|? ? (id & preds & elements & Hd & Ha & Hp) Hrest]; subst.
  rewrite Hd, Ha.
  destruct (mark_all_total elements h n Hp) as (h1 & n1 & Hm). rewrite Hm.
  apply IH. eapply Forall_impl; [|exact Hrest]. intros d'.
  apply is_day_evolves. eapply mark_all_evolves; eauto.
Qed.

Lemma insertExtras_total (h : heap) (json fetched : ref) (acc : option accuracy) :
  read h json = Some (PageObj fetched acc) -> well_formed h fetched ->
  exists h', insertExtras h json = Some h'.
Proof.
  intros Hj (days & Hr & Hall). unfold insertExtras. rewrite Hj, Hr.
  destruct (mark_days_total days h
              {| scoreCorrect := 0; resultCorrect := 0; total := 0 |} Hall)
    as (h1 & n & Hm).
  rewrite Hm.
  destruct (mark_days_evolves _ _ _ _ _ Hm _ _ Hj) as (c & Hc & _).
  eapply write_total; eauto.
Qed.

Lemma process_total (h : heap) (fetched : ref) :
  well_formed h fetched -> exists h' json, process h fetched = Some (h', json).
Proof.
  intros Hwf. unfold process.
  destruct (sortByDate_total h fetched Hwf) as (h1 & Hs). rewrite Hs. simpl.
  destruct (insertExtras_total (h1 ++ [PageObj fetched None]) (length h1) fetched None)
    as (h3 & Hi).
  - unfold read. rewrite nth_error_app2 by lia. now rewrite Nat.sub_diag.
  - eapply well_formed_evolves;
      [apply (alloc_evolves h1 (PageObj fetched None))|].
    eapply well_formed_evolves; [eapply sortByDate_evolves; eauto | exact Hwf].
  - rewrite Hi. eauto.
Qed.

(** C7, as the code has it: the processing of the Predictions page works
    on the fetched objects themselves.  On a fetched array of days with
    their predictions it completes, and afterwards every object that was in
    the heap is still there, a day object as it was, an array with the same
    elements in some order, and a prediction with its properties as they
    were but for [colour], which only a prediction with an actual score is
    given. *)
Theorem process_keeps_all_but_order_and_colour (h : heap) (fetched : ref) :
  well_formed h fetched ->
  exists h' json,
    process h fetched = Some (h', json) /\
    forall r c, read h r = Some c ->
      exists c', read h' r = Some c' /\ cell_kept c c'.
Proof.
  intros Hwf. destruct (process_total h fetched Hwf) as (h' & json & Hp).
  exists h', json. split; [exact Hp|].
  exact (process_evolves _ _ _ _ Hp).
Qed.

Definition sample_prediction (time : Z) (played : bool) : prediction :=
  {| home := js "ARS"; away := js "FUL"; datetime := time;
     predicted := {| homeGoals := 22 # 10; awayGoals := 7 # 10 |};
     actual := if played then Some {| homeGoals := 2; awayGoals := 1 |} else None;
     colour := None |}.

(** A fetched array of two days, the earlier one first; the earlier day's
    match was played and ended as predicted. *)
Definition sample_heap : heap :=
  [ ArrayObj [1; 2]%nat;
    DayObj 100 3%nat; DayObj 200 4%nat;
    ArrayObj [5]%nat; ArrayObj [6]%nat;
    PredictionObj (sample_prediction 110 true);
    PredictionObj (sample_prediction 210 false) ].

Lemma sample_heap_well_formed : well_formed sample_heap 0%nat.
Proof.
  exists [1; 2]%nat. split; [reflexivity|].
  repeat constructor.
  - exists 100, 3%nat, [5]%nat. repeat split; try reflexivity.
    repeat constructor. now eexists.
  - exists 200, 4%nat, [6]%nat. repeat split; try reflexivity.
    repeat constructor. now eexists.
Qed.

Lemma process_keeps_all_but_order_and_colour_witness :
  well_formed sample_heap 0%nat /\
  exists h' json,
    process sample_heap 0%nat = Some (h', json) /\
    forall r c, read sample_heap r = Some c ->
      exists c', read h' r = Some c' /\ cell_kept c c'.
Proof.
  split; [exact sample_heap_well_formed|].
  exact (process_keeps_all_but_order_and_colour sample_heap 0%nat
           sample_heap_well_formed).
Defined.

(** C7 as stated fails: the processing reorders the fetched array in place
    and gives the played prediction a colour. *)
Lemma process_modifies_fetched :
  read sample_heap 0%nat = Some (ArrayObj [1; 2]%nat) /\
  read sample_heap 5%nat = Some (PredictionObj (sample_prediction 110 true)) /\
  option_map (fun hj => (read (fst hj) 0%nat, read (fst hj) 5%nat)) (process sample_heap 0%nat) =
  Some (Some (ArrayObj [2; 1]%nat),
        Some (PredictionObj (set_colour (sample_prediction 110 true) (js "green")))) /\
  option_map (fun h => read h 0%nat) (sortByDate sample_heap 0%nat) =
  Some (Some (ArrayObj [2; 1]%nat)).
Proof. repeat split; vm_compute; reflexivity. Qed.

(** ** Paths and segments *)

Definition no_leading_slash (s : jsstring) : Prop := hd_error s <> Some SLASH.
Definition no_trailing_slash (s : jsstring) : Prop := hd_error (rev s) <> Some SLASH.

Lemma strip_leading_spec (s : jsstring) :
  exists n, s = repeat SLASH n ++ strip_leading s /\ no_leading_slash (strip_leading s).
Proof.
  induction s as [|c s IH]; simpl.
  - exists 0%nat. split; [reflexivity | discriminate].
  - destruct (N.eqb_spec c SLASH) as [->|Hc].
    + destruct IH as (n & Hs & Hn). exists (S n). simpl. split; [congruence | exact Hn].
    + exists 0%nat. split; [reflexivity | ]. unfold no_leading_slash. simpl. congruence.
Qed.

Lemma strip_leading_fixed (s : jsstring) :
  no_leading_slash s -> strip_leading s = s.
Proof.
  destruct s as [|c s]; simpl; [reflexivity | ].
  intros H. destruct (N.eqb_spec c SLASH) as [->|Hc]; [ | reflexivity].
  exfalso. apply H. reflexivity.
Qed.

Lemma strip_leading_slashes (n : nat) (s : jsstring) :
  strip_leading (repeat SLASH n ++ s) = strip_leading s.
Proof. induction n as [|n IH]; simpl; [reflexivity | exact IH]. Qed.

Lemma rev_repeat {A} (x : A) (n : nat) : rev (repeat x n) = repeat x n.
Proof.
  induction n as [|n IH]; simpl; [reflexivity | ].
  rewrite IH. symmetry. apply repeat_cons.
Qed.

Lemma stripSlashes_unique (a b : nat) (m : jsstring) :
  no_leading_slash m -> no_trailing_slash m ->
  stripSlashes (repeat SLASH a ++ m ++ repeat SLASH b) = m.
Proof.
  intros Hl Ht. unfold stripSlashes.
  rewrite strip_leading_slashes.
  destruct m as [|c m].
  - simpl. replace (repeat SLASH b) with (repeat SLASH b ++ []) by apply app_nil_r.
    rewrite strip_leading_slashes. reflexivity.
  - assert (Hfix : strip_leading ((c :: m) ++ repeat SLASH b) = (c :: m) ++ repeat SLASH b).
    { apply strip_leading_fixed. exact Hl. }
    rewrite Hfix, rev_app_distr, rev_repeat, strip_leading_slashes.
    rewrite (strip_leading_fixed _ Ht). apply rev_involutive.
Qed.

Lemma stripSlashes_decompose (s : jsstring) :
  exists a b,
    s = repeat SLASH a ++ stripSlashes s ++ repeat SLASH b /\
    no_leading_slash (stripSlashes s) /\ no_trailing_slash (stripSlashes s).
Proof.
  unfold stripSlashes.
  destruct (strip_leading_spec s) as (a & Hs & Ha).
  set (t := strip_leading s) in *.
  destruct (strip_leading_spec (rev t)) as (b & Ht & Hb).
  set (u := strip_leading (rev t)) in *.
  assert (Et : t = rev u ++ repeat SLASH b).
  { rewrite <- (rev_involutive t), Ht, rev_app_distr, rev_repeat. reflexivity. }
  exists a, b. split; [ | split].
  - rewrite Hs at 1. rewrite <- Et. reflexivity.
  - unfold no_leading_slash in *. rewrite Et in Ha.
    destruct (rev u); [discriminate | exact Ha].
  - unfold no_trailing_slash. rewrite rev_involutive. exact Hb.
Qed.

Lemma stripSlashes_fixed (s : jsstring) :
  no_leading_slash s -> no_trailing_slash s -> stripSlashes s = s.
Proof.
  intros Hl Ht.
  pose proof (stripSlashes_unique 0 0 s Hl Ht) as H.
  simpl in H. rewrite app_nil_r in H. exact H.
Qed.

Lemma split_nonempty (sep : N) (s : jsstring) : split sep s <> [].
Proof.
  induction s as [|c s IH]; simpl; [discriminate | ].
  destruct (N.eqb c sep); [discriminate | ].
  destruct (split sep s); discriminate.
Qed.

Lemma join_cons_unit (sep c : N) (seg : jsstring) (rest : list jsstring) :
  join sep ((c :: seg) :: rest) = c :: join sep (seg :: rest).
Proof. destruct rest; reflexivity. Qed.

Lemma join_split (sep : N) (s : jsstring) : join sep (split sep s) = s.
Proof.
  induction s as [|c s IH]; simpl; [reflexivity | ].
  destruct (N.eqb_spec c sep) as [->|Hc].
  - pose proof (split_nonempty sep s) as Hne.
    destruct (split sep s) as [|seg rest]; [contradiction | ].
    simpl in *. rewrite IH. reflexivity.
  - pose proof (split_nonempty sep s) as Hne.
    destruct (split sep s) as [|seg rest]; [contradiction | ].
    rewrite join_cons_unit, IH. reflexivity.
Qed.

Lemma split_no_sep (sep : N) (s : jsstring) :
  Forall (fun seg => ~ In sep seg) (split sep s).
Proof.
  induction s as [|c s IH]; simpl.
  - constructor; [intros [] | constructor].
  - destruct (N.eqb_spec c sep) as [->|Hc].
    + constructor; [intros [] | exact IH].
    + destruct (split sep s) as [|seg rest].
      * constructor; [ | constructor]. intros [E|[]]. congruence.
      * inversion IH; subst. constructor; [ | assumption].
        intros [E|Hin]; [congruence | contradiction].
Qed.

Lemma split_app_sep (sep : N) (a c : jsstring) :
  split sep (a ++ sep :: c) = split sep a ++ split sep c.
Proof.
  induction a as [|x a IH]; simpl.
  - rewrite N.eqb_refl. reflexivity.
  - destruct (N.eqb x sep); [rewrite IH; reflexivity | ].
    rewrite IH.
    pose proof (split_nonempty sep a) as Hne.
    destruct (split sep a) as [|seg rest]; [contradiction | reflexivity].
Qed.

(** X1: [stripSlashes] removes exactly the slashes at the two ends, is
    idempotent, and [segmentize] cuts what is left at its slashes: the
    segments are never an empty array, hold no slash, and joined with
    slashes give the stripped string back. *)
Theorem segmentize_stripSlashes_round_trip (s : jsstring) :
  (exists a b, s = repeat SLASH a ++ stripSlashes s ++ repeat SLASH b) /\
  hd_error (stripSlashes s) <> Some SLASH /\
  hd_error (rev (stripSlashes s)) <> Some SLASH /\
  stripSlashes (stripSlashes s) = stripSlashes s /\
  segmentize s <> [] /\
  Forall (fun seg => ~ In SLASH seg) (segmentize s) /\
  join SLASH (segmentize s) = stripSlashes s.
Proof.
  destruct (stripSlashes_decompose s) as (a & b & Hs & Hl & Ht).
  split; [exists a, b; exact Hs | ].
  split; [exact Hl | ].
  split; [exact Ht | ].
  split; [apply stripSlashes_fixed; assumption | ].
  unfold segmentize.
  split; [apply split_nonempty | ].
  split; [apply split_no_sep | apply join_split].
Qed.

(** The segments a path contributes to a combined path: none when only
    slashes are in it. *)
Definition segments_of (s : jsstring) : list jsstring :=
  match stripSlashes s with
  | [] => []
  | _ => segmentize s
  end.

Lemma stripSlashes_slash : stripSlashes [SLASH] = [].
Proof. reflexivity. Qed.

Lemma no_trailing_app (a c : jsstring) :
  c <> [] -> no_trailing_slash c -> no_trailing_slash (a ++ c).
Proof.
  unfold no_trailing_slash. intros Hne H. rewrite rev_app_distr.
  destruct (rev c) eqn:E.
  - exfalso. apply Hne. rewrite <- (rev_involutive c), E. reflexivity.
  - exact H.
Qed.

Lemma no_leading_app (a c : jsstring) :
  a <> [] -> no_leading_slash a -> no_leading_slash (a ++ c).
Proof.
  unfold no_leading_slash. destruct a; [congruence | intros _ H; exact H].
Qed.

Lemma combinePaths_inner (sb sp : jsstring) :
  no_leading_slash sb -> no_trailing_slash sb ->
  no_leading_slash sp -> no_trailing_slash sp ->
  split SLASH (stripSlashes (sb ++ SLASH :: sp)) =
  match (match sb with [] => [] | _ => split SLASH sb end) ++
        (match sp with [] => [] | _ => split SLASH sp end) with
  | [] => [[]]
  | l => l
  end.
Proof.
  intros Hlb Htb Hlp Htp.
  destruct sb as [|x sb]; [destruct sp as [|y sp] | destruct sp as [|y sp]].
  - reflexivity.
  - replace ([] ++ SLASH :: y :: sp) with (repeat SLASH 1 ++ (y :: sp) ++ repeat SLASH 0)
      by (simpl; rewrite app_nil_r; reflexivity).
    rewrite stripSlashes_unique by assumption.
    cbn [app].
    pose proof (split_nonempty SLASH (y :: sp)) as Hne.
    destruct (split SLASH (y :: sp)); [contradiction | reflexivity].
  - change ((x :: sb) ++ [SLASH]) with (repeat SLASH 0 ++ (x :: sb) ++ repeat SLASH 1).
    rewrite stripSlashes_unique by assumption.
    rewrite app_nil_r.
    pose proof (split_nonempty SLASH (x :: sb)) as Hne.
    destruct (split SLASH (x :: sb)); [contradiction | reflexivity].
  - rewrite stripSlashes_fixed.
    + rewrite split_app_sep.
      pose proof (split_nonempty SLASH (x :: sb)) as Hne.
      destruct (split SLASH (x :: sb)); [contradiction | reflexivity].
    + apply no_leading_app; [discriminate | assumption].
    + apply (no_trailing_app (x :: sb) (SLASH :: y :: sp)); [discriminate | ].
      apply (no_trailing_app [SLASH] (y :: sp)); [discriminate | assumption].
Qed.

Lemma segmentize_trailing_slash (m : jsstring) :
  no_leading_slash m -> no_trailing_slash m ->
  segmentize (m ++ [SLASH]) = split SLASH m.
Proof.
  intros Hl Ht. unfold segmentize.
  change (m ++ [SLASH]) with (repeat SLASH 0 ++ m ++ repeat SLASH 1).
  rewrite stripSlashes_unique by assumption. reflexivity.
Qed.

Lemma combinePaths_inner_empty (sb sp : jsstring) :
  no_leading_slash sb -> no_trailing_slash sb ->
  no_leading_slash sp -> no_trailing_slash sp ->
  (stripSlashes (sb ++ SLASH :: sp) = [] <-> sb = [] /\ sp = []).
Proof.
  intros Hlb Htb Hlp Htp.
  destruct sb as [|x sb]; [destruct sp as [|y sp] | destruct sp as [|y sp]].
  - split; [auto | reflexivity].
  - replace ([] ++ SLASH :: y :: sp) with (repeat SLASH 1 ++ (y :: sp) ++ repeat SLASH 0)
      by (simpl; rewrite app_nil_r; reflexivity).
    rewrite stripSlashes_unique by assumption.
    split; [discriminate | intros [_ H]; discriminate H].
  - change ((x :: sb) ++ [SLASH]) with (repeat SLASH 0 ++ (x :: sb) ++ repeat SLASH 1).
    rewrite stripSlashes_unique by assumption.
    split; [discriminate | intros [H _]; discriminate H].
  - rewrite stripSlashes_fixed.
    + split; [discriminate | intros [H _]; discriminate H].
    + apply no_leading_app; [discriminate | assumption].
    + apply (no_trailing_app (x :: sb) (SLASH :: y :: sp)); [discriminate | ].
      apply (no_trailing_app [SLASH] (y :: sp)); [discriminate | assumption].
Qed.

Lemma leading_slash_root (m : jsstring) :
  no_leading_slash m ->
  (hd_error (m ++ [SLASH]) = Some SLASH <-> m ++ [SLASH] = [SLASH]).
Proof.
  unfold no_leading_slash. destruct m as [|c m]; cbn [app hd_error].
  - tauto.
  - intros Hc. split; [intros H; contradiction | ].
    intros H. destruct m; discriminate H.
Qed.

(** X2: the segments of [combinePaths basepath path] are those of the
    base path followed by those of the path, a path of slashes only
    contributing none; the combined path ends with exactly one slash.  It
    is the root ["/"] exactly when both paths are empty or made of slashes
    only, and the root is the only combined path that starts with a
    slash. *)
Theorem combinePaths_segments (basepath path_ : jsstring) :
  segmentize (Routing.combinePaths basepath path_) =
    match segments_of basepath ++ segments_of path_ with
    | [] => [[]]
    | l => l
    end /\
  (exists m, Routing.combinePaths basepath path_ = m ++ [SLASH] /\
             no_leading_slash m /\ no_trailing_slash m) /\
  (Routing.combinePaths basepath path_ = [SLASH] <->
   stripSlashes basepath = [] /\ stripSlashes path_ = []) /\
  (hd_error (Routing.combinePaths basepath path_) = Some SLASH <->
   Routing.combinePaths basepath path_ = [SLASH]).
Proof.
  unfold Routing.combinePaths.
  destruct (stripSlashes_decompose basepath) as (a & b & Hb & Hlb & Htb).
  destruct (stripSlashes_decompose path_) as (a' & b' & Hp & Hlp & Htp).
  destruct (jsstring_eqb path_ [SLASH]) eqn:Eroot.
  - apply jsstring_eqb_spec in Eroot. subst path_. split; [ | split; [ | split]].
    + rewrite segmentize_trailing_slash by assumption.
      unfold segments_of. rewrite stripSlashes_slash, app_nil_r.
      unfold segmentize.
      destruct (stripSlashes basepath) as [|x sb] eqn:E; [reflexivity | ].
      pose proof (split_nonempty SLASH (x :: sb)) as Hn.
      destruct (split SLASH (x :: sb)); [contradiction | reflexivity].
    + exists (stripSlashes basepath). auto.
    + rewrite stripSlashes_slash. split.
      * intros H. apply (app_inj_tail _ []) in H. tauto.
      * intros [-> _]. reflexivity.
    + apply leading_slash_root. exact Hlb.
  - destruct (stripSlashes_decompose (stripSlashes basepath ++ SLASH :: stripSlashes path_))
      as (a2 & b2 & _ & Hl2 & Ht2).
    split; [ | split; [ | split]].
    + rewrite segmentize_trailing_slash by assumption.
      rewrite combinePaths_inner by assumption.
      unfold segments_of, segmentize. reflexivity.
    + eexists. split; [reflexivity | split; assumption].
    + rewrite <- (combinePaths_inner_empty _ _ Hlb Htb Hlp Htp). split.
      * intros H. apply (app_inj_tail _ []) in H. tauto.
      * intros ->. reflexivity.
    + apply leading_slash_root. exact Hl2.
Qed.

Example combinePaths_sample :
  Routing.combinePaths (js "/") (js "/") = js "/" /\
  Routing.combinePaths [] (js "//") = js "/" /\
  Routing.combinePaths (js "/app/") (js "/") = js "app/" /\
  Routing.combinePaths (js "/app") (js "/teams/:team/") = js "app/teams/:team/" /\
  Routing.combinePaths (js "/") (js "*") = js "*/".
Proof. repeat split. Qed.

(** ** One route against a URI *)

(** A static segment is neither a splat nor a parameter. *)
Definition static (segment : jsstring) : Prop :=
  isSplat segment = false /\ paramRe_exec segment = None.

Lemma pick_single (r : route) (uri : jsstring) :
  Routing.match_ r uri = pick_loop [rankRoute r 0] uri None.
Proof. reflexivity. Qed.

Lemma match_single (r : route) (uri : jsstring) :
  default r = false ->
  Routing.match_ r uri =
  match match_route r uri with
  | Threw => None
  | Missed => Some None
  | Hit params index =>
      Some (Some {| m_route := r; m_params := params;
                    m_uri := SLASH :: join SLASH (slice 0 index (uriSegments uri)) |})
  end.
Proof.
  intros Hd. rewrite pick_single. cbn [pick_loop rankRoute r_route].
  rewrite Hd. destruct (match_route r uri); reflexivity.
Qed.

Lemma match_single_default (r : route) (uri : jsstring) :
  default r = true ->
  Routing.match_ r uri = Some (Some {| m_route := r; m_params := []; m_uri := uri |}).
Proof.
  intros Hd. rewrite pick_single. cbn [pick_loop rankRoute r_route].
  rewrite Hd. reflexivity.
Qed.

Lemma match_single_route (r : route) (uri : jsstring) (m : matched) :
  Routing.match_ r uri = Some (Some m) -> m_route m = r.
Proof.
  destruct (default r) eqn:Hd.
  - rewrite (match_single_default _ _ Hd). intros E. injection E as <-. reflexivity.
  - rewrite (match_single _ _ Hd).
    destruct (match_route r uri); try discriminate.
    intros E. injection E as <-. reflexivity.
Qed.

Lemma match_segments_static_same (root : bool) (rs : list jsstring)
  (params : object jsstring) (i : nat) :
  Forall static rs ->
  match_segments root rs rs params i = Hit params (i + length rs).
Proof.
  intros Hs. revert i. induction Hs as [|seg rs [Hsplat Hparam] Hs IH]; intros i.
  - simpl. rewrite Nat.add_0_r. reflexivity.
  - cbn [match_segments]. rewrite Hsplat, Hparam, jsstring_eqb_refl.
    cbn [negb]. rewrite IH. f_equal. simpl. lia.
Qed.

Lemma match_segments_static_other (root : bool) (rs us : list jsstring)
  (params : object jsstring) (i : nat) :
  Forall static rs -> rs <> us ->
  match_segments root rs us params i = Missed.
Proof.
  intros Hs. revert us i. induction Hs as [|seg rs [Hsplat Hparam] Hs IH]; intros us i Hne.
  - destruct us; [congruence | reflexivity].
  - cbn [match_segments]. rewrite Hsplat.
    destruct us as [|u us]; [reflexivity | ].
    rewrite Hparam.
    destruct (jsstring_eqb seg u) eqn:E; [ | reflexivity].
    apply jsstring_eqb_spec in E. subst u. cbn [negb].
    apply IH. congruence.
Qed.

Lemma slice_all {A} (l : list A) : slice 0 (length l) l = l.
Proof. unfold slice. rewrite Nat.sub_0_r. simpl. apply firstn_all. Qed.

Lemma slice_prefix {A} (l l' : list A) : slice 0 (length l) (l ++ l') = l.
Proof.
  unfold slice. rewrite Nat.sub_0_r. simpl.
  rewrite firstn_app, firstn_all, Nat.sub_diag. simpl. apply app_nil_r.
Qed.

(** X3: a route whose segments are all static matches exactly the URIs
    whose path, a query string and the slashes at both ends apart, has the
    same segments; it binds no parameter, never throws, and the matched
    uri is the stripped path behind one slash. *)
Theorem static_route_match (r : route) (uri : jsstring) :
  default r = false ->
  Forall static (segmentize (path r)) ->
  (segmentize (path r) = uriSegments uri ->
   Routing.match_ r uri =
   Some (Some {| m_route := r; m_params := [];
                 m_uri := SLASH :: stripSlashes (uriPathname uri) |})) /\
  (segmentize (path r) <> uriSegments uri -> Routing.match_ r uri = Some None).
Proof.
  intros Hd Hs. rewrite (match_single _ _ Hd). unfold match_route. split.
  - intros E. rewrite <- E, match_segments_static_same by assumption.
    simpl Nat.add. rewrite slice_all, E. unfold uriSegments, segmentize.
    rewrite join_split. reflexivity.
  - intros Hne. rewrite match_segments_static_other by assumption. reflexivity.
Qed.

Lemma static_route_match_witness :
  Routing.match_ {| path := js "teams/arsenal"; default := false; value := 1 |}
                 (js "/teams/arsenal/?tab=form") =
  Some (Some {| m_route := {| path := js "teams/arsenal"; default := false; value := 1 |};
                m_params := [];
                m_uri := js "/teams/arsenal" |}).
Proof.
  apply (static_route_match
           {| path := js "teams/arsenal"; default := false; value := 1 |}
           (js "/teams/arsenal/?tab=form")).
  - reflexivity.
  - vm_compute. repeat constructor.
  - vm_compute. reflexivity.
Defined.

(** [splatName]: the segment without its star, or the star alone. *)
Definition splatName (routeSegment : jsstring) : jsstring :=
  if jsstring_eqb routeSegment [STAR] then [STAR]
  else slice 1 (length routeSegment) routeSegment.

Lemma match_segments_splat (root : bool) (ps : list jsstring) (sp : jsstring)
  (us : list jsstring) (params : object jsstring) (i : nat) :
  Forall static ps -> isSplat sp = true ->
  match_segments root (ps ++ [sp]) us params i =
  match list_eq_dec (list_eq_dec N.eq_dec) (firstn (length ps) us) ps with
  | left _ =>
      match decode_all (skipn (length ps) us) with
      | Some decoded =>
          Hit (set_property params (splatName sp) (join SLASH decoded))
              (i + length ps)
      | None => Threw
      end
  | right _ => Missed
  end.
Proof.
  intros Hs Hsp. revert us i.
  induction Hs as [|seg ps [Hsplat Hparam] Hs IH]; intros us i.
  - cbn [app match_segments length firstn skipn]. rewrite Hsp.
    destruct (list_eq_dec (list_eq_dec N.eq_dec) [] []) as [_|Hne]; [ | congruence].
    rewrite Nat.add_0_r. destruct us; reflexivity.
  - cbn [app match_segments]. rewrite Hsplat.
    destruct us as [|u us].
    + cbn [length firstn].
      destruct (list_eq_dec (list_eq_dec N.eq_dec) [] (seg :: ps)); [discriminate | reflexivity].
    + rewrite Hparam. cbn [length firstn skipn].
      destruct (jsstring_eqb seg u) eqn:E; cbn [negb].
      * apply jsstring_eqb_spec in E. subst u. rewrite IH.
        destruct (list_eq_dec (list_eq_dec N.eq_dec) (firstn (length ps) us) ps) as [E1|N1];
          destruct (list_eq_dec (list_eq_dec N.eq_dec) (seg :: firstn (length ps) us) (seg :: ps))
            as [E2|N2]; try congruence.
        replace (S i + length ps)%nat with (i + S (length ps))%nat by lia. reflexivity.
      * destruct (list_eq_dec (list_eq_dec N.eq_dec) (u :: firstn (length ps) us) (seg :: ps))
          as [E2|N2]; [ | reflexivity].
        injection E2 as -> _. rewrite jsstring_eqb_refl in E. discriminate.
Qed.

Lemma set_property_empty (k v : jsstring) :
  set_property [] k v = if jsstring_eqb k (js "__proto__") then [] else [(k, v)].
Proof.
  unfold set_property. destruct (jsstring_eqb k (js "__proto__")); [reflexivity | ].
  cbn [get]. destruct (array_index k); reflexivity.
Qed.

(** X4: a route of static segments followed by a splat matches every URI
    that starts with these segments, also when nothing follows them: the
    matched uri is the part before the splat, and the rest of the URI,
    each segment decoded, is bound to the name of the splat, unless that
    name is [__proto__], for which the params stay empty.  When the URI
    starts otherwise the route does not match, and when a segment of the
    rest cannot be decoded the match throws. *)
Theorem splat_route_match (r : route) (uri : jsstring)
  (ps : list jsstring) (sp : jsstring) :
  default r = false ->
  segmentize (path r) = ps ++ [sp] ->
  Forall static ps ->
  isSplat sp = true ->
  (forall rest decoded,
     uriSegments uri = ps ++ rest -> decode_all rest = Some decoded ->
     Routing.match_ r uri =
     Some (Some {| m_route := r;
                   m_params :=
                     if jsstring_eqb (splatName sp) (js "__proto__") then []
                     else [(splatName sp, join SLASH decoded)];
                   m_uri := SLASH :: join SLASH ps |})) /\
  (forall rest,
     uriSegments uri = ps ++ rest -> decode_all rest = None ->
     Routing.match_ r uri = None) /\
  (firstn (length ps) (uriSegments uri) <> ps -> Routing.match_ r uri = Some None).
Proof.
  intros Hd Hseg Hs Hsp. rewrite (match_single _ _ Hd). unfold match_route.
  rewrite Hseg, (match_segments_splat _ _ _ _ _ _ Hs Hsp).
  split; [ | split].
  - intros rest' decoded Hu Hdec. rewrite Hu.
    rewrite firstn_app, firstn_all, Nat.sub_diag, skipn_app, skipn_all, Nat.sub_diag.
    cbn [firstn skipn app]. rewrite app_nil_r.
    destruct (list_eq_dec (list_eq_dec N.eq_dec) ps ps) as [_|N1]; [ | congruence].
    rewrite Hdec. simpl Nat.add. rewrite slice_prefix, set_property_empty. reflexivity.
  - intros rest' Hu Hdec. rewrite Hu.
    rewrite firstn_app, firstn_all, Nat.sub_diag, skipn_app, skipn_all, Nat.sub_diag.
    cbn [firstn skipn app]. rewrite app_nil_r.
    destruct (list_eq_dec (list_eq_dec N.eq_dec) ps ps) as [_|N1]; [ | congruence].
    rewrite Hdec. reflexivity.
  - intros Hne.
    destruct (list_eq_dec (list_eq_dec N.eq_dec) (firstn (length ps) (uriSegments uri)) ps);
      [contradiction | reflexivity].
Qed.

Lemma splat_route_match_witness :
  Routing.match_ {| path := js "files/*rest"; default := false; value := 2 |}
                 (js "/files/a%20b/c") =
  Some (Some {| m_route := {| path := js "files/*rest"; default := false; value := 2 |};
                m_params := [(js "rest", js "a b/c")];
                m_uri := js "/files" |}).
Proof.
  refine (proj1 (splat_route_match
           {| path := js "files/*rest"; default := false; value := 2 |}
           (js "/files/a%20b/c") [js "files"] (js "*rest") _ _ _ _)
           [js "a%20b"; js "c"] [js "a b"; js "c"] _ _).
  - reflexivity.
  - vm_compute. reflexivity.
  - vm_compute. repeat constructor.
  - reflexivity.
  - vm_compute. reflexivity.
  - vm_compute. reflexivity.
Defined.

Example params_sample :
  option_map (option_map m_params)
    (Routing.match_ {| path := js "files/*__proto__"; default := false; value := 2 |}
                    (js "/files/a/b")) = Some (Some []) /\
  option_map (option_map m_params)
    (Routing.match_ {| path := js ":team/:__proto__/:7/:10/*"; default := false;
                       value := 2 |}
                    (js "/arsenal/x/seven/ten/a/b")) =
  Some (Some [(js "7", js "seven"); (js "10", js "ten"); (js "team", js "arsenal");
              (js "*", js "a/b")]).
Proof. split; vm_compute; reflexivity. Qed.

(** ** Routes rendered on the server *)

(** The route object a Route component with the given props registers,
    once [registerRoute] has combined its path with the base path. *)
Definition registered (basepath : jsstring) (props : jsstring * nat) : route :=
  {| path := Routing.combinePaths basepath (fst props);
     default := jsstring_eqb (fst props) [];
     value := snd props |}.

Lemma render_routes_app (window : bool) (rt : Routing.router)
  (l1 l2 : list (jsstring * nat)) :
  Routing.render_routes window rt (l1 ++ l2) =
  match Routing.render_routes window rt l1 with
  | None => None
  | Some (rt', flags1) =>
      match Routing.render_routes window rt' l2 with
      | None => None
      | Some (rt'', flags2) => Some (rt'', flags1 ++ flags2)
      end
  end.
Proof.
  revert rt. induction l1 as [|[p id] l1 IH]; intros rt; cbn [app Routing.render_routes].
  - destruct (Routing.render_routes window rt l2) as [[rt'' flags2]|]; reflexivity.
  - destruct (Routing.Route window rt p id) as [[rt' shown]|]; [ | reflexivity].
    rewrite IH.
    destruct (Routing.render_routes window rt' l1) as [[rt1 flags1]|]; [ | reflexivity].
    destruct (Routing.render_routes window rt1 l2) as [[rt2 flags2]|]; reflexivity.
Qed.

Lemma render_routes_missed (rt : Routing.router) (l : list (jsstring * nat)) :
  Routing.hasActiveRoute rt = false ->
  Routing.activeRoute rt = None ->
  Forall (fun props =>
            Routing.match_ (registered (Routing.base_path rt) props) (Routing.pathname rt)
            = Some None) l ->
  Routing.render_routes false rt l = Some (rt, repeat false (length l)).
Proof.
  intros Hflag Hnone Hall. induction Hall as [|[p id] l Hp Hall IH]; [reflexivity | ].
  cbn [Routing.render_routes]. unfold Routing.Route, Routing.registerRoute.
  cbn [negb]. rewrite Hflag. unfold registered in Hp. cbn [fst snd] in Hp.
  cbn [path default value]. rewrite Hp, Hnone, IH. reflexivity.
Qed.

Lemma render_routes_skipped (rt : Routing.router) (m : matched)
  (l : list (jsstring * nat)) :
  Routing.hasActiveRoute rt = true ->
  Routing.activeRoute rt = Some m ->
  ~ In (value (m_route m)) (map snd l) ->
  Routing.render_routes false rt l = Some (rt, repeat false (length l)).
Proof.
  intros Hflag Hact. induction l as [|[p id] l IH]; intros Hnin; [reflexivity | ].
  cbn [Routing.render_routes]. unfold Routing.Route, Routing.registerRoute.
  cbn [negb]. rewrite Hflag, Hact.
  assert (Hid : Nat.eqb (value (m_route m)) id = false).
  { apply Nat.eqb_neq. intros E. apply Hnin. left. symmetry. exact E. }
  rewrite Hid, IH; [reflexivity | ].
  intros Hin. apply Hnin. right. exact Hin.
Qed.

(** X5: when the server renders the Route components of a Router, the one
    whose markup is rendered is the first, in the order of the markup, that
    matches the location: the routes before it render nothing, those after
    it are skipped without being matched, whatever their score, and the
    active route is the match of that first route. *)
Theorem ssr_first_matching_route_renders
  (basepath url : jsstring) (before after : list (jsstring * nat))
  (props : jsstring * nat) (m : matched) :
  NoDup (map snd (before ++ props :: after)) ->
  Forall (fun p => Routing.match_ (registered basepath p) url = Some None) before ->
  Routing.match_ (registered basepath props) url = Some (Some m) ->
  Routing.render_routes false (Routing.ssr_router basepath url)
                        (before ++ props :: after) =
  Some ({| Routing.base_path := basepath;
           Routing.pathname := url;
           Routing.routes := [];
           Routing.hasActiveRoute := true;
           Routing.activeRoute := Some m |},
        repeat false (length before) ++ true :: repeat false (length after)).
Proof.
  intros Hnd Hbefore Hm.
  rewrite render_routes_app.
  rewrite (render_routes_missed (Routing.ssr_router basepath url) before)
    by (try reflexivity; exact Hbefore).
  destruct props as [p id].
  cbn [Routing.render_routes]. unfold Routing.Route, Routing.registerRoute.
  cbn [negb Routing.ssr_router Routing.hasActiveRoute Routing.base_path
       Routing.pathname Routing.routes Routing.activeRoute path default value].
  unfold registered in Hm. cbn [fst snd] in Hm. rewrite Hm.
  pose proof (match_single_route _ _ _ Hm) as Hroute.
  assert (Hval : value (m_route m) = id) by (rewrite Hroute; reflexivity).
  cbn [Routing.activeRoute]. rewrite Hval, Nat.eqb_refl.
  rewrite (render_routes_skipped _ m after); [reflexivity | reflexivity | reflexivity | ].
  rewrite Hval. rewrite map_app in Hnd. cbn [map snd] in Hnd.
  apply NoDup_remove_2 in Hnd. intros Hin. apply Hnd.
  apply in_or_app. right. exact Hin.
Qed.

Lemma ssr_first_matching_route_renders_witness :
  option_map snd
    (Routing.render_routes false (Routing.ssr_router (js "/") (js "/about"))
       [(js "home", 0%nat); (js "", 1%nat); (js "about", 2%nat)]) =
  Some [false; true; false].
Proof.
  refine (f_equal (option_map snd)
           (ssr_first_matching_route_renders (js "/") (js "/about")
              [(js "home", 0%nat)] [(js "about", 2%nat)] (js "", 1%nat)
              {| m_route := registered (js "/") (js "", 1%nat);
                 m_params := [];
                 m_uri := js "/about" |} _ _ _)).
  - vm_compute. repeat constructor; intros H; repeat destruct H as [H|H]; try discriminate H; auto.
  - repeat constructor.
  - vm_compute. reflexivity.
Defined.

(** The same routes on the client, where [pick] sees them all: the route
    with the best score is the active one, not the default route. *)
Example pick_prefers_about_to_default :
  option_map (option_map (fun m => value (m_route m)))
    (pick (map (registered (js "/"))
              [(js "home", 0%nat); (js "", 1%nat); (js "about", 2%nat)])
          (js "/about")) =
  Some (Some 2%nat).
Proof. vm_compute. reflexivity. Qed.

(** ** The memory source and the history over it *)

Lemma at_push_last {A} (a : Arr.sparse A) (x : option A) :
  Arr.at_ (Arr.push a x) (length a) = x.
Proof.
  unfold Arr.at_, Arr.push. rewrite nth_error_app2 by lia.
  rewrite Nat.sub_diag. reflexivity.
Qed.

Lemma at_push_beyond {A} (a : Arr.sparse A) (x : option A) (i : nat) :
  (length a < i)%nat -> Arr.at_ (Arr.push a x) i = None.
Proof.
  intros Hi. unfold Arr.at_, Arr.push.
  assert (E : nth_error (a ++ [x]) i = None).
  { apply nth_error_None. rewrite length_app. simpl. lia. }
  rewrite E. reflexivity.
Qed.

Lemma at_assign_same {A} (a : Arr.sparse A) (i : nat) (x : option A) :
  Arr.at_ (Arr.assign a i x) i = x.
Proof.
  unfold Arr.at_, Arr.assign. rewrite app_assoc.
  rewrite nth_error_app2; rewrite length_app, length_firstn, repeat_length; [ | lia].
  replace (i - (Nat.min i (length a) + (i - length a)))%nat with 0%nat by lia.
  reflexivity.
Qed.

Lemma length_assign {A} (a : Arr.sparse A) (i : nat) (x : option A) :
  length (Arr.assign a i x) = Nat.max (S i) (length a).
Proof.
  unfold Arr.assign.
  rewrite !length_app, length_firstn, repeat_length. cbn [length].
  rewrite length_skipn. lia.
Qed.

(** A call on the [history] object of a memory source. *)
Inductive source_call (State : Type) :=
| PushState (st : option State) (uri : jsstring)
| ReplaceState (st : option State) (uri : jsstring).

Arguments PushState {State} st uri.
Arguments ReplaceState {State} st uri.

Definition is_replace {State} (c : source_call State) : bool :=
  match c with ReplaceState _ _ => true | PushState _ _ => false end.

Definition call_state {State} (c : source_call State) : option State :=
  match c with PushState st _ | ReplaceState st _ => st end.

Definition call_uri {State} (c : source_call State) : jsstring :=
  match c with PushState _ uri | ReplaceState _ uri => uri end.

Definition source_step {State} (s : History.source State) (c : source_call State)
  : History.source State :=
  match c with
  | PushState st uri => History.pushState st uri s
  | ReplaceState st uri => History.replaceState st uri s
  end.

Definition source_run {State} (cs : list (source_call State)) (s : History.source State)
  : History.source State :=
  fold_left source_step cs s.

Lemma source_run_snoc {State} (cs : list (source_call State)) (c : source_call State)
  (s : History.source State) :
  source_run (cs ++ [c]) s = source_step (source_run cs s) c.
Proof. unfold source_run. rewrite fold_left_app. reflexivity. Qed.

Lemma source_run_lengths {State} (initialPathname : jsstring)
  (cs : list (source_call State)) :
  let s := source_run cs (History.createMemorySource State initialPathname) in
  History.index s = length (filter (fun c => negb (is_replace c)) cs) /\
  length (History.stack s) = S (History.index s) /\
  length (History.states s) =
    if existsb is_replace cs then S (History.index s) else History.index s.
Proof.
  induction cs as [|c cs IH] using rev_ind.
  - repeat split.
  - cbn zeta in *. rewrite source_run_snoc.
    destruct IH as (Hi & Hstack & Hstates).
    rewrite filter_app, length_app, existsb_app. cbn [filter existsb].
    destruct c as [st uri|st uri]; cbn [source_step is_replace negb length
      History.pushState History.replaceState History.index History.stack History.states].
    + rewrite orb_false_r. unfold Arr.push. rewrite !length_app. cbn [length].
      split; [lia | split; [lia | ]].
      destruct (existsb is_replace cs); lia.
    + rewrite orb_true_r, !length_assign.
      split; [lia | split; [lia | ]].
      destruct (existsb is_replace cs); lia.
Qed.

Lemma source_run_observed {State} (initialPathname : jsstring)
  (cs : list (source_call State)) :
  let s := source_run cs (History.createMemorySource State initialPathname) in
  History.index s = length (filter (fun c => negb (is_replace c)) cs) /\
  History.location s =
    Some (match rev cs with
          | [] => {| History.pathname := initialPathname; History.search := [] |}
          | c :: _ => History.split_uri (call_uri c)
          end) /\
  History.state s =
    match rev cs with
    | [] => None
    | c :: _ => if existsb is_replace cs then call_state c else None
    end.
Proof.
  cbn zeta. split; [apply (source_run_lengths initialPathname cs) | ].
  destruct cs as [|c cs _] using rev_ind; [split; reflexivity | ].
  rewrite rev_app_distr. cbn [rev app].
  rewrite source_run_snoc, existsb_app. cbn [existsb].
  destruct (source_run_lengths (State := State) initialPathname cs) as (Hi & Hstack & Hstates).
  set (s := source_run cs (History.createMemorySource State initialPathname)) in *.
  destruct c as [st uri|st uri]; cbn [source_step is_replace call_uri call_state];
    unfold History.location, History.state;
    cbn [History.pushState History.replaceState History.index History.stack History.states].
  - rewrite orb_false_r. split.
    + rewrite <- Hstack. apply at_push_last.
    + destruct (existsb is_replace cs).
      * rewrite <- Hstates. apply at_push_last.
      * apply at_push_beyond. lia.
  - rewrite orb_true_r. split; apply at_assign_same.
Qed.

(** X6: a memory source keeps its index at the number of pushes and its
    location at the entry of the last call, but it reads the state at the
    index from an array that [pushState] fills from the start: until the
    first [replaceState] the state it reports is [undefined] whatever was
    pushed, and from then on it is the state of the last call. *)
Theorem memory_source_state {State} (initialPathname : jsstring)
  (cs : list (source_call State)) :
  let s := source_run cs (History.createMemorySource State initialPathname) in
  History.index s = length (filter (fun c => negb (is_replace c)) cs) /\
  History.location s =
    Some (match rev cs with
          | [] => {| History.pathname := initialPathname; History.search := [] |}
          | c :: _ => History.split_uri (call_uri c)
          end) /\
  History.state s =
    match rev cs with
    | [] => None
    | c :: _ => if existsb is_replace cs then call_state c else None
    end.
Proof. apply source_run_observed. Qed.

(** A call on the object [createHistory] returns. *)
Inductive history_call (User : Type) :=
| Listen (listener : nat)
| Unlisten (listener : nat)
| Navigate (now to : jsstring) (st : User) (replace : bool).

Arguments Listen {User} listener.
Arguments Unlisten {User} listener.
Arguments Navigate {User} now to st replace.

Definition history_step {User} (h : History.history User) (c : history_call User)
  : History.history User :=
  match c with
  | Listen listener => History.listen listener h
  | Unlisten listener => History.unlisten listener h
  | Navigate now to st replace => History.navigate now to st replace h
  end.

Definition history_run {User} (cs : list (history_call User)) (h : History.history User)
  : History.history User :=
  fold_left history_step cs h.

(** The calls a run of the history makes on its source. *)
Fixpoint source_calls {User} (cs : list (history_call User))
  : list (source_call (History.history_state User)) :=
  match cs with
  | [] => []
  | Navigate now to st replace :: cs' =>
      let state := Some {| History.user := st; History.key := now |} in
      (if replace then ReplaceState state to else PushState state to) :: source_calls cs'
  | _ :: cs' => source_calls cs'
  end.

Definition replaces {User} (c : history_call User) : bool :=
  match c with Navigate _ _ _ replace => replace | _ => false end.

Lemma source_calls_app {User} (cs cs' : list (history_call User)) :
  source_calls (cs ++ cs') = source_calls cs ++ source_calls cs'.
Proof.
  induction cs as [|c cs IH]; [reflexivity | ].
  destruct c; cbn [app source_calls]; rewrite IH; reflexivity.
Qed.

Lemma source_calls_replace {User} (cs : list (history_call User)) :
  existsb is_replace (source_calls cs) = existsb replaces cs.
Proof.
  induction cs as [|c cs IH]; [reflexivity | ].
  destruct c as [l|l|now to st [|]]; cbn [source_calls existsb replaces is_replace];
    rewrite IH; reflexivity.
Qed.

Lemma history_run_source {User} (cs : list (history_call User))
  (h : History.history User) :
  History.h_source (history_run cs h) =
  source_run (source_calls cs) (History.h_source h).
Proof.
  unfold history_run, source_run. revert h.
  induction cs as [|c cs IH]; intros h; [reflexivity | ].
  cbn [fold_left]. rewrite IH.
  destruct c as [l|l|now to st [|]]; reflexivity.
Qed.

(** X7: over a memory source, as on the server, [navigate] calls every
    listener once, in the order they were registered, with the new
    location, and the action is PUSH also for a replacement.  The location
    has the path and the query of the target; its state and key are those
    [navigate] made only if this navigation or an earlier one replaced:
    otherwise the state is [undefined] and the key is ["initial"]. *)
Theorem navigate_memory_location {User} (initialPathname : jsstring)
  (cs : list (history_call User)) (now to : jsstring) (st : User) (replace : bool) :
  let h := history_run cs
             (History.createHistory (History.createMemorySource _ initialPathname)) in
  let h' := History.navigate now to st replace h in
  let replaced := replace || existsb replaces cs in
  History.h_location h' =
    {| History.l_entry := Some (History.split_uri to);
       History.l_state :=
         if replaced then Some {| History.user := st; History.key := now |} else None;
       History.l_key :=
         if replaced then or_else (Some now) (js "initial") else js "initial" |} /\
  History.listeners h' = History.listeners h /\
  History.calls h' =
    History.calls h ++
    map (fun listener => (listener, History.h_location h', History.PUSH))
        (History.listeners h).
Proof.
  cbn zeta. split; [ | split; reflexivity].
  set (h := history_run cs _).
  assert (E : History.h_source (History.navigate now to st replace h) =
              source_run (source_calls (cs ++ [Navigate now to st replace]))
                (History.createMemorySource _ initialPathname)).
  { pose proof (history_run_source (cs ++ [Navigate now to st replace])
                  (History.createHistory (History.createMemorySource _ initialPathname)))
      as G.
    unfold history_run in G. rewrite fold_left_app in G. exact G. }
  change (History.h_location (History.navigate now to st replace h))
    with (History.getLocation (History.h_source (History.navigate now to st replace h))).
  rewrite E. unfold History.getLocation.
  destruct (source_run_observed (State := History.history_state User) initialPathname
              (source_calls (cs ++ [Navigate now to st replace]))) as (_ & Hloc & Hstate).
  cbn zeta in Hloc, Hstate. rewrite Hloc, Hstate.
  rewrite source_calls_replace, existsb_app, source_calls_app, rev_app_distr.
  cbn [existsb replaces]. rewrite orb_false_r, (orb_comm (existsb replaces cs)).
  destruct replace; cbn [source_calls rev app call_uri call_state orb].
  - reflexivity.
  - destruct (existsb replaces cs); reflexivity.
Qed.

(** ** Removing from an array by [indexOf] and [splice] *)

Section Removal.

Context {A : Type} (eqb : A -> A -> bool).

Hypothesis eqb_eq : forall x y, eqb x y = true <-> x = y.

(** The array without the first element equal to [x]. *)
Fixpoint remove_first (x : A) (l : list A) : list A :=
  match l with
  | [] => []
  | y :: l' => if eqb y x then l' else y :: remove_first x l'
  end.

Lemma arr_indexOf_bounds (l : list A) (x : A) :
  -1 <= Arr.indexOf eqb l x < Z.of_nat (length l).
Proof.
  induction l as [|y l IH]; cbn [Arr.indexOf length]; [lia | ].
  destruct (eqb y x); [lia | ].
  destruct (Arr.indexOf eqb l x <? 0) eqn:E; lia.
Qed.

Lemma arr_indexOf_absent (l : list A) (x : A) :
  ~ In x l -> Arr.indexOf eqb l x = -1.
Proof.
  induction l as [|y l IH]; intros Hnin; cbn [Arr.indexOf]; [reflexivity | ].
  destruct (eqb y x) eqn:E.
  - exfalso. apply Hnin. left. apply eqb_eq. exact E.
  - rewrite IH by (intros Hin; apply Hnin; right; exact Hin). reflexivity.
Qed.

Lemma arr_indexOf_present (l : list A) (x : A) :
  In x l -> 0 <= Arr.indexOf eqb l x.
Proof.
  induction l as [|y l IH]; intros Hin; cbn [Arr.indexOf]; [destruct Hin | ].
  destruct (eqb y x) eqn:E; [lia | ].
  destruct Hin as [->|Hin].
  - assert (eqb x x = true) by (apply eqb_eq; reflexivity). congruence.
  - specialize (IH Hin).
    destruct (Arr.indexOf eqb l x <? 0) eqn:E'; [apply Z.ltb_lt in E' | ]; lia.
Qed.

Lemma splice_last (l : list A) : Arr.splice (-1) 1 l = removelast l.
Proof.
  unfold Arr.splice. cbn [Z.ltb Z.compare].
  destruct l as [|y l]; [reflexivity | ].
  replace (Z.to_nat (Z.max (Z.of_nat (length (y :: l)) + -1) 0)) with (length l)
    by (cbn [length]; lia).
  rewrite skipn_all2 by (cbn [length]; lia).
  rewrite app_nil_r, removelast_firstn_len. reflexivity.
Qed.

Lemma splice_cons (r : Z) (y : A) (l : list A) :
  0 <= r -> Arr.splice (r + 1) 1 (y :: l) = y :: Arr.splice r 1 l.
Proof.
  intros Hr. unfold Arr.splice.
  destruct (r + 1 <? 0) eqn:E1; [apply Z.ltb_lt in E1; lia | ].
  destruct (r <? 0) eqn:E2; [apply Z.ltb_lt in E2; lia | ].
  replace (Z.to_nat (Z.min (r + 1) (Z.of_nat (length (y :: l)))))
    with (S (Z.to_nat (Z.min r (Z.of_nat (length l))))) by (cbn [length]; lia).
  reflexivity.
Qed.

Lemma splice_indexOf_present (l : list A) (x : A) :
  In x l -> Arr.splice (Arr.indexOf eqb l x) 1 l = remove_first x l.
Proof.
  induction l as [|y l IH]; intros Hin; [destruct Hin | ].
  cbn [Arr.indexOf remove_first].
  destruct (eqb y x) eqn:E; [reflexivity | ].
  assert (Hin' : In x l).
  { destruct Hin as [->|Hin]; [ | exact Hin].
    assert (eqb x x = true) by (apply eqb_eq; reflexivity). congruence. }
  pose proof (arr_indexOf_present l x Hin') as H0.
  destruct (Arr.indexOf eqb l x <? 0) eqn:E'; [apply Z.ltb_lt in E'; lia | ].
  rewrite splice_cons by exact H0. rewrite IH by exact Hin'. reflexivity.
Qed.

Lemma remove_first_absent (l : list A) (x : A) :
  ~ In x l -> remove_first x l = l.
Proof.
  induction l as [|y l IH]; intros Hnin; cbn [remove_first]; [reflexivity | ].
  destruct (eqb y x) eqn:E.
  - exfalso. apply Hnin. left. apply eqb_eq. exact E.
  - rewrite IH by (intros Hin; apply Hnin; right; exact Hin). reflexivity.
Qed.

End Removal.

Lemma unlisten_listeners {User} (listener : nat) (h : History.history User) :
  (In listener (History.listeners h) ->
   History.listeners (History.unlisten listener h) =
   remove_first Nat.eqb listener (History.listeners h)) /\
  (~ In listener (History.listeners h) ->
   History.listeners (History.unlisten listener h) =
   removelast (History.listeners h)).
Proof.
  unfold History.unlisten. cbn [History.listeners]. split; intros H.
  - apply splice_indexOf_present; [exact Nat.eqb_eq | exact H].
  - rewrite (arr_indexOf_absent Nat.eqb Nat.eqb_eq) by exact H. apply splice_last.
Qed.

(** X8: the function [listen] returns removes the first registration of
    its listener; called when the listener is no longer registered, for
    instance a second time, it removes the listener registered last,
    whoever registered it. *)
Theorem unlisten_twice_removes_last {User} (listener : nat) (h : History.history User) :
  ~ In listener (History.listeners h) ->
  let h1 := History.unlisten listener (History.listen listener h) in
  let h2 := History.unlisten listener h1 in
  History.listeners h1 = History.listeners h /\
  History.listeners h2 = removelast (History.listeners h).
Proof.
  intros Hnin. cbn zeta.
  assert (E1 : History.listeners (History.unlisten listener (History.listen listener h))
               = History.listeners h).
  { rewrite (proj1 (unlisten_listeners listener (History.listen listener h)))
      by (cbn [History.listen History.listeners]; apply in_or_app; right; left; reflexivity).
    cbn [History.listen History.listeners].
    induction (History.listeners h) as [|y l IH]; cbn [app remove_first].
    - rewrite Nat.eqb_refl. reflexivity.
    - destruct (Nat.eqb y listener) eqn:E.
      + exfalso. apply Hnin. left. apply Nat.eqb_eq. exact E.
      + rewrite IH; [reflexivity | ]. intros Hin. apply Hnin. right. exact Hin. }
  split; [exact E1 | ].
  rewrite (proj2 (unlisten_listeners listener _)) by (rewrite E1; exact Hnin).
  rewrite E1. reflexivity.
Qed.

Lemma unlisten_twice_removes_last_witness :
  History.listeners
    (History.unlisten 7%nat
       (History.unlisten 7%nat
          (History.listen 7%nat
             (History.listen 2%nat
                (History.listen 1%nat
                   (History.createHistory
                      (History.createMemorySource (History.history_state unit)
                         (js "/")))))))) =
  [1%nat].
Proof.
  refine (proj2 (unlisten_twice_removes_last 7%nat
           (History.listen 2%nat
              (History.listen 1%nat
                 (History.createHistory
                    (History.createMemorySource (History.history_state unit) (js "/")))))
           _)).
  cbn. intros [H|[H|[]]]; discriminate H.
Defined.

(** ** The store after an unsubscription *)

Lemma delete_removes_ref (s : subscriber) (l : list subscriber) :
  ~ In (sub_ref s) (map sub_ref (Store.delete s l)).
Proof.
  unfold Store.delete. intros Hin.
  apply in_map_iff in Hin as (x & Hx & Hin).
  apply filter_In in Hin as (_ & Hf).
  apply negb_true_iff, Nat.eqb_neq in Hf. congruence.
Qed.

Lemma unsubscribe_fields (s : subscriber) (w w' : world) :
  Store.unsubscribe s w = Some w' ->
  subscribers w' = Store.delete s (subscribers w) /\
  trace w' = trace w /\ next_ref w' = next_ref w /\ value_of w' = value_of w.
Proof.
  unfold Store.unsubscribe.
  destruct (Nat.eqb (length (Store.delete s (subscribers w))) 0).
  - destruct (stop_truthy (stop w)); [ | discriminate].
    intros [= <-]. repeat split.
  - intros [= <-]. repeat split.
Qed.

Lemma unsubscribe_absent (s : subscriber) (w : world) :
  store_invariant w ->
  ~ In (sub_ref s) (map sub_ref (subscribers w)) ->
  Store.unsubscribe s w =
  match subscribers w with
  | [] => None
  | _ => Some w
  end.
Proof.
  intros [Hq Hstop Hnd Hfr] Hnin. unfold Store.unsubscribe.
  rewrite (delete_other s _ Hnin).
  destruct (subscribers w) as [|x l] eqn:E.
  - cbn [length Nat.eqb].
    destruct (stop_truthy (stop w)) eqn:Es; [ | reflexivity].
    exfalso. apply Hstop; reflexivity.
  - cbn [length Nat.eqb]. destruct w; cbn in *. rewrite E. reflexivity.
Qed.

(** X9: the function [subscribe] returns is not idempotent.  Called a
    second time, it does nothing while other subscribers are registered,
    and it throws when there is none, because [stop] is [null] by then. *)
Theorem unsubscribe_twice (w w1 : world) (s : subscriber) :
  reachable w ->
  In s (subscribers w) ->
  Store.unsubscribe s w = Some w1 ->
  Store.unsubscribe s w1 =
  match subscribers w1 with
  | [] => None
  | _ => Some w1
  end.
Proof.
  intros Hr Hin Hun.
  apply unsubscribe_absent.
  - apply reachable_invariant. eapply reach_unsubscribe; eassumption.
  - destruct (unsubscribe_fields _ _ _ Hun) as (Hsubs & _).
    rewrite Hsubs. apply delete_removes_ref.
Qed.

Definition sample_subscriber : subscriber :=
  {| sub_ref := 0; Store.run := 7; invalidate := 0 |}.

Definition sample_store_left : world :=
  {| value_of := VString (js "a"); stop := stop_null; subscribers := [];
     subscriber_queue := [];
     trace := [Ran sample_subscriber (VString (js "a"))];
     next_ref := 1 |}.

Lemma unsubscribe_twice_witness :
  Store.unsubscribe sample_subscriber sample_store = Some sample_store_left /\
  Store.unsubscribe sample_subscriber sample_store_left = None.
Proof.
  split; [reflexivity | ].
  refine (unsubscribe_twice sample_store sample_store_left sample_subscriber
            sample_store_reachable _ _).
  - left. reflexivity.
  - reflexivity.
Defined.

(** The states a program reaches from the state [w] by further calls on
    the store. *)
Inductive later (w : world) : world -> Prop :=
| later_now : later w w
| later_set (v : Store.value) (w' : world) : later w w' -> later w (Store.set v w')
| later_update (fn : Store.value -> Store.value) (w' : world) :
    later w w' -> later w (Store.update fn w')
| later_subscribe (run_fn invalidate_fn : nat) (w' : world) :
    later w w' -> later w (snd (Store.subscribe run_fn invalidate_fn w'))
| later_unsubscribe (s : subscriber) (w' w'' : world) :
    later w w' -> Store.unsubscribe s w' = Some w'' -> later w w''.

(** The subscriber a call of the store goes to. *)
Definition event_subscriber (e : event) : subscriber :=
  match e with
  | Invalidated s => s
  | Ran s _ => s
  end.

Lemma notifications_subscribers (subs : list subscriber) (v : Store.value) (e : event) :
  In e (notifications subs v) -> In (event_subscriber e) subs.
Proof.
  unfold notifications. intros Hin. apply in_app_or in Hin as [Hin|Hin];
    apply in_map_iff in Hin as (s & <- & Hs); exact Hs.
Qed.

Lemma later_silent (w w' : world) (ref : nat) :
  store_invariant w ->
  (ref < next_ref w)%nat ->
  ~ In ref (map sub_ref (subscribers w)) ->
  later w w' ->
  store_invariant w' /\
  (ref < next_ref w')%nat /\
  ~ In ref (map sub_ref (subscribers w')) /\
  exists t, trace w' = trace w ++ t /\
            Forall (fun e => sub_ref (event_subscriber e) <> ref) t.
Proof.
  intros Hinv Hlt Hnin Hl.
  assert (Hset : forall v w0,
    store_invariant w0 /\ (ref < next_ref w0)%nat /\
    ~ In ref (map sub_ref (subscribers w0)) /\
    (exists t, trace w0 = trace w ++ t /\
               Forall (fun e => sub_ref (event_subscriber e) <> ref) t) ->
    store_invariant (Store.set v w0) /\ (ref < next_ref (Store.set v w0))%nat /\
    ~ In ref (map sub_ref (subscribers (Store.set v w0))) /\
    (exists t, trace (Store.set v w0) = trace w ++ t /\
               Forall (fun e => sub_ref (event_subscriber e) <> ref) t)).
  { intros v w0 (Hi & Hl0 & Hn0 & t & Ht & Hall).
    destruct (set_fields v w0) as (_ & Hsubs & Hnext).
    destruct (set_trace v w0 Hi) as (_ & Htr & _).
    split; [apply set_invariant; exact Hi | ].
    rewrite Hsubs, Hnext. split; [exact Hl0 | split; [exact Hn0 | ]].
    exists (t ++ (if safe_not_equal (value_of w0) v
                  then notifications (subscribers w0) v else [])).
    split; [rewrite Htr, Ht, app_assoc; reflexivity | ].
    apply Forall_app. split; [exact Hall | ].
    destruct (safe_not_equal (value_of w0) v); [ | constructor].
    apply Forall_forall. intros e He E.
    apply notifications_subscribers in He.
    apply Hn0. rewrite <- E. apply in_map. exact He. }
  induction Hl as [|v w0 Hl IH|fn w0 Hl IH|r i w0 Hl IH|s w0 w1 Hl IH Hun].
  - split; [exact Hinv | split; [exact Hlt | split; [exact Hnin | ]]].
    exists []. split; [rewrite app_nil_r; reflexivity | constructor].
  - apply Hset. exact IH.
  - apply Hset. exact IH.
  - destruct IH as (Hi & Hl0 & Hn0 & t & Ht & Hall).
    split; [apply subscribe_invariant; exact Hi | ].
    cbn [Store.subscribe snd next_ref subscribers trace].
    split; [lia | split].
    + rewrite map_app. cbn [map sub_ref]. intros Hin.
      apply in_app_or in Hin as [Hin|[E|[]]]; [exact (Hn0 Hin) | lia].
    + exists (t ++ [Ran {| sub_ref := next_ref w0; Store.run := r; invalidate := i |}
                       (value_of w0)]).
      split; [rewrite Ht, app_assoc; reflexivity | ].
      apply Forall_app. split; [exact Hall | ].
      constructor; [ | constructor]. cbn [event_subscriber sub_ref]. lia.
  - destruct IH as (Hi & Hl0 & Hn0 & t & Ht & Hall).
    destruct (unsubscribe_fields _ _ _ Hun) as (Hsubs & Htr & Hnext & _).
    split; [eapply unsubscribe_invariant; eassumption | ].
    rewrite Hsubs, Htr, Hnext. split; [exact Hl0 | split].
    + intros Hin. apply Hn0. apply in_map_iff in Hin as (x & Hx & Hin).
      apply filter_In in Hin as (Hin & _). apply in_map_iff. exists x. auto.
    + exists t. auto.
Qed.

(** X10: for a store whose methods and unsubscribe functions are called
    from outside the subscribers' callbacks (the states [reachable] and
    [later] describe: no callback calls back into the store, so no
    notification is in progress when a call is made), once the function
    [subscribe] returned for a subscriber has been called, the store never
    calls that subscriber again, neither its [run] nor its [invalidate],
    whatever is set, updated, subscribed or unsubscribed afterwards.  In
    these states [subscriber_queue] is empty at every call.  An
    unsubscribe made by a callback while [set] is notifying is not
    covered. *)
Theorem no_call_after_unsubscribe (w w1 w2 : world) (s : subscriber) :
  reachable w ->
  In s (subscribers w) ->
  Store.unsubscribe s w = Some w1 ->
  later w1 w2 ->
  subscriber_queue w = [] /\
  subscriber_queue w2 = [] /\
  exists t, trace w2 = trace w ++ t /\
            Forall (fun e => sub_ref (event_subscriber e) <> sub_ref s) t.
Proof.
  intros Hr Hin Hun Hl.
  pose proof (reachable_invariant w Hr) as Hinv.
  destruct (unsubscribe_fields _ _ _ Hun) as (Hsubs & Htr & Hnext & _).
  assert (Hinv1 : store_invariant w1) by (eapply unsubscribe_invariant; eassumption).
  assert (Hlt : (sub_ref s < next_ref w1)%nat).
  { rewrite Hnext. destruct Hinv as [_ _ _ Hfr].
    rewrite Forall_forall in Hfr. apply Hfr. exact Hin. }
  assert (Hnin : ~ In (sub_ref s) (map sub_ref (subscribers w1))).
  { rewrite Hsubs. apply delete_removes_ref. }
  destruct (later_silent w1 w2 (sub_ref s) Hinv1 Hlt Hnin Hl)
    as (Hinv2 & _ & _ & t & Ht & Hall).
  split; [apply Hinv | ]. split; [apply Hinv2 | ].
  exists t. rewrite <- Htr. auto.
Qed.

Lemma no_call_after_unsubscribe_witness :
  subscriber_queue sample_store = [] /\
  subscriber_queue (Store.set (VString (js "b"))
                      (snd (Store.subscribe 8 0 sample_store_left))) = [] /\
  exists t,
    trace (Store.set (VString (js "b"))
             (snd (Store.subscribe 8 0 sample_store_left))) =
    trace sample_store ++ t /\
    Forall (fun e => sub_ref (event_subscriber e) <> sub_ref sample_subscriber) t.
Proof.
  refine (no_call_after_unsubscribe sample_store sample_store_left _ sample_subscriber
            sample_store_reachable _ _ _).
  - left. reflexivity.
  - reflexivity.
  - apply later_set, later_subscribe, later_now.
Defined.

(** ** What [escape] guarantees *)

Fixpoint starts_with (p s : jsstring) : bool :=
  match p, s with
  | [], _ => true
  | x :: p', y :: s' => N.eqb x y && starts_with p' s'
  | _ :: _, [] => false
  end.

(** What an HTML parser reads back from the three entities [escape]
    writes; [skip] code units are passed over first. *)
Fixpoint unescape_from (skip : nat) (s : jsstring) : jsstring :=
  match s with
  | [] => []
  | c :: s' =>
      match skip with
      | S k => unescape_from k s'
      | O =>
          if N.eqb c Ssr.AMP then
            if starts_with (js "amp;") s' then Ssr.AMP :: unescape_from 4 s'
            else if starts_with (js "quot;") s' then Ssr.QUOT :: unescape_from 5 s'
            else if starts_with (js "lt;") s' then Ssr.LT :: unescape_from 3 s'
            else c :: unescape_from 0 s'
          else c :: unescape_from 0 s'
      end
  end.

Definition unescape (s : jsstring) : jsstring := unescape_from 0 s.

Definition pattern_of (is_attr : bool) : Ssr.regex :=
  if is_attr then Ssr.ATTR_REGEX else Ssr.CONTENT_REGEX.

Lemma escape_some (Value : Type) (ToString : Value -> option jsstring)
  (value : Value) (is_attr : bool) (str : jsstring) :
  ToString value = Some str ->
  Ssr.escape Value ToString value is_attr =
  Some (flat_map (unit_of (pattern_of is_attr)) str).
Proof.
  intros E. unfold Ssr.escape. rewrite E.
  rewrite escape_loop_spec by reflexivity. reflexivity.
Qed.

Lemma unit_of_cases (is_attr : bool) (c : N) :
  (c = Ssr.AMP /\ unit_of (pattern_of is_attr) c = js "&amp;") \/
  (c = Ssr.QUOT /\ is_attr = true /\ unit_of (pattern_of is_attr) c = js "&quot;") \/
  (c = Ssr.LT /\ is_attr = false /\ unit_of (pattern_of is_attr) c = js "&lt;") \/
  (c <> Ssr.AMP /\ c <> (if is_attr then Ssr.QUOT else Ssr.LT) /\
   unit_of (pattern_of is_attr) c = [c]).
Proof.
  unfold unit_of, pattern_of, Ssr.regex_matches, Ssr.entity.
  destruct (N.eqb_spec c Ssr.AMP) as [->|Ha]; [left; destruct is_attr; auto | ].
  destruct is_attr; cbn [orb].
  - destruct (N.eqb_spec c Ssr.QUOT) as [->|Hq]; [right; left; auto | ].
    right; right; right. auto.
  - destruct (N.eqb_spec c Ssr.LT) as [->|Hl].
    + right; right; left. cbn. auto.
    + right; right; right. auto.
Qed.

Lemma escaped_has_no_delimiter (is_attr : bool) (str : jsstring) :
  ~ In (if is_attr then Ssr.QUOT else Ssr.LT) (flat_map (unit_of (pattern_of is_attr)) str).
Proof.
  induction str as [|c str IH]; [intros [] | ].
  cbn [flat_map]. intros Hin. apply in_app_or in Hin as [Hin|Hin]; [ | exact (IH Hin)].
  destruct (unit_of_cases is_attr c)
    as [(_ & E)|[(_ & _ & E)|[(_ & _ & E)|(_ & Hc & E)]]]; rewrite E in Hin.
  - destruct is_attr; cbn in Hin; repeat destruct Hin as [Hin|Hin]; try discriminate Hin; auto.
  - destruct is_attr; cbn in Hin; repeat destruct Hin as [Hin|Hin]; try discriminate Hin; auto.
  - destruct is_attr; cbn in Hin; repeat destruct Hin as [Hin|Hin]; try discriminate Hin; auto.
  - destruct Hin as [Hin|[]]. congruence.
Qed.

Lemma unescape_escaped (is_attr : bool) (str : jsstring) :
  unescape (flat_map (unit_of (pattern_of is_attr)) str) = str.
Proof.
  unfold unescape. induction str as [|c str IH]; [reflexivity | ].
  cbn [flat_map].
  destruct (unit_of_cases is_attr c)
    as [(-> & E)|[(-> & _ & E)|[(-> & _ & E)|(Ha & _ & E)]]]; rewrite E.
  - cbn. f_equal. exact IH.
  - cbn. f_equal. exact IH.
  - cbn. f_equal. exact IH.
  - cbn [app unescape_from].
    destruct (N.eqb_spec c Ssr.AMP) as [->|_]; [congruence | ].
    f_equal. exact IH.
Qed.

Lemma escaped_plain (r : Ssr.regex) (str : jsstring) :
  Forall (fun c => Ssr.regex_matches r c = false) str ->
  flat_map (unit_of r) str = str.
Proof.
  induction 1 as [|c str Hc _ IH]; [reflexivity | ].
  cbn [flat_map]. unfold unit_of at 1. rewrite Hc, IH. reflexivity.
Qed.

(** X11: whenever [String(value)] returns, [escape] returns too, and its
    result cannot end the context it is written into: in attribute mode it
    holds no double quote, in content mode no less-than sign.  Nothing is
    lost: reading the three entities back gives the original string, and a
    string without the characters of the pattern is returned as it is. *)
Theorem escape_safe_and_reversible (Value : Type) (ToString : Value -> option jsstring)
  (value : Value) (is_attr : bool) (str : jsstring) :
  ToString value = Some str ->
  exists out,
    Ssr.escape Value ToString value is_attr = Some out /\
    ~ In (if is_attr then Ssr.QUOT else Ssr.LT) out /\
    unescape out = str /\
    (Forall (fun c => Ssr.regex_matches (pattern_of is_attr) c = false) str ->
     out = str).
Proof.
  intros E. eexists. split; [apply escape_some; exact E | ].
  split; [apply escaped_has_no_delimiter | ].
  split; [apply unescape_escaped | apply escaped_plain].
Qed.

Lemma escape_safe_and_reversible_witness :
  exists out,
    Ssr.escape jsstring Some (js "say &quot; to <a & b>") true = Some out /\
    ~ In Ssr.QUOT out /\
    unescape out = js "say &quot; to <a & b>" /\
    (Forall (fun c => Ssr.regex_matches Ssr.ATTR_REGEX c = false)
            (js "say &quot; to <a & b>") ->
     out = js "say &quot; to <a & b>").
Proof.
  exact (escape_safe_and_reversible jsstring Some (js "say &quot; to <a & b>") true
           (js "say &quot; to <a & b>") eq_refl).
Defined.

(** ** The averages of [buildStats] *)

(** The goals the team scored and conceded in a played match, and whether
    it scored none. *)
Definition scored (m : StatsValues.score * bool) : Z :=
  let '(sc, home) := m in
  goalsScored (StatsValues.homeGoals sc) (StatsValues.awayGoals sc) home.

Definition conceded (m : StatsValues.score * bool) : Z :=
  let '(sc, home) := m in
  goalsConceded (StatsValues.homeGoals sc) (StatsValues.awayGoals sc) home.

Definition scored_none (m : StatsValues.score * bool) : bool :=
  let '(sc, home) := m in
  if home then StatsValues.homeGoals sc =? 0 else StatsValues.awayGoals sc =? 0.

Definition total {A} (f : A -> Z) (l : list A) : Z :=
  fold_right Z.add 0 (map f l).

Lemma total_app {A} (f : A -> Z) (l l' : list A) :
  total f (l ++ l') = total f l + total f l'.
Proof.
  unfold total. induction l as [|x l IH]; cbn [app map fold_right]; [reflexivity | ].
  rewrite IH. ring.
Qed.

Lemma notScored_scored_none (sc : StatsValues.score) (home : bool) :
  notScored (StatsValues.homeGoals sc) (StatsValues.awayGoals sc) home =
  scored_none (sc, home).
Proof.
  unfold notScored, scored_none.
  destruct home; cbn [negb]; rewrite ?andb_true_r, ?andb_false_r, ?orb_false_r;
    reflexivity.
Qed.

Lemma count_match_sums (sc : StatsValues.score) (home : bool) (e : team_stats) :
  noGoalRatio (count_match sc home e) =
    (if scored_none (sc, home) then noGoalRatio e + 1 else noGoalRatio e)%Q /\
  xG (count_match sc home e) = (xG e + inject_Z (scored (sc, home)))%Q /\
  xC (count_match sc home e) = (xC e + inject_Z (conceded (sc, home)))%Q.
Proof.
  unfold count_match. rewrite notScored_scored_none.
  destruct (isCleanSheet (StatsValues.homeGoals sc) (StatsValues.awayGoals sc) home);
    destruct (scored_none (sc, home)); repeat split; reflexivity.
Qed.

Lemma tally_sums (entries : list (jsstring * fixture)) (e : team_stats) :
  (noGoalRatio (tally entries e) ==
     noGoalRatio e
     + inject_Z (Z.of_nat (length (filter scored_none (plays (map snd entries))))))%Q /\
  (xG (tally entries e) == xG e + inject_Z (total scored (plays (map snd entries))))%Q /\
  (xC (tally entries e) == xC e + inject_Z (total conceded (plays (map snd entries))))%Q.
Proof.
  revert e. induction entries as [|[day m] rest IH]; intros e.
  - cbn. repeat split; ring.
  - cbn [tally map snd]. rewrite plays_cons.
    destruct (fx_score m) as [sc|] eqn:Esc; [ | apply IH].
    destruct (IH (count_match sc (atHome m) e)) as (Hn & Hg & Hc).
    destruct (count_match_sums sc (atHome m) e) as (Fn & Fg & Fc).
    rewrite Hn, Hg, Hc, Fn, Fg, Fc. clear Hn Hg Hc Fn Fg Fc IH.
    unfold total. cbn [filter map fold_right].
    fold (total scored (plays (map snd rest))).
    fold (total conceded (plays (map snd rest))).
    destruct (scored_none (sc, atHome m)); cbn [length];
      rewrite ?Nat2Z.inj_succ; unfold Z.succ; rewrite ?inject_Z_plus;
      repeat split; ring.
Qed.

(** The numbers of a team's entry once the two seasons are counted and
    divided by the played matches. *)
Lemma team_entry_averages (d : data) (team : jsstring) :
  let e := team_entry d team in
  let matches := played_matches d team in
  let n := Z.of_nat (length matches) in
  (StatsValues.played e == inject_Z n)%Q /\
  (0 < n ->
   (cleanSheetRatio e ==
      inject_Z (Z.of_nat (length (filter conceded_none matches))) / inject_Z n)%Q /\
   (xG e == inject_Z (total scored matches) / inject_Z n)%Q /\
   (xC e == inject_Z (total conceded matches) / inject_Z n)%Q /\
   (noGoalRatio e ==
      inject_Z (Z.of_nat (length (filter scored_none matches))) / inject_Z n)%Q) /\
  (n = 0 ->
   (cleanSheetRatio e == 0)%Q /\ (xG e == 0)%Q /\ (xC e == 0)%Q /\
   (noGoalRatio e == 0)%Q).
Proof.
  cbv zeta.
  rewrite played_matches_plays, !filter_app, !total_app, !length_app, !Nat2Z.inj_add.
  unfold team_entry.
  set (s1 := season_entries d team (_id d)).
  set (s2 := season_entries d team (_id d - 1)).
  destruct (tally_counts s1 zero_stats) as [Hk1 Hp1].
  destruct (tally_counts s2 (tally s1 zero_stats)) as [Hk2 Hp2].
  destruct (tally_sums s1 zero_stats) as (Hn1 & Hg1 & Hc1).
  destruct (tally_sums s2 (tally s1 zero_stats)) as (Hn2 & Hg2 & Hc2).
  rewrite Hp1 in Hp2. rewrite Hn1 in Hn2. rewrite Hg1 in Hg2. rewrite Hc1 in Hc2.
  rewrite Hk1 in Hk2.
  cbn [zero_stats StatsValues.played noGoalRatio xG xC cleanSheetRatio]
    in Hp2, Hn2, Hg2, Hc2, Hk2.
  set (n1 := Z.of_nat (length (plays (map snd s1)))) in *.
  set (n2 := Z.of_nat (length (plays (map snd s2)))) in *.
  set (z1 := Z.of_nat (length (filter scored_none (plays (map snd s1))))) in *.
  set (z2 := Z.of_nat (length (filter scored_none (plays (map snd s2))))) in *.
  set (k1 := Z.of_nat (length (filter conceded_none (plays (map snd s1))))) in *.
  set (k2 := Z.of_nat (length (filter conceded_none (plays (map snd s2))))) in *.
  set (g1 := total scored (plays (map snd s1))) in *.
  set (g2 := total scored (plays (map snd s2))) in *.
  set (c1 := total conceded (plays (map snd s1))) in *.
  set (c2 := total conceded (plays (map snd s2))) in *.
  set (t := tally s2 (tally s1 zero_stats)) in *.
  assert (Hp : (StatsValues.played t == inject_Z (n1 + n2))%Q)
    by (rewrite Hp2, inject_Z_plus; ring).
  assert (Hn : (noGoalRatio t == inject_Z (z1 + z2))%Q)
    by (rewrite Hn2, inject_Z_plus; ring).
  assert (Hk : (cleanSheetRatio t == inject_Z (k1 + k2))%Q)
    by (rewrite Hk2, inject_Z_plus; ring).
  assert (HG : (xG t == inject_Z (g1 + g2))%Q) by (rewrite Hg2, inject_Z_plus; ring).
  assert (HC : (xC t == inject_Z (c1 + c2))%Q) by (rewrite Hc2, inject_Z_plus; ring).
  assert (Hz1 : 0 <= z1 <= n1).
  { unfold z1, n1. pose proof (filter_length_le scored_none (plays (map snd s1))). lia. }
  assert (Hz2 : 0 <= z2 <= n2).
  { unfold z2, n2. pose proof (filter_length_le scored_none (plays (map snd s2))). lia. }
  assert (Hk1' : 0 <= k1 <= n1).
  { unfold k1, n1. pose proof (filter_length_le conceded_none (plays (map snd s1))). lia. }
  assert (Hk2' : 0 <= k2 <= n2).
  { unfold k2, n2. pose proof (filter_length_le conceded_none (plays (map snd s2))). lia. }
  assert (Hempty : n1 + n2 = 0 -> g1 + g2 = 0 /\ c1 + c2 = 0).
  { intros H0. unfold n1, n2, g1, g2, c1, c2 in *.
    destruct (plays (map snd s1)); [ | cbn [length] in H0; lia].
    destruct (plays (map snd s2)); [ | cbn [length] in H0; lia].
    split; reflexivity. }
  unfold divide_by_played.
  destruct (Qlt_le_dec 0 (StatsValues.played t)) as [Hpos|Hnpos];
    cbn [StatsValues.played noGoalRatio xG xC cleanSheetRatio].
  - split; [exact Hp | ]. split.
    + intros _. rewrite HG, HC, Hn, Hk, Hp. repeat split; reflexivity.
    + intros H0. rewrite Hp, H0 in Hpos. discriminate.
  - split; [exact Hp | ]. split.
    + intros Hlt. rewrite Hp in Hnpos.
      assert (inject_Z 0 < inject_Z (n1 + n2))%Q by (rewrite <- Zlt_Qlt; lia).
      exfalso. apply (Qlt_irrefl 0). eapply Qlt_le_trans; eauto.
    + intros H0. destruct (Hempty H0) as [Eg Ec].
      rewrite HG, HC, Hn, Hk, Eg, Ec. replace (z1 + z2) with 0 by lia.
      replace (k1 + k2) with 0 by lia.
      repeat split; reflexivity.
Qed.

Lemma absent_season_dec (d : data) (teams : list jsstring) :
  (forall t, In t teams -> has_seasons d t) \/
  (exists t, In t teams /\ ~ has_seasons d t).
Proof.
  induction teams as [|team rest IH]; [left; intros t [] | ].
  destruct (has_season_dec d team (_id d)) as [H1|H1];
    [destruct (has_season_dec d team (_id d - 1)) as [H2|H2] | ].
  - destruct IH as [IH|(t & Hin & Hn)].
    + left. intros t [<-|Hin]; [now split | now apply IH].
    + right. exists t. split; [now right | exact Hn].
  - right. exists team. split; [now left | ]. intros [_ H]. contradiction.
  - right. exists team. split; [now left | ]. intros [H _]. contradiction.
Qed.

(** X12: when every team of [data.standings] that has a form has the
    seasons [_id] and [_id - 1] in it, [buildStats] returns, and the entry
    of every team of [data.standings] averages over its played matches of
    those two seasons: [played] is their number, and when it is positive
    [xG] is the goals scored per match, [xC] the goals conceded per match
    and [noGoalRatio] the share of matches without a goal scored; with no
    played match the numbers are zero.  When a team of the standings has a
    form without one of the two seasons, [buildStats] throws. *)
Theorem buildStats_averages (d : data) :
  ((forall t, In t (standings d) -> has_seasons d t) ->
   exists stats,
     buildStats d = Some stats /\
     forall team, In team (standings d) ->
       exists e,
         get stats team = Some e /\
         let matches := played_matches d team in
         let n := Z.of_nat (length matches) in
         (StatsValues.played e == inject_Z n)%Q /\
         (0 < n ->
          (xG e == inject_Z (total scored matches) / inject_Z n)%Q /\
          (xC e == inject_Z (total conceded matches) / inject_Z n)%Q /\
          (noGoalRatio e ==
             inject_Z (Z.of_nat (length (filter scored_none matches))) / inject_Z n)%Q) /\
         (n = 0 -> (xG e == 0)%Q /\ (xC e == 0)%Q /\ (noGoalRatio e == 0)%Q)) /\
  ((exists t, In t (standings d) /\ ~ has_seasons d t) -> buildStats d = None).
Proof.
  split.
  - intros Hall. unfold buildStats.
    destruct (build_teams_spec d (standings d) [] Hall) as (stats & Hb & Hg & _).
    exists stats. split; [exact Hb | ]. intros team Hin.
    exists (team_entry d team). split; [now apply Hg | ].
    destruct (team_entry_averages d team) as (Hp & Hpos & Hzero).
    cbv zeta. split; [exact Hp | ]. split.
    + intros Hn. destruct (Hpos Hn) as (_ & Hg' & Hc' & Hn'). auto.
    + intros Hn. destruct (Hzero Hn) as (_ & Hg' & Hc' & Hn'). auto.
  - intros Hex. unfold buildStats. now apply build_teams_throws.
Qed.

Lemma buildStats_averages_witness :
  exists stats,
    buildStats sample_data = Some stats /\
    forall team, In team (standings sample_data) ->
      exists e,
        get stats team = Some e /\
        let matches := played_matches sample_data team in
        let n := Z.of_nat (length matches) in
        (StatsValues.played e == inject_Z n)%Q /\
        (0 < n ->
         (xG e == inject_Z (total scored matches) / inject_Z n)%Q /\
         (xC e == inject_Z (total conceded matches) / inject_Z n)%Q /\
         (noGoalRatio e ==
            inject_Z (Z.of_nat (length (filter scored_none matches))) / inject_Z n)%Q) /\
        (n = 0 -> (xG e == 0)%Q /\ (xC e == 0)%Q /\ (noGoalRatio e == 0)%Q).
Proof.
  exact (proj1 (buildStats_averages sample_data) sample_data_has_seasons).
Defined.

Example buildStats_averages_sample :
  option_map (fun stats =>
                option_map (fun e => (StatsValues.played e, xG e, xC e, noGoalRatio e))
                           (get stats (js "Arsenal")))
             (buildStats sample_data)
  = Some (Some (3, 6 / 3, 1 / 3, 0 / 3)%Q) /\
  buildStats first_season_data = None.
Proof. split; vm_compute; reflexivity. Qed.

(** ** The form of a team *)

Lemma clean_sheet_step_spec (n : Z) (m : fixture) :
  Form.clean_sheet_step n m =
  n + Z.of_nat (length (filter conceded_none (plays [m]))).
Proof.
  unfold Form.clean_sheet_step, plays. cbn [flat_map].
  destruct (fx_score m) as [sc|]; [ | cbn; lia].
  cbn [app filter conceded_none].
  destruct (atHome m); cbn [andb negb].
  - destruct (StatsValues.awayGoals sc =? 0); cbn [length]; lia.
  - destruct (StatsValues.homeGoals sc =? 0); cbn [length]; lia.
Qed.

Lemma plays_app (l l' : list fixture) : plays (l ++ l') = plays l ++ plays l'.
Proof. unfold plays. apply flat_map_app. Qed.

Lemma clean_sheet_fold (l : list fixture) (n : Z) :
  fold_left Form.clean_sheet_step l n =
  n + Z.of_nat (length (filter conceded_none (plays l))).
Proof.
  revert n. induction l as [|m l IH]; intros n; [cbn; lia | ].
  cbn [fold_left]. rewrite IH, clean_sheet_step_spec.
  change (m :: l) with ([m] ++ l).
  rewrite plays_app, filter_app, length_app. lia.
Qed.

Lemma formCleanSheets_count (d : data) (team : jsstring) (season : Z) :
  form d team <> None ->
  Form.formCleanSheets (form d) team season =
  Some (Z.of_nat (length (filter conceded_none
                            (plays (season_fixtures d team season))))).
Proof.
  intros Hform. unfold Form.formCleanSheets, season_fixtures.
  destruct (form d team) as [seasons|]; [ | congruence].
  rewrite clean_sheet_fold. reflexivity.
Qed.

(** X13: [formCleanSheets] counts the played matches of the season in
    which the team conceded no goal; it throws for a team without form and
    returns 0 for a season that the team's form does not have.  For a team
    of the standings with form, when [buildStats] returns (every team of
    the standings has both seasons), the counts [a] and [b] of the seasons
    [_id] and [_id - 1] are the numerator of its clean-sheet ratio: the
    ratio is [a + b] divided by the number of played matches when that is
    positive, and both are zero otherwise.  When the team's form lacks one
    of the two seasons [buildStats] throws, while [formCleanSheets] returns
    for both. *)
Theorem formCleanSheets_counts (d : data) (team : jsstring) :
  (form d team = None ->
   forall season, Form.formCleanSheets (form d) team season = None) /\
  (form d team <> None ->
   (forall season,
      Form.formCleanSheets (form d) team season =
      Some (Z.of_nat (length (filter conceded_none
                                (plays (season_fixtures d team season)))))) /\
   (forall season,
      ~ has_season d team season ->
      Form.formCleanSheets (form d) team season = Some 0) /\
   (In team (standings d) ->
    (forall t, In t (standings d) -> has_seasons d t) ->
    exists stats e a b,
      buildStats d = Some stats /\
      get stats team = Some e /\
      Form.formCleanSheets (form d) team (_id d) = Some a /\
      Form.formCleanSheets (form d) team (_id d - 1) = Some b /\
      let n := Z.of_nat (length (played_matches d team)) in
      0 <= a + b <= n /\
      (0 < n -> (cleanSheetRatio e == inject_Z (a + b) / inject_Z n)%Q) /\
      (n = 0 -> (cleanSheetRatio e == 0)%Q)) /\
   (In team (standings d) ->
    ~ has_seasons d team ->
    buildStats d = None /\
    exists a b,
      Form.formCleanSheets (form d) team (_id d) = Some a /\
      Form.formCleanSheets (form d) team (_id d - 1) = Some b)).
Proof.
  split.
  { intros E season. unfold Form.formCleanSheets. rewrite E. reflexivity. }
  intros Hform.
  pose proof (formCleanSheets_count d team) as Hcount.
  split; [intros season; now apply Hcount | ].
  split.
  { intros season Hs. rewrite Hcount by exact Hform.
    unfold season_fixtures, has_season in *.
    destruct (form d team) as [seasons|]; [ | congruence].
    destruct (seasons season); [exfalso; apply Hs; discriminate | reflexivity]. }
  split.
  - intros Hin Hall. unfold buildStats.
    destruct (build_teams_spec d (standings d) [] Hall) as (stats & Hb & Hg & _).
    exists stats, (team_entry d team). do 2 eexists.
    split; [exact Hb | ]. split; [now apply Hg | ].
    split; [now apply Hcount | ]. split; [now apply Hcount | ].
    destruct (team_entry_averages d team) as (Hp & Hpos & Hzero).
    cbv zeta in *.
    assert (E : Z.of_nat (length (filter conceded_none
                                    (plays (season_fixtures d team (_id d)))))
                + Z.of_nat (length (filter conceded_none
                                      (plays (season_fixtures d team (_id d - 1)))))
                = Z.of_nat (length (filter conceded_none (played_matches d team)))).
    { unfold played_matches. fold (plays (season_fixtures d team (_id d)
                                          ++ season_fixtures d team (_id d - 1))).
      rewrite plays_app, filter_app, length_app. lia. }
    rewrite E. split; [ | split].
    + pose proof (filter_length_le conceded_none (played_matches d team)). lia.
    + intros Hn. apply (Hpos Hn).
    + intros Hn. apply (Hzero Hn).
  - intros Hin Hn. split.
    + unfold buildStats. apply build_teams_throws. now exists team.
    + do 2 eexists. split; now apply Hcount.
Qed.

Lemma formCleanSheets_counts_witness :
  exists stats e a b,
    buildStats sample_data = Some stats /\
    get stats (js "Arsenal") = Some e /\
    Form.formCleanSheets (form sample_data) (js "Arsenal") (_id sample_data) = Some a /\
    Form.formCleanSheets (form sample_data) (js "Arsenal") (_id sample_data - 1) = Some b /\
    let n := Z.of_nat (length (played_matches sample_data (js "Arsenal"))) in
    0 <= a + b <= n /\
    (0 < n -> (cleanSheetRatio e == inject_Z (a + b) / inject_Z n)%Q) /\
    (n = 0 -> (cleanSheetRatio e == 0)%Q).
Proof.
  refine (proj1 (proj2 (proj2 (proj2 (formCleanSheets_counts sample_data (js "Arsenal")) _)))
                _ sample_data_has_seasons).
  - discriminate.
  - simpl. tauto.
Defined.

Example formCleanSheets_sample :
  Form.formCleanSheets (form first_season_data) (js "Arsenal") 2022 = Some 1 /\
  Form.formCleanSheets (form first_season_data) (js "Arsenal") 2021 = Some 0 /\
  Form.formCleanSheets (form first_season_data) (js "Fulham") 2022 = None.
Proof. repeat split. Qed.

(** The results of the played matches of a season, in order: [true] for a
    win. *)
Definition wins (l : list fixture) : list bool :=
  flat_map (fun m => match fx_score m with
                     | Some sc => [Form.won m sc]
                     | None => []
                     end) l.

(** The array holds [k] wins in a row somewhere. *)
Definition has_run (p : list bool) (k : Z) : Prop :=
  exists l1 l2, p = l1 ++ repeat true (Z.to_nat k) ++ l2.

(** The invariant of the loop of [formWinStreak] once the results [p]
    have been seen. *)
Record streak_invariant (p : list bool) (winStreak tempWinStreak : Z) : Prop := {
  si_bounds : 0 <= tempWinStreak <= winStreak;
  si_tail : exists q, p = q ++ repeat true (Z.to_nat tempWinStreak) /\
                      (q = [] \/ exists q', q = q' ++ [false]);
  si_run : has_run p winStreak;
  si_max : forall k, 0 <= k -> has_run p k -> k <= winStreak
}.

Lemma run_snoc (l1 l2 p : list bool) (n : nat) (b : bool) :
  l1 ++ repeat true n ++ l2 = p ++ [b] ->
  l2 = [] \/ exists l2', l2 = l2' ++ [b] /\ p = l1 ++ repeat true n ++ l2'.
Proof.
  intros E. destruct l2 as [|x l2 _] using rev_ind; [left; reflexivity | right].
  rewrite !app_assoc in E. apply app_inj_tail in E as [E ->].
  exists l2. split; [reflexivity | ]. rewrite <- E, <- app_assoc. reflexivity.
Qed.

Lemma trailing_run_le (l1 q : list bool) (n m : nat) :
  l1 ++ repeat true n = q ++ repeat true m ->
  (q = [] \/ exists q', q = q' ++ [false]) ->
  (n <= m)%nat.
Proof.
  intros E Hq. apply (f_equal (@rev bool)) in E.
  rewrite !rev_app_distr, !rev_repeat in E.
  destruct (le_lt_dec n m) as [Hle|Hlt]; [exact Hle | exfalso].
  assert (Hl : nth_error (repeat true n ++ rev l1) m = Some true).
  { rewrite nth_error_app1 by (rewrite repeat_length; lia).
    apply nth_error_repeat. lia. }
  rewrite E in Hl. rewrite nth_error_app2 in Hl by (rewrite repeat_length; lia).
  rewrite repeat_length, Nat.sub_diag in Hl.
  destruct Hq as [->|(q' & ->)]; [discriminate Hl | ].
  rewrite rev_app_distr in Hl. discriminate Hl.
Qed.

Definition bool_streak_step (st : Z * Z) (b : bool) : Z * Z :=
  let '(winStreak, tempWinStreak) := st in
  if b then
    if tempWinStreak + 1 >? winStreak then (tempWinStreak + 1, tempWinStreak + 1)
    else (winStreak, tempWinStreak + 1)
  else (winStreak, 0).

Lemma win_streak_fold (l : list fixture) (st : Z * Z) :
  fold_left Form.win_streak_step l st = fold_left bool_streak_step (wins l) st.
Proof.
  revert st. induction l as [|m l IH]; intros st; [reflexivity | ].
  cbn [fold_left]. rewrite IH. unfold wins at 2. cbn [flat_map].
  fold (wins l). unfold Form.win_streak_step. destruct st as [ws ts].
  destruct (fx_score m) as [sc|]; [ | reflexivity].
  cbn [app fold_left bool_streak_step].
  destruct (Form.won m sc); reflexivity.
Qed.

Lemma streak_step_invariant (p : list bool) (ws ts : Z) (b : bool) :
  streak_invariant p ws ts ->
  streak_invariant (p ++ [b]) (fst (bool_streak_step (ws, ts) b))
                   (snd (bool_streak_step (ws, ts) b)).
Proof.
  intros [Hb (q & Hp & Hq) (r1 & r2 & Hrun) Hmax].
  destruct b; cbn [bool_streak_step].
  - assert (Htail : p ++ [true] = q ++ repeat true (Z.to_nat (ts + 1))).
    { rewrite Hp, <- app_assoc. f_equal.
      replace (Z.to_nat (ts + 1)) with (S (Z.to_nat ts)) by lia.
      rewrite <- repeat_cons. reflexivity. }
    assert (Hmax' : forall k, 0 <= k -> has_run (p ++ [true]) k ->
                              k <= Z.max ws (ts + 1)).
    { intros k Hk (l1 & l2 & E). symmetry in E.
      destruct (run_snoc _ _ _ _ _ E) as [->|(l2' & -> & E')].
      - rewrite app_nil_r in E. rewrite Htail in E.
        pose proof (trailing_run_le _ _ _ _ E Hq). lia.
      - assert (k <= ws) by (apply Hmax; [exact Hk | exists l1, l2'; exact E']). lia. }
    destruct (ts + 1 >? ws) eqn:Egt; cbn [fst snd].
    + apply Z.gtb_lt in Egt. constructor.
      * lia.
      * exists q. auto.
      * exists q, []. rewrite app_nil_r. exact Htail.
      * intros k Hk Hr. specialize (Hmax' k Hk Hr). lia.
    + assert (ts + 1 <= ws).
      { destruct (Z.gtb_spec (ts + 1) ws); [discriminate | lia]. }
      constructor.
      * lia.
      * exists q. auto.
      * exists r1, (r2 ++ [true]). rewrite Hrun, <- !app_assoc. reflexivity.
      * intros k Hk Hr. specialize (Hmax' k Hk Hr). lia.
  - cbn [fst snd]. constructor.
    + lia.
    + exists (p ++ [false]). split; [cbn; rewrite app_nil_r; reflexivity | ].
      right. exists p. reflexivity.
    + exists r1, (r2 ++ [false]). rewrite Hrun, <- !app_assoc. reflexivity.
    + intros k Hk (l1 & l2 & E). symmetry in E.
      destruct (run_snoc _ _ _ _ _ E) as [->|(l2' & -> & E')].
      * rewrite app_nil_r in E.
        destruct (Z.to_nat k) as [|n] eqn:En; [lia | exfalso].
        cbn [repeat] in E. rewrite repeat_cons, app_assoc in E.
        apply app_inj_tail in E as [_ E]. discriminate E.
      * apply Hmax; [exact Hk | exists l1, l2'; exact E'].
Qed.

Lemma streak_fold_invariant (bs p : list bool) (ws ts : Z) :
  streak_invariant p ws ts ->
  streak_invariant (p ++ bs) (fst (fold_left bool_streak_step bs (ws, ts)))
                   (snd (fold_left bool_streak_step bs (ws, ts))).
Proof.
  revert p ws ts. induction bs as [|b bs IH]; intros p ws ts Hinv.
  - rewrite app_nil_r. exact Hinv.
  - cbn [fold_left].
    replace (p ++ b :: bs) with ((p ++ [b]) ++ bs) by (rewrite <- app_assoc; reflexivity).
    pose proof (streak_step_invariant p ws ts b Hinv) as Hstep.
    destruct (bool_streak_step (ws, ts) b) as [ws' ts']. apply IH. exact Hstep.
Qed.

(** X14: [formWinStreak] returns the length of the longest run of wins in
    a row among the played matches of the season, matches without a score
    being passed over: the results hold a run of that length and no longer
    one.  It throws for a team without form. *)
Theorem formWinStreak_longest_run (form : Form.form_of) (team : jsstring) (season : Z) :
  match form team with
  | None => Form.formWinStreak form team season = None
  | Some seasons =>
      exists r,
        Form.formWinStreak form team season = Some r /\
        0 <= r /\
        has_run (wins (map snd (entries (seasons season)))) r /\
        forall k, 0 <= k ->
                  has_run (wins (map snd (entries (seasons season)))) k -> k <= r
  end.
Proof.
  unfold Form.formWinStreak. destruct (form team) as [seasons|]; [ | reflexivity].
  eexists. split; [reflexivity | ].
  rewrite win_streak_fold.
  assert (H0 : streak_invariant [] 0 0).
  { constructor.
    - lia.
    - exists []. auto.
    - exists [], []. reflexivity.
    - intros k Hk (l1 & l2 & E).
      destruct (Z.to_nat k) as [|n] eqn:En; [lia | ].
      destruct l1; discriminate E. }
  pose proof (streak_fold_invariant (wins (map snd (entries (seasons season))))
                [] 0 0 H0) as Hinv.
  cbn [app] in Hinv. destruct Hinv as [Hb _ Hrun Hmax].
  split; [lia | split; assumption].
Qed.

(** The results of the played matches of a season, in order. *)
Definition results (l : list fixture) : list Form.result :=
  flat_map (fun m => match fx_score m with
                     | Some sc => [Form.result_of m sc]
                     | None => []
                     end) l.

(** The number of places where two results in a row are the same. *)
Definition repeats (rs : list Form.result) : Z :=
  Z.of_nat (length (filter (fun '(a, b) => Form.result_eqb a b) (combine rs (tl rs)))).

Lemma consistency_fold (l : list fixture) (n : Z) (prev : Form.result) :
  fst (fold_left Form.consistency_step l (n, Some prev)) =
  n + repeats (prev :: results l).
Proof.
  revert n prev. induction l as [|m l IH]; intros n prev.
  - cbn. lia.
  - cbn [fold_left]. unfold Form.consistency_step at 2. unfold results. cbn [flat_map].
    fold (results l).
    destruct (fx_score m) as [sc|]; [ | apply IH].
    rewrite IH. unfold repeats. cbn [app tl combine filter].
    destruct (Form.result_eqb prev (Form.result_of m sc)); cbn [length]; lia.
Qed.

Lemma consistency_fold_start (l : list fixture) :
  fst (fold_left Form.consistency_step l (0, None)) = repeats (results l).
Proof.
  induction l as [|m l IH]; [reflexivity | ].
  cbn [fold_left]. unfold Form.consistency_step at 2. unfold results. cbn [flat_map].
  fold (results l).
  destruct (fx_score m) as [sc|]; [ | exact IH].
  rewrite consistency_fold. cbn [app]. lia.
Qed.

(** X15: [formConsistency] returns the number of places where two played
    matches in a row of the season, matches without a score passed over,
    have the same result (win, loss or draw); this is less than the number
    of played matches unless there is none.  It throws for a team without
    form. *)
Theorem formConsistency_counts_repeats (form : Form.form_of) (team : jsstring) (season : Z) :
  match form team with
  | None => Form.formConsistency form team season = None
  | Some seasons =>
      let rs := results (map snd (entries (seasons season))) in
      Form.formConsistency form team season = Some (repeats rs) /\
      0 <= repeats rs /\
      (rs <> [] -> repeats rs < Z.of_nat (length rs))
  end.
Proof.
  unfold Form.formConsistency. destruct (form team) as [seasons|]; [ | reflexivity].
  cbn zeta. rewrite consistency_fold_start.
  split; [reflexivity | ]. unfold repeats. split; [lia | ].
  intros Hne.
  pose proof (filter_length_le (fun '(a, b) => Form.result_eqb a b)
                (combine (results (map snd (entries (seasons season))))
                         (tl (results (map snd (entries (seasons season))))))) as Hle.
  rewrite length_combine in Hle.
  destruct (results (map snd (entries (seasons season)))) as [|x rs]; [congruence | ].
  cbn [tl length] in *. lia.
Qed.

(** X16: [removeItem] removes the first element equal to the value and
    nothing else: later copies stay, the order is kept, and an array that
    does not hold the value is returned unchanged. *)
Theorem removeItem_first_occurrence (arr : list jsstring) (value : jsstring) :
  Form.removeItem arr value = remove_first jsstring_eqb value arr /\
  (~ In value arr -> Form.removeItem arr value = arr) /\
  (forall l1 l2, arr = l1 ++ value :: l2 -> ~ In value l1 ->
                 Form.removeItem arr value = l1 ++ l2).
Proof.
  assert (E : Form.removeItem arr value = remove_first jsstring_eqb value arr).
  { unfold Form.removeItem.
    destruct (in_dec (list_eq_dec N.eq_dec) value arr) as [Hin|Hnin].
    - pose proof (arr_indexOf_present jsstring_eqb jsstring_eqb_spec arr value Hin) as H0.
      destruct (Z.gtb_spec (Arr.indexOf jsstring_eqb arr value) (-1)); [ | lia].
      apply splice_indexOf_present; [exact jsstring_eqb_spec | exact Hin].
    - rewrite (arr_indexOf_absent jsstring_eqb jsstring_eqb_spec arr value Hnin).
      cbn. symmetry. apply remove_first_absent; [exact jsstring_eqb_spec | exact Hnin]. }
  split; [exact E | split].
  - intros Hnin. rewrite E.
    apply remove_first_absent; [exact jsstring_eqb_spec | exact Hnin].
  - intros l1 l2 -> Hnin. rewrite E. clear E.
    induction l1 as [|x l1 IH]; cbn [app remove_first].
    + rewrite jsstring_eqb_refl. reflexivity.
    + destruct (jsstring_eqb x value) eqn:Ex.
      * exfalso. apply Hnin. left. apply jsstring_eqb_spec. exact Ex.
      * rewrite IH; [reflexivity | ]. intros Hin. apply Hnin. right. exact Hin.
Qed.

Lemma removeItem_first_occurrence_witness :
  Form.removeItem [js "Arsenal"; js "Chelsea"; js "Arsenal"] (js "Arsenal") =
  [js "Chelsea"; js "Arsenal"] /\
  Form.removeItem [js "Arsenal"; js "Chelsea"] (js "Fulham") =
  [js "Arsenal"; js "Chelsea"].
Proof.
  split.
  - refine (proj2 (proj2 (removeItem_first_occurrence
              [js "Arsenal"; js "Chelsea"; js "Arsenal"] (js "Arsenal")))
              [] [js "Chelsea"; js "Arsenal"] eq_refl _).
    intros [].
  - refine (proj1 (proj2 (removeItem_first_occurrence
              [js "Arsenal"; js "Chelsea"] (js "Fulham"))) _).
    intros [H|[H|[]]]; discriminate H.
Defined.

Lemma current_from_played (entries : list (jsstring * fixture)) :
  Form.current_from entries =
  hd_error (flat_map (fun '(matchday, m) =>
                        match fx_score m with
                        | Some _ => [matchday]
                        | None => []
                        end) entries).
Proof.
  induction entries as [|[k m] entries IH]; [reflexivity | ].
  cbn [Form.current_from flat_map].
  destruct (fx_score m); [reflexivity | exact IH].
Qed.

Lemma flat_map_rev_short {A B} (f : A -> list B) (l : list A) :
  (forall x, (length (f x) <= 1)%nat) ->
  flat_map f (rev l) = rev (flat_map f l).
Proof.
  intros Hf. induction l as [|x l IH]; [reflexivity | ].
  cbn [rev flat_map]. rewrite flat_map_app, IH, rev_app_distr.
  cbn [flat_map]. rewrite app_nil_r. f_equal.
  specialize (Hf x). destruct (f x) as [|y [|z t]]; cbn in *; [reflexivity | reflexivity | lia].
Qed.

(** X17: when the team's form has the season [_id], [currentMatchday] and
    [playedMatchdays] agree: the current matchday is the last of the
    played matchdays, and [null] exactly when no matchday of the season has
    a score.  When the form lacks the season, [playedMatchdays] returns an
    empty array and [currentMatchday] throws; both throw for a team without
    form. *)
Theorem currentMatchday_last_played (d : data) (team : jsstring) :
  match form d team with
  | None =>
      Form.playedMatchdays d team = None /\ Form.currentMatchday d team = None
  | Some seasons =>
      match seasons (_id d) with
      | None =>
          Form.playedMatchdays d team = Some [] /\
          Form.currentMatchday d team = None
      | Some _ =>
          exists played,
            Form.playedMatchdays d team = Some played /\
            Form.currentMatchday d team = Some (hd_error (rev played)) /\
            (Form.currentMatchday d team = Some None <-> played = [])
      end
  end.
Proof.
  unfold Form.currentMatchday, Form.playedMatchdays.
  destruct (form d team) as [seasons|]; [ | split; reflexivity].
  destruct (seasons (_id d)) as [season|]; [ | split; reflexivity].
  cbn [entries]. eexists. split; [reflexivity | ].
  assert (E : Form.current_from (rev season) =
              hd_error (rev (flat_map (fun '(matchday, m) =>
                                         match fx_score m with
                                         | Some _ => [matchday]
                                         | None => []
                                         end) season))).
  { rewrite current_from_played. f_equal.
    apply flat_map_rev_short. intros [k m]. destruct (fx_score m); cbn; lia. }
  rewrite E. split; [reflexivity | ].
  set (played := flat_map _ season). split.
  - intros H. injection H as H.
    destruct played as [|x l] using rev_ind; [reflexivity | ].
    rewrite rev_app_distr in H. discriminate H.
  - intros ->. reflexivity.
Qed.

Example currentMatchday_sample :
  Form.currentMatchday sample_data (js "Arsenal") = Some (Some (js "2")) /\
  Form.playedMatchdays sample_data (js "Arsenal") = Some [js "1"; js "2"] /\
  Form.currentMatchday {| _id := 2021; standings := [];
                          form := form first_season_data |} (js "Arsenal") = None /\
  Form.playedMatchdays {| _id := 2021; standings := [];
                          form := form first_season_data |} (js "Arsenal") = Some [].
Proof. repeat split. Qed.

(** A matchday of the season that has a score. *)
Definition is_played (season : object fixture) (matchday : jsstring) : bool :=
  match get season matchday with
  | Some m => match fx_score m with Some _ => true | None => false end
  | None => false
  end.

Lemma latest_from_spec (season : object fixture) (rev_matchdays : list jsstring)
  (N : Z) (latestN : list jsstring) :
  Forall (fun k => get season k <> None) rev_matchdays ->
  Z.of_nat (length latestN) < N ->
  Form.latest_from (Some season) rev_matchdays N latestN =
  Some (latestN ++ firstn (Z.to_nat N - length latestN)
                          (filter (is_played season) rev_matchdays)).
Proof.
  intros Hkeys. revert latestN.
  induction Hkeys as [|k rest Hk Hkeys IH]; intros latestN Hlt.
  - cbn. rewrite firstn_nil, app_nil_r. reflexivity.
  - cbn [Form.latest_from filter]. unfold is_played at 1.
    destruct (get season k) as [m|]; [ | congruence].
    destruct (fx_score m) as [sc|].
    + rewrite length_app. cbn [length].
      destruct (Z.geb_spec (Z.of_nat (length latestN + 1)) N) as [Hge|Hlt'].
      * replace (Z.to_nat N - length latestN)%nat with 1%nat by lia.
        cbn [firstn]. reflexivity.
      * rewrite IH by (rewrite length_app; cbn [length]; lia).
        rewrite length_app. cbn [length].
        replace (Z.to_nat N - length latestN)%nat
          with (S (Z.to_nat N - (length latestN + 1)))%nat by lia.
        cbn [firstn]. rewrite <- app_assoc. reflexivity.
    + destruct (Z.geb_spec (Z.of_nat (length latestN)) N) as [Hge|_]; [lia | ].
      apply IH. exact Hlt.
Qed.

(** X18: given matchdays that are keys of the season,
    [latestNPlayedMatchdays] with [N >= 1] returns the last [N] played
    ones, the latest first, or all of them when there are fewer.  With
    [N <= 0] it does not return an empty array: it looks at the last
    matchday only and returns it if it is played.  With no matchdays it
    returns an empty array, also for a team without form. *)
Theorem latestNPlayedMatchdays_spec (d : data) (team : jsstring)
  (seasons : Z -> option (object fixture)) (matchdays : list jsstring) (N : Z) :
  form d team = Some seasons ->
  Forall (fun k => get (entries (seasons (_id d))) k <> None) matchdays ->
  (1 <= N ->
   Form.latestNPlayedMatchdays d team matchdays N =
   Some (firstn (Z.to_nat N)
                (rev (filter (is_played (entries (seasons (_id d)))) matchdays)))) /\
  (N <= 0 ->
   Form.latestNPlayedMatchdays d team matchdays N =
   Some (match rev matchdays with
         | [] => []
         | k :: _ => if is_played (entries (seasons (_id d))) k then [k] else []
         end)) /\
  (forall team' N', Form.latestNPlayedMatchdays d team' [] N' = Some []).
Proof.
  intros Hform Hkeys. unfold Form.latestNPlayedMatchdays.
  split; [ | split]; [ | | intros team' N'; reflexivity];
    intros HN; rewrite Hform; destruct (seasons (_id d)) as [season|]; cbn [entries] in *.
  - rewrite latest_from_spec.
    + cbn [app length]. rewrite Nat.sub_0_r, filter_rev. reflexivity.
    + apply Forall_rev. exact Hkeys.
    + cbn [length]. lia.
  - destruct Hkeys as [|k rest Hk _]; [ | cbn in Hk; congruence].
    cbn. rewrite firstn_nil. reflexivity.
  - apply Forall_rev in Hkeys.
    destruct (rev matchdays) as [|k rest]; [reflexivity | ].
    cbn [Form.latest_from]. unfold is_played.
    inversion Hkeys as [|? ? Hk _]; subst.
    destruct (get season k) as [m|]; [ | congruence].
    destruct (fx_score m).
    + cbn [app length].
      destruct (Z.geb_spec (Z.of_nat 1) N); [reflexivity | lia].
    + cbn [length].
      destruct (Z.geb_spec (Z.of_nat 0) N); [reflexivity | lia].
  - destruct Hkeys as [|k rest Hk _]; [ | cbn in Hk; congruence].
    reflexivity.
Qed.

Lemma latestNPlayedMatchdays_spec_witness :
  Form.latestNPlayedMatchdays sample_data (js "Arsenal")
    [js "1"; js "2"; js "3"] 5 =
  Some [js "2"; js "1"] /\
  Form.latestNPlayedMatchdays sample_data (js "Arsenal")
    [js "1"; js "2"; js "3"] 0 =
  Some [].
Proof.
  pose (seasons := fun season : Z =>
    if season =? 2022 then
      Some
      [ (js "1", {| fx_score := Some {| StatsValues.homeGoals := 2;
                                        StatsValues.awayGoals := 0 |};
                    atHome := true |});
        (js "2", {| fx_score := Some {| StatsValues.homeGoals := 1;
                                        StatsValues.awayGoals := 1 |};
                    atHome := false |});
        (js "3", {| fx_score := None; atHome := true |}) ]
    else if season =? 2021 then
      Some
      [ (js "38", {| fx_score := Some {| StatsValues.homeGoals := 0;
                                         StatsValues.awayGoals := 3 |};
                     atHome := false |}) ]
    else None).
  assert (Hform : form sample_data (js "Arsenal") = Some seasons) by reflexivity.
  assert (Hkeys : Forall (fun k => get (entries (seasons (_id sample_data))) k <> None)
                         [js "1"; js "2"; js "3"]).
  { repeat constructor; discriminate. }
  destruct (latestNPlayedMatchdays_spec sample_data (js "Arsenal") seasons
              [js "1"; js "2"; js "3"] 5 Hform Hkeys) as (H5 & _ & _).
  destruct (latestNPlayedMatchdays_spec sample_data (js "Arsenal") seasons
              [js "1"; js "2"; js "3"] 0 Hform Hkeys) as (_ & H0 & _).
  split.
  - exact (H5 ltac:(lia)).
  - exact (H0 ltac:(lia)).
Defined.

(** ** Goal frequencies *)

Lemma lookup_store (o : GoalsPerGame.goal_freq) (k v k' : Z) :
  GoalsPerGame.lookup (GoalsPerGame.store o k v) k' =
  if k =? k' then Some v else GoalsPerGame.lookup o k'.
Proof.
  induction o as [|[k0 v0] o IH]; cbn [GoalsPerGame.store GoalsPerGame.lookup].
  - reflexivity.
  - destruct (Z.eqb_spec k0 k) as [->|Hne]; cbn [GoalsPerGame.lookup].
    + destruct (Z.eqb_spec k k'); reflexivity.
    + rewrite IH. destruct (Z.eqb_spec k0 k') as [->|Hne'].
      * destruct (Z.eqb_spec k k'); [congruence | reflexivity].
      * reflexivity.
Qed.

Lemma lookup_count_goals (o : GoalsPerGame.goal_freq) (goals k : Z) :
  GoalsPerGame.lookup (GoalsPerGame.count_goals o goals) k =
  if goals =? k
  then Some (match GoalsPerGame.lookup o k with Some n => n + 1 | None => 1 end)
  else GoalsPerGame.lookup o k.
Proof.
  unfold GoalsPerGame.count_goals.
  destruct (Z.eqb_spec goals k) as [->|Hne].
  - destruct (GoalsPerGame.lookup o k); rewrite lookup_store, Z.eqb_refl; reflexivity.
  - destruct (GoalsPerGame.lookup o goals); rewrite lookup_store;
      destruct (Z.eqb_spec goals k); congruence.
Qed.

(** The number of played matches with [g] goals on the side [side]
    picks. *)
Definition times (side : StatsValues.score * bool -> Z) (g : Z)
  (matches : list (StatsValues.score * bool)) : Z :=
  Z.of_nat (length (filter (fun m => side m =? g) matches)).

(** The largest number of goals on that side in a match, 0 without a
    match. *)
Definition most (side : StatsValues.score * bool -> Z)
  (matches : list (StatsValues.score * bool)) : Z :=
  fold_right Z.max 0 (map side matches).

Section Counting.

Variable side : StatsValues.score * bool -> Z.

Definition count_side_match (goalFreq : GoalsPerGame.goal_freq) (m : fixture)
  : GoalsPerGame.goal_freq :=
  match fx_score m with
  | Some sc => GoalsPerGame.count_goals goalFreq (side (sc, atHome m))
  | None => goalFreq
  end.

Lemma times_nonneg (g : Z) (matches : list (StatsValues.score * bool)) :
  0 <= times side g matches.
Proof. unfold times. lia. Qed.

Lemma times_app (g : Z) (l l' : list (StatsValues.score * bool)) :
  times side g (l ++ l') = times side g l + times side g l'.
Proof. unfold times. rewrite filter_app, length_app. lia. Qed.

Lemma times_single (g : Z) (x : StatsValues.score * bool) :
  times side g [x] = if side x =? g then 1 else 0.
Proof. unfold times. cbn [filter]. destruct (side x =? g); reflexivity. Qed.

Lemma lookup_counted (l : list fixture) (o : GoalsPerGame.goal_freq) (g : Z) :
  GoalsPerGame.lookup (fold_left count_side_match l o) g =
  if times side g (plays l) =? 0 then GoalsPerGame.lookup o g
  else Some (match GoalsPerGame.lookup o g with Some n => n | None => 0 end
             + times side g (plays l)).
Proof.
  revert o. induction l as [|m l IH]; intros o; [reflexivity | ].
  cbn [fold_left]. rewrite IH, plays_cons. unfold count_side_match.
  destruct (fx_score m) as [sc|]; [ | reflexivity].
  rewrite lookup_count_goals.
  change ((sc, atHome m) :: plays l) with ([(sc, atHome m)] ++ plays l).
  rewrite times_app, times_single.
  pose proof (times_nonneg g (plays l)) as Hn.
  set (t := times side g (plays l)) in *.
  destruct (Z.eqb_spec (side (sc, atHome m)) g) as [E|E].
  - destruct (Z.eqb_spec t 0) as [E0|E0].
    + rewrite E0. cbn. destruct (GoalsPerGame.lookup o g); f_equal; lia.
    + destruct (Z.eqb_spec (1 + t) 0); [lia | ].
      destruct (GoalsPerGame.lookup o g); f_equal; lia.
  - cbn [Z.add]. reflexivity.
Qed.

Lemma times_positive_iff (g : Z) (matches : list (StatsValues.score * bool)) :
  0 < times side g matches <-> In g (map side matches).
Proof.
  unfold times. induction matches as [|m matches IH]; cbn [filter map length In].
  - lia.
  - destruct (Z.eqb_spec (side m) g) as [E|E]; cbn [length].
    + split; [intros _; left; exact E | lia].
    + rewrite IH. split; [tauto | intros [H|H]; [contradiction | exact H]].
Qed.

Lemma most_spec (matches : list (StatsValues.score * bool)) :
  0 <= most side matches /\
  (forall g, In g (map side matches) -> g <= most side matches) /\
  (most side matches = 0 \/ In (most side matches) (map side matches)).
Proof.
  unfold most. induction matches as [|m matches (H0 & Hle & Hin)]; cbn [map fold_right In].
  - split; [lia | split; [intros g [] | left; reflexivity]].
  - split; [lia | split].
    + intros g [<-|Hg]; [lia | specialize (Hle g Hg); lia].
    + destruct (Z.max_spec (side m) (fold_right Z.max 0 (map side matches)))
        as [[_ ->]|[_ ->]]; [tauto | right; left; reflexivity].
Qed.

End Counting.

Lemma max_fold_right (g m : Z) (l : list Z) :
  fold_right Z.max (Z.max g m) l = Z.max g (fold_right Z.max m l).
Proof. induction l as [|x l IH]; cbn [fold_right]; lia. Qed.

Lemma maxObjKey_fold (o : GoalsPerGame.goal_freq) (m : Z) :
  fold_left (fun max '(g, _) => if g >? max then g else max) o m =
  fold_right Z.max m (map fst o).
Proof.
  revert m. induction o as [|[g v] o IH]; intros m; cbn [fold_left map fst fold_right].
  - reflexivity.
  - rewrite IH, <- max_fold_right. f_equal.
    destruct (Z.gtb_spec g m); lia.
Qed.

Lemma maxObjKey_spec (o : GoalsPerGame.goal_freq) :
  0 <= GoalsPerGame.maxObjKey o /\
  (forall k, GoalsPerGame.lookup o k <> None -> k <= GoalsPerGame.maxObjKey o) /\
  (GoalsPerGame.maxObjKey o = 0 \/
   GoalsPerGame.lookup o (GoalsPerGame.maxObjKey o) <> None).
Proof.
  unfold GoalsPerGame.maxObjKey. rewrite maxObjKey_fold.
  induction o as [|[g v] o (H0 & Hle & Hin)]; cbn [map fst fold_right GoalsPerGame.lookup].
  - split; [lia | split; [intros k H; congruence | left; reflexivity]].
  - set (M := fold_right Z.max 0 (map fst o)) in *.
    split; [lia | split].
    + intros k Hk. destruct (Z.eqb_spec g k) as [->|Hne]; [lia | ].
      specialize (Hle k Hk). lia.
    + destruct (Z_le_gt_dec g M) as [Hg|Hg].
      * replace (Z.max g M) with M by lia.
        destruct Hin as [Hin|Hin]; [left; exact Hin | right].
        destruct (Z.eqb_spec g M); [congruence | exact Hin].
      * replace (Z.max g M) with g by lia.
        right. rewrite Z.eqb_refl. congruence.
Qed.

Lemma lookup_fill_loop (indices : list Z) (o : GoalsPerGame.goal_freq) (k : Z) :
  GoalsPerGame.lookup
    (fold_left (fun goalFreq i =>
                  match GoalsPerGame.lookup goalFreq i with
                  | Some _ => goalFreq
                  | None => GoalsPerGame.store goalFreq i 0
                  end) indices o) k =
  match GoalsPerGame.lookup o k with
  | Some v => Some v
  | None => if in_dec Z.eq_dec k indices then Some 0 else None
  end.
Proof.
  revert o. induction indices as [|i indices IH]; intros o; cbn [fold_left].
  - destruct (GoalsPerGame.lookup o k); reflexivity.
  - rewrite IH. clear IH.
    destruct (GoalsPerGame.lookup o i) as [v|] eqn:Ei.
    + destruct (GoalsPerGame.lookup o k) as [w|] eqn:Ek; [reflexivity | ].
      destruct (in_dec Z.eq_dec k indices) as [H1|H1];
        destruct (in_dec Z.eq_dec k (i :: indices)) as [H2|H2]; try reflexivity.
      * exfalso. apply H2. right. exact H1.
      * destruct H2 as [->|H2]; [congruence | contradiction].
    + rewrite lookup_store.
      destruct (Z.eqb_spec i k) as [->|Hne].
      * rewrite Ei. destruct (in_dec Z.eq_dec k (k :: indices)) as [_|H2]; [reflexivity | ].
        exfalso. apply H2. left. reflexivity.
      * destruct (GoalsPerGame.lookup o k) as [w|]; [reflexivity | ].
        destruct (in_dec Z.eq_dec k indices) as [H1|H1];
          destruct (in_dec Z.eq_dec k (i :: indices)) as [H2|H2]; try reflexivity.
        -- exfalso. apply H2. right. exact H1.
        -- destruct H2 as [->|H2]; [congruence | contradiction].
Qed.

Lemma lookup_fillGoalFreqBlanks (o : GoalsPerGame.goal_freq) (k : Z) :
  GoalsPerGame.lookup (GoalsPerGame.fillGoalFreqBlanks o) k =
  match GoalsPerGame.lookup o k with
  | Some v => Some v
  | None => if (1 <=? k) && (k <? GoalsPerGame.maxObjKey o) then Some 0 else None
  end.
Proof.
  unfold GoalsPerGame.fillGoalFreqBlanks. cbn zeta. rewrite lookup_fill_loop.
  destruct (GoalsPerGame.lookup o k); [reflexivity | ].
  set (M := GoalsPerGame.maxObjKey o).
  destruct (in_dec Z.eq_dec k (map Z.of_nat (seq 1 (Z.to_nat M - 1)))) as [Hin|Hnin].
  - apply in_map_iff in Hin as (n & <- & Hn). apply in_seq in Hn.
    destruct (Z.leb_spec 1 (Z.of_nat n)); [ | lia].
    destruct (Z.ltb_spec (Z.of_nat n) M); [reflexivity | lia].
  - destruct (Z.leb_spec 1 k); [ | reflexivity].
    destruct (Z.ltb_spec k M); [ | reflexivity].
    exfalso. apply Hnin. apply in_map_iff. exists (Z.to_nat k).
    split; [lia | apply in_seq; lia].
Qed.

Lemma frequencies_lookup (side : StatsValues.score * bool -> Z)
  (l : list fixture) (g : Z) :
  GoalsPerGame.lookup
    (GoalsPerGame.fillGoalFreqBlanks (fold_left (count_side_match side) l [])) g =
  if 0 <? times side g (plays l) then Some (times side g (plays l))
  else if (1 <=? g) && (g <? most side (plays l)) then Some 0
  else None.
Proof.
  rewrite lookup_fillGoalFreqBlanks.
  set (o := fold_left (count_side_match side) l []).
  assert (Hlook : forall k, GoalsPerGame.lookup o k =
            if 0 <? times side k (plays l) then Some (times side k (plays l)) else None).
  { intros k. unfold o. rewrite lookup_counted. cbn [GoalsPerGame.lookup].
    pose proof (times_nonneg side k (plays l)).
    destruct (Z.eqb_spec (times side k (plays l)) 0) as [E|E];
      destruct (Z.ltb_spec 0 (times side k (plays l))); try lia; reflexivity. }
  assert (Hkeys : forall k, GoalsPerGame.lookup o k <> None <-> In k (map side (plays l))).
  { intros k. rewrite Hlook, <- times_positive_iff.
    destruct (Z.ltb_spec 0 (times side k (plays l))); split; intros; try congruence; lia. }
  assert (HM : GoalsPerGame.maxObjKey o = most side (plays l)).
  { destruct (maxObjKey_spec o) as (A0 & Ale & Ain).
    destruct (most_spec side (plays l)) as (B0 & Ble & Bin).
    apply Z.le_antisymm.
    - destruct Ain as [->|Ain]; [exact B0 | ]. apply Ble, Hkeys. exact Ain.
    - destruct Bin as [->|Bin]; [exact A0 | ]. apply Ale, Hkeys. exact Bin. }
  rewrite Hlook, HM.
  destruct (0 <? times side g (plays l)); reflexivity.
Qed.

Lemma fold_left_ext_in {A B} (f g : A -> B -> A) (l : list B) (a : A) :
  (forall x y, f x y = g x y) -> fold_left f l a = fold_left g l a.
Proof.
  intros H. revert a. induction l as [|y l IH]; intros a; [reflexivity | ].
  cbn [fold_left]. rewrite H. apply IH.
Qed.

Lemma count_scored_side (o : GoalsPerGame.goal_freq) (m : fixture) :
  GoalsPerGame.count_scored_match o m = count_side_match scored o m.
Proof.
  unfold GoalsPerGame.count_scored_match, count_side_match, scored, goalsScored.
  destruct (fx_score m); [ | reflexivity]. destruct (atHome m); reflexivity.
Qed.

Lemma count_conceded_side (o : GoalsPerGame.goal_freq) (m : fixture) :
  GoalsPerGame.count_conceded_match o m = count_side_match conceded o m.
Proof.
  unfold GoalsPerGame.count_conceded_match, count_side_match, conceded, goalsConceded.
  destruct (fx_score m); [ | reflexivity]. destruct (atHome m); reflexivity.
Qed.

Lemma teamScoredFrequencies_fold (d : data) (team : jsstring) :
  has_seasons d team ->
  GoalsPerGame.teamScoredFrequencies d team =
  Some (GoalsPerGame.fillGoalFreqBlanks
          (fold_left (count_side_match scored)
             (season_fixtures d team (_id d) ++ season_fixtures d team (_id d - 1)) [])).
Proof.
  unfold has_seasons, has_season, GoalsPerGame.teamScoredFrequencies,
    GoalsPerGame.countScored, season_fixtures.
  intros [H1 H2]. cbn zeta.
  destruct (form d team) as [seasons|]; [ | reflexivity].
  destruct (seasons (_id d)) as [s1|]; [ | congruence].
  destruct (seasons (_id d - 1)) as [s2|]; [ | congruence].
  cbn [entries]. rewrite fold_left_app.
  rewrite !(fold_left_ext_in _ _ _ _ count_scored_side). reflexivity.
Qed.

Lemma teamConcededFrequencies_fold (d : data) (team : jsstring) :
  has_seasons d team ->
  GoalsPerGame.teamConcededFrequencies d team =
  Some (GoalsPerGame.fillGoalFreqBlanks
          (fold_left (count_side_match conceded)
             (season_fixtures d team (_id d) ++ season_fixtures d team (_id d - 1)) [])).
Proof.
  unfold has_seasons, has_season, GoalsPerGame.teamConcededFrequencies,
    GoalsPerGame.countConceded, season_fixtures.
  intros [H1 H2]. cbn zeta.
  destruct (form d team) as [seasons|]; [ | reflexivity].
  destruct (seasons (_id d)) as [s1|]; [ | congruence].
  destruct (seasons (_id d - 1)) as [s2|]; [ | congruence].
  cbn [entries]. rewrite fold_left_app.
  rewrite !(fold_left_ext_in _ _ _ _ count_conceded_side). reflexivity.
Qed.

Lemma team_frequencies_throw (d : data) (team : jsstring) :
  ~ has_seasons d team ->
  GoalsPerGame.teamScoredFrequencies d team = None /\
  GoalsPerGame.teamConcededFrequencies d team = None.
Proof.
  unfold has_seasons, has_season, GoalsPerGame.teamScoredFrequencies,
    GoalsPerGame.teamConcededFrequencies, GoalsPerGame.countScored,
    GoalsPerGame.countConceded.
  intros Hn. cbn zeta.
  destruct (form d team) as [seasons|]; [ | tauto].
  destruct (seasons (_id d)) as [s1|]; [ | split; reflexivity].
  destruct (seasons (_id d - 1)) as [s2|]; [ | split; reflexivity].
  exfalso. apply Hn. split; discriminate.
Qed.

(** X19: when the team's form, if it has one, holds the seasons [_id] and
    [_id - 1], [teamScoredFrequencies] returns an object in which the key
    [g] holds the number of played matches of those seasons in which the
    team scored [g] goals when there is such a match; a [g] that never
    occurred holds 0 if it lies from 1 up to below the largest number of
    goals, and is not a key otherwise.  In particular the key 0 is never
    filled in: it is missing when the team scored in every match.
    [teamConcededFrequencies] is the same on the goals conceded.  When the
    team's form lacks one of the two seasons, both throw. *)
Theorem team_goal_frequencies (d : data) (team : jsstring) :
  (has_seasons d team ->
   exists scoredFreq concededFreq,
     GoalsPerGame.teamScoredFrequencies d team = Some scoredFreq /\
     GoalsPerGame.teamConcededFrequencies d team = Some concededFreq /\
     let matches := played_matches d team in
     (forall g,
        GoalsPerGame.lookup scoredFreq g =
          (if 0 <? times scored g matches then Some (times scored g matches)
           else if (1 <=? g) && (g <? most scored matches) then Some 0
           else None) /\
        GoalsPerGame.lookup concededFreq g =
          (if 0 <? times conceded g matches then Some (times conceded g matches)
           else if (1 <=? g) && (g <? most conceded matches) then Some 0
           else None)) /\
     (times scored 0 matches = 0 -> GoalsPerGame.lookup scoredFreq 0 = None)) /\
  (~ has_seasons d team ->
   GoalsPerGame.teamScoredFrequencies d team = None /\
   GoalsPerGame.teamConcededFrequencies d team = None).
Proof.
  split; [ | apply team_frequencies_throw].
  intros Hs. do 2 eexists.
  split; [apply teamScoredFrequencies_fold; exact Hs | ].
  split; [apply teamConcededFrequencies_fold; exact Hs | ].
  cbn zeta.
  assert (Hl : forall k,
    GoalsPerGame.lookup
      (GoalsPerGame.fillGoalFreqBlanks
         (fold_left (count_side_match scored)
            (season_fixtures d team (_id d) ++ season_fixtures d team (_id d - 1)) [])) k =
    (if 0 <? times scored k (played_matches d team)
     then Some (times scored k (played_matches d team))
     else if (1 <=? k) && (k <? most scored (played_matches d team)) then Some 0
     else None)).
  { intros k. rewrite frequencies_lookup. reflexivity. }
  split.
  - intros g. split; [apply Hl | ]. rewrite frequencies_lookup. reflexivity.
  - intros H0. rewrite Hl, H0. reflexivity.
Qed.

Lemma team_goal_frequencies_witness :
  exists scoredFreq concededFreq,
    GoalsPerGame.teamScoredFrequencies sample_data (js "Arsenal") = Some scoredFreq /\
    GoalsPerGame.teamConcededFrequencies sample_data (js "Arsenal") = Some concededFreq /\
    let matches := played_matches sample_data (js "Arsenal") in
    (forall g,
       GoalsPerGame.lookup scoredFreq g =
         (if 0 <? times scored g matches then Some (times scored g matches)
          else if (1 <=? g) && (g <? most scored matches) then Some 0
          else None) /\
       GoalsPerGame.lookup concededFreq g =
         (if 0 <? times conceded g matches then Some (times conceded g matches)
          else if (1 <=? g) && (g <? most conceded matches) then Some 0
          else None)) /\
    (times scored 0 matches = 0 -> GoalsPerGame.lookup scoredFreq 0 = None).
Proof.
  refine (proj1 (team_goal_frequencies sample_data (js "Arsenal")) _).
  apply sample_data_has_seasons. simpl. tauto.
Defined.

Example team_goal_frequencies_sample :
  option_map (fun o => map (GoalsPerGame.lookup o) [0; 1; 2; 3; 4])
             (GoalsPerGame.teamScoredFrequencies sample_data (js "Arsenal"))
  = Some [None; Some 1; Some 1; Some 1; None] /\
  GoalsPerGame.teamScoredFrequencies first_season_data (js "Arsenal") = None /\
  GoalsPerGame.teamConcededFrequencies first_season_data (js "Arsenal") = None.
Proof. repeat split. Qed.

(** ** The table snippet *)

Lemma tableSnippetRange_any (sortedTeams : list jsstring) (team : jsstring) :
  let n := Z.of_nat (length sortedTeams) in
  let low := fst (TableSnippet.tableSnippetRange sortedTeams team) in
  let high := snd (TableSnippet.tableSnippetRange sortedTeams team) in
  high - low = 7 /\ high <= n /\ (0 <= low <-> 7 <= n) /\
  (7 <= n -> TableSnippet.indexOf sortedTeams team = -1 -> low = 0 /\ high = 7) /\
  (7 <= n -> 0 <= TableSnippet.indexOf sortedTeams team ->
   low <= TableSnippet.indexOf sortedTeams team < high).
Proof.
  pose proof (indexOf_bounds sortedTeams team) as Hb.
  unfold TableSnippet.tableSnippetRange.
  set (i := TableSnippet.indexOf sortedTeams team) in *.
  cbv zeta.
  destruct (i - 3 <? 0) eqn:Elow.
  - apply Z.ltb_lt in Elow.
    destruct (i + 4 - (i - 3) >? Z.of_nat (length sortedTeams) - 1) eqn:Ehigh;
      [apply Z.gtb_lt in Ehigh | rewrite Z.gtb_ltb in Ehigh; apply Z.ltb_ge in Ehigh];
      cbn [fst snd]; lia.
  - apply Z.ltb_ge in Elow.
    destruct (i + 4 >? Z.of_nat (length sortedTeams) - 1) eqn:Ehigh;
      [apply Z.gtb_lt in Ehigh | rewrite Z.gtb_ltb in Ehigh; apply Z.ltb_ge in Ehigh];
      cbn [fst snd]; lia.
Qed.

Lemma index_in_range {A} (l : list A) (i : Z) :
  0 <= i < Z.of_nat (length l) -> exists x, index l i = Some x /\ In x l.
Proof.
  intros Hi. unfold index.
  destruct (Z.ltb_spec i 0); [lia | ].
  destruct (nth_error l (Z.to_nat i)) as [x|] eqn:E.
  - exists x. split; [reflexivity | eapply nth_error_In; eassumption].
  - apply nth_error_None in E. lia.
Qed.

Lemma index_negative {A} (l : list A) (i : Z) : i < 0 -> index l i = None.
Proof. intros Hi. unfold index. destruct (Z.ltb_spec i 0); [reflexivity | lia]. Qed.

Lemma index_cons {A} (y : A) (l : list A) (i : Z) :
  0 < i -> index (y :: l) i = index l (i - 1).
Proof.
  intros Hi. unfold index.
  destruct (Z.ltb_spec i 0); [lia | ]. destruct (Z.ltb_spec (i - 1) 0); [lia | ].
  replace (Z.to_nat i) with (S (Z.to_nat (i - 1))) by lia. reflexivity.
Qed.

Lemma index_is_indexOf (l : list jsstring) (team x : jsstring) (i : Z) :
  NoDup l -> index l i = Some x ->
  (jsstring_eqb x team = true <-> i = TableSnippet.indexOf l team).
Proof.
  intros Hnd. revert i. induction Hnd as [|y l Hy Hnd IH]; intros i Hi.
  - unfold index in Hi. destruct (i <? 0); [discriminate | ].
    destruct (Z.to_nat i); discriminate.
  - assert (H0 : 0 <= i).
    { unfold index in Hi. destruct (Z.ltb_spec i 0); [discriminate | lia]. }
    cbn [TableSnippet.indexOf].
    destruct (Z.eq_dec i 0) as [->|Hne].
    + cbn in Hi. injection Hi as ->.
      destruct (jsstring_eqb x team) eqn:E; [tauto | ].
      split; [discriminate | ].
      destruct (TableSnippet.indexOf l team <? 0) eqn:E'; [lia | ].
      apply Z.ltb_ge in E'. lia.
    + rewrite index_cons in Hi by lia.
      specialize (IH (i - 1) Hi).
      assert (Hin : In x l).
      { unfold index in Hi. destruct (i - 1 <? 0); [discriminate | ].
        eapply nth_error_In; eassumption. }
      destruct (jsstring_eqb y team) eqn:Ey.
      * apply jsstring_eqb_spec in Ey. subst y.
        split; [ | lia]. intros Ex. apply jsstring_eqb_spec in Ex. subst x. contradiction.
      * rewrite IH.
        destruct (TableSnippet.indexOf l team <? 0) eqn:E'; [apply Z.ltb_lt in E' | ]; lia.
Qed.

(** The row of a team of the standings. *)
Definition is_row_of (standings : object Snippet.standing) (name : jsstring)
  (r : Snippet.row) : Prop :=
  exists s, get standings name = Some s /\
            r = {| Snippet.row_name := Some name;
                   Snippet.row_position := Snippet.position s;
                   Snippet.row_points := Snippet.points s;
                   Snippet.row_gd := Snippet.gD s |}.

Lemma range_cons (low high : Z) :
  low < high -> Snippet.range low high = low :: Snippet.range (low + 1) high.
Proof.
  intros Hlt. unfold Snippet.range.
  replace (Z.to_nat (high - low)) with (S (Z.to_nat (high - (low + 1)))) by lia.
  cbn [seq map]. f_equal; [lia | ].
  rewrite <- seq_shift, map_map. apply map_ext. intros k. lia.
Qed.

Lemma range_nil (low high : Z) : high <= low -> Snippet.range low high = [].
Proof.
  intros Hle. unfold Snippet.range.
  replace (Z.to_nat (high - low)) with 0%nat by lia. reflexivity.
Qed.

Lemma add_rows_in_table (standings : object Snippet.standing)
  (sortedTeams : list jsstring) (team : jsstring) (L : Z) (m : nat) :
  NoDup sortedTeams ->
  (forall x, In x sortedTeams -> get standings x <> None) ->
  forall (start : Z) (idx : option Z) (acc : list Snippet.row),
    0 <= start -> start + Z.of_nat m <= Z.of_nat (length sortedTeams) ->
    exists rs,
      fold_left (Snippet.add_row standings sortedTeams team L)
                (Snippet.range start (start + Z.of_nat m)) (Some (idx, acc)) =
      Some ((if (start <=? TableSnippet.indexOf sortedTeams team)
                && (TableSnippet.indexOf sortedTeams team <? start + Z.of_nat m)
             then Some (TableSnippet.indexOf sortedTeams team - L) else idx),
            acc ++ rs) /\
      Forall2 (is_row_of standings)
              (firstn m (skipn (Z.to_nat start) sortedTeams)) rs.
Proof.
  intros Hnd Hkeys. induction m as [|m IH]; intros start idx acc H0 Hle.
  - rewrite range_nil by lia. cbn [fold_left]. exists []. split.
    + rewrite app_nil_r. f_equal. f_equal.
      destruct (Z.leb_spec start (TableSnippet.indexOf sortedTeams team));
        destruct (Z.ltb_spec (TableSnippet.indexOf sortedTeams team) (start + Z.of_nat 0));
        try reflexivity; lia.
    + cbn [firstn]. constructor.
  - rewrite range_cons by lia. cbn [fold_left].
    destruct (index_in_range sortedTeams start ltac:(lia)) as (x & Hx & Hin).
    unfold Snippet.add_row at 2. rewrite Hx.
    destruct (get standings x) as [s|] eqn:Hs; [ | exfalso; exact (Hkeys x Hin Hs)].
    replace (start + Z.of_nat (S m)) with ((start + 1) + Z.of_nat m) by lia.
    destruct (IH (start + 1)
                 (if jsstring_eqb x team then Some (start - L) else idx)
                 (acc ++ [{| Snippet.row_name := Some x;
                             Snippet.row_position := Snippet.position s;
                             Snippet.row_points := Snippet.points s;
                             Snippet.row_gd := Snippet.gD s |}])
                 ltac:(lia) ltac:(lia)) as (rs & Hfold & Hrows).
    exists ({| Snippet.row_name := Some x;
               Snippet.row_position := Snippet.position s;
               Snippet.row_points := Snippet.points s;
               Snippet.row_gd := Snippet.gD s |} :: rs).
    split.
    + rewrite Hfold, <- app_assoc. cbn [app]. f_equal. f_equal.
      pose proof (index_is_indexOf sortedTeams team x start Hnd Hx) as Hiff.
      set (i := TableSnippet.indexOf sortedTeams team) in *.
      destruct (jsstring_eqb x team) eqn:E.
      * assert (start = i) by (apply Hiff; reflexivity). subst start.
        destruct (Z.leb_spec (i + 1) i); [lia | ].
        destruct (Z.leb_spec i i); [ | lia].
        destruct (Z.ltb_spec i (i + 1 + Z.of_nat m)); [ | lia].
        cbn [andb]. reflexivity.
      * assert (start <> i) by (intros E'; apply Hiff in E'; congruence).
        destruct (Z.leb_spec (start + 1) i); destruct (Z.leb_spec start i);
          destruct (Z.ltb_spec i (start + 1 + Z.of_nat m)); cbn [andb];
          try reflexivity; lia.
    + assert (Hskip : skipn (Z.to_nat start) sortedTeams =
                      x :: skipn (Z.to_nat (start + 1)) sortedTeams).
      { unfold index in Hx. destruct (start <? 0); [discriminate | ].
        replace (Z.to_nat (start + 1)) with (S (Z.to_nat start)) by lia.
        clear - Hx. revert Hx. generalize (Z.to_nat start) as k.
        induction sortedTeams as [|y l IHl]; intros [|k] Hk; cbn in *; try discriminate.
        - injection Hk as ->. reflexivity.
        - apply IHl. exact Hk. }
      rewrite Hskip. cbn [firstn]. constructor; [ | exact Hrows].
      exists s. auto.
Qed.

Lemma sorted_teams_keys (standings : object Snippet.standing) :
  Permutation (map fst standings) (Snippet.sorted_teams standings).
Proof. unfold Snippet.sorted_teams. apply Permutation_map, sort_Permutation. Qed.

Lemma get_key_some {V} (o : object V) (k : jsstring) :
  In k (map fst o) -> get o k <> None.
Proof.
  induction o as [|[k' v] o IH]; cbn [map fst In get]; [tauto | ].
  intros [->|Hin].
  - rewrite jsstring_eqb_refl. discriminate.
  - destruct (jsstring_eqb k' k); [discriminate | exact (IH Hin)].
Qed.

Lemma get_key_none {V} (o : object V) (k : jsstring) :
  ~ In k (map fst o) -> get o k = None.
Proof.
  induction o as [|[k' v] o IH]; cbn [map fst In get]; [reflexivity | ].
  intros Hnin. destruct (jsstring_eqb k' k) eqn:E.
  - apply jsstring_eqb_spec in E. tauto.
  - apply IH. tauto.
Qed.

(** X20: with fewer than 7 teams in the standings (none of them called
    "undefined") [buildTableSnippet] throws: the range starts below 0.
    With 7 teams or more it returns 7 rows, those of 7 consecutive teams
    of the table sorted by position, from the lower bound of
    [tableSnippetRange] on, each with the numbers of its team; when the
    team is in the standings, [teamTableIdx] is the index of its row among
    the 7, and when it is not the rows are the first 7 of the table and
    [teamTableIdx] is left undefined. *)
Theorem buildTableSnippet_rows (standings : object Snippet.standing) (team : jsstring) :
  NoDup (map fst standings) ->
  let sortedTeams := Snippet.sorted_teams standings in
  let low := fst (TableSnippet.tableSnippetRange sortedTeams team) in
  let high := snd (TableSnippet.tableSnippetRange sortedTeams team) in
  ((length standings < 7)%nat -> ~ In (js "undefined") (map fst standings) ->
   Snippet.buildTableSnippet standings team = None) /\
  ((7 <= length standings)%nat ->
   exists rows,
     Snippet.buildTableSnippet standings team =
     Some {| Snippet.teamTableIdx :=
               if in_dec (list_eq_dec N.eq_dec) team (map fst standings)
               then Some (TableSnippet.indexOf sortedTeams team - low)
               else None;
             Snippet.rows := rows |} /\
     length rows = 7%nat /\
     Forall2 (is_row_of standings)
             (firstn 7 (skipn (Z.to_nat low) sortedTeams)) rows /\
     (In team (map fst standings) ->
      option_map Snippet.row_name
        (nth_error rows (Z.to_nat (TableSnippet.indexOf sortedTeams team - low))) =
      Some (Some team)) /\
     (~ In team (map fst standings) -> low = 0)).
Proof.
  intros Hnd. cbn zeta.
  pose proof (sorted_teams_keys standings) as Hperm.
  set (T := Snippet.sorted_teams standings) in *.
  assert (HndT : NoDup T) by (eapply Permutation_NoDup; eassumption).
  assert (Hlen : length T = length standings).
  { rewrite <- (Permutation_length Hperm). apply length_map. }
  destruct (tableSnippetRange_any T team) as (Hw & Hhigh & Hlow & Habsent & Hpresent).
  cbn zeta in Hw, Hhigh, Hlow, Habsent, Hpresent.
  unfold Snippet.buildTableSnippet. fold T.
  destruct (TableSnippet.tableSnippetRange T team) as [low high] eqn:Er.
  cbn [fst snd] in *.
  split.
  - intros Hlt Hundef.
    assert (Hneg : low < 0) by lia.
    rewrite range_cons by lia. cbn [fold_left].
    unfold Snippet.add_row at 2. rewrite index_negative by exact Hneg.
    rewrite (get_key_none standings (js "undefined") Hundef).
    assert (Hnone : forall l, fold_left (Snippet.add_row standings T team low) l None = None).
    { induction l; [reflexivity | exact IHl]. }
    rewrite Hnone. reflexivity.
  - intros Hge.
    assert (Hkeys : forall x, In x T -> get standings x <> None).
    { intros x Hx. apply get_key_some. eapply Permutation_in; [ | exact Hx].
      symmetry. exact Hperm. }
    assert (H0 : 0 <= low) by (apply Hlow; lia).
    destruct (add_rows_in_table standings T team low 7 HndT Hkeys low None []
                H0 ltac:(lia)) as (rs & Hfold & Hrows).
    replace (low + Z.of_nat 7) with high in Hfold by lia.
    rewrite Hfold. cbn [app].
    assert (Hlen7 : length rs = 7%nat).
    { apply Forall2_length in Hrows. rewrite <- Hrows.
      rewrite length_firstn, length_skipn. lia. }
    pose proof (indexOf_bounds T team) as Hb.
    exists rs.
    destruct (in_dec (list_eq_dec N.eq_dec) team (map fst standings)) as [Hin|Hnin].
    + assert (HinT : In team T) by (eapply Permutation_in; eassumption).
      pose proof (indexOf_In T team HinT) as Hi0.
      specialize (Hpresent ltac:(lia) Hi0).
      destruct (Z.leb_spec low (TableSnippet.indexOf T team)); [ | lia].
      destruct (Z.ltb_spec (TableSnippet.indexOf T team) high); [ | lia].
      cbn [andb]. split; [reflexivity | ]. split; [exact Hlen7 | ].
      split; [exact Hrows | ]. split; [ | contradiction].
      intros _.
      set (i := TableSnippet.indexOf T team) in *.
      destruct (index_in_range T i ltac:(lia)) as (x & Hx & _).
      assert (Ex : x = team).
      { apply jsstring_eqb_spec. apply (index_is_indexOf T team x i HndT Hx). reflexivity. }
      subst x.
      assert (Hnth : nth_error (firstn 7 (skipn (Z.to_nat low) T)) (Z.to_nat (i - low))
                     = Some team).
      { rewrite nth_error_firstn.
        destruct (Nat.ltb_spec (Z.to_nat (i - low)) 7); [ | lia].
        rewrite nth_error_skipn.
        replace (Z.to_nat low + Z.to_nat (i - low))%nat with (Z.to_nat i) by lia.
        unfold index in Hx. destruct (i <? 0); [discriminate | exact Hx]. }
      clear - Hrows Hnth.
      revert Hnth. generalize (Z.to_nat (i - low)) as k.
      induction Hrows as [|n r names rs (s & _ & ->) _ IH]; intros [|k] Hk;
        cbn in *; try discriminate.
      * injection Hk as ->. reflexivity.
      * apply IH. exact Hk.
    + assert (HninT : ~ In team T).
      { intros HinT. apply Hnin. eapply Permutation_in; [ | exact HinT].
        symmetry. exact Hperm. }
      assert (Hi : TableSnippet.indexOf T team = -1).
      { destruct (Z_le_gt_dec 0 (TableSnippet.indexOf T team)) as [Hp|Hp]; [ | lia].
        destruct (index_in_range T (TableSnippet.indexOf T team) ltac:(lia)) as (x & Hx & HxT).
        exfalso. apply HninT.
        assert (E : jsstring_eqb x team = true)
          by (apply (index_is_indexOf T team x _ HndT Hx); reflexivity).
        apply jsstring_eqb_spec in E. subst x. exact HxT. }
      rewrite Hi.
      destruct (Z.leb_spec low (-1)); [lia | ]. cbn [andb].
      split; [reflexivity | ]. split; [exact Hlen7 | ].
      split; [exact Hrows | ]. split; [contradiction | ].
      intros _. apply (Habsent ltac:(lia) Hi).
Qed.

Definition sample_standings : object Snippet.standing :=
  map (fun '(name, pos, pts) =>
         (js name, {| Snippet.position := pos; Snippet.points := pts; Snippet.gD := 0 |}))
      [("Fulham", 4, 60); ("Arsenal", 1, 80); ("Chelsea", 3, 65); ("Everton", 8, 30);
       ("Liverpool", 2, 70); ("Leeds United", 6, 40); ("Newcastle United", 5, 50);
       ("Tottenham Hotspur", 7, 35)]%string.

Lemma buildTableSnippet_rows_witness :
  Snippet.buildTableSnippet (firstn 3 sample_standings) (js "Arsenal") = None /\
  exists rows,
    Snippet.buildTableSnippet sample_standings (js "Everton") =
    Some {| Snippet.teamTableIdx := Some 6; Snippet.rows := rows |} /\
    length rows = 7%nat.
Proof.
  split.
  - refine (proj1 (buildTableSnippet_rows (firstn 3 sample_standings) (js "Arsenal") _) _ _).
    + vm_compute. repeat constructor; intros H;
        repeat destruct H as [H|H]; try discriminate H; auto.
    + vm_compute. lia.
    + vm_compute. intros H. repeat destruct H as [H|H]; try discriminate H; auto.
  - assert (Hnd : NoDup (map fst sample_standings)).
    { vm_compute. repeat constructor; intros H;
        repeat destruct H as [H|H]; try discriminate H; auto. }
    destruct (proj2 (buildTableSnippet_rows sample_standings (js "Everton") Hnd)
                ltac:(vm_compute; lia)) as (rows & E & L & _).
    exists rows. split; [ | exact L].
    rewrite E. reflexivity.
Defined.

(** ** The accuracy of the predictions *)

Lemma round_inject_Z (z : Z) : Predictions.round (inject_Z z) = z.
Proof.
  unfold Predictions.round.
  assert (H : (inject_Z z <= inject_Z z + (1 # 2) < inject_Z (z + 1))%Q).
  { rewrite inject_Z_plus. split.
    - rewrite <- (Qplus_0_r (inject_Z z)) at 1. apply Qplus_le_r. discriminate.
    - apply Qplus_lt_r. reflexivity. }
  destruct H as [Hlo Hhi].
  pose proof (Qfloor_le (inject_Z z + (1 # 2))) as Hf.
  pose proof (Qlt_floor (inject_Z z + (1 # 2))) as Hc.
  assert (H1 : (inject_Z (Qfloor (inject_Z z + (1 # 2))) < inject_Z (z + 1))%Q)
    by (eapply Qle_lt_trans; eassumption).
  assert (H2 : (inject_Z z < inject_Z (Qfloor (inject_Z z + (1 # 2)) + 1))%Q)
    by (eapply Qle_lt_trans; eassumption).
  rewrite <- Zlt_Qlt in H1, H2. lia.
Qed.

Lemma round_of_integer (x : Q) (z : Z) :
  Qeq_bool (inject_Z z) x = true -> Predictions.round x = z.
Proof.
  intros E. apply Qeq_bool_iff in E.
  unfold Predictions.round. rewrite <- E. apply round_inject_Z.
Qed.

Lemma identicalScore_same (p a : scoreline) :
  identicalScore p a = true -> sameResult p a = true.
Proof.
  unfold identicalScore, sameResult. intros H.
  apply andb_true_iff in H as [Hh Ha].
  rewrite (round_of_integer _ _ Hh), (round_of_integer _ _ Ha).
  set (x := Predictions.round (Predictions.homeGoals p)).
  set (y := Predictions.round (Predictions.awayGoals p)).
  destruct (Z.gtb_spec x y); destruct (Z.eqb_spec x y); destruct (Z.ltb_spec x y);
    cbn; try reflexivity; lia.
Qed.

(** X21: a prediction with the identical score has the same result: the
    test for green in [insertExtras] never takes a prediction that the
    test for yellow would refuse. *)
Theorem identicalScore_implies_sameResult (p a : scoreline) :
  identicalScore p a = true -> sameResult p a = true.
Proof. intros H. apply identicalScore_same. exact H. Qed.

Lemma identicalScore_implies_sameResult_witness :
  sameResult {| Predictions.homeGoals := 22 # 10; Predictions.awayGoals := 7 # 10 |}
             {| Predictions.homeGoals := 2; Predictions.awayGoals := 1 |} = true.
Proof.
  apply identicalScore_implies_sameResult. reflexivity.
Defined.

(** The predicted and the actual score of a prediction that has one. *)
Definition outcome_of (h : heap) (r : ref) : option (scoreline * scoreline) :=
  match read h r with
  | Some (PredictionObj p) =>
      match actual p with
      | Some a => Some (predicted p, a)
      | None => None
      end
  | _ => None
  end.

(** The predictions of a day. *)
Definition day_predictions (h : heap) (d : ref) : list ref :=
  match read h d with
  | Some (DayObj _ preds) =>
      match read h preds with
      | Some (ArrayObj elements) => elements
      | _ => []
      end
  | _ => []
  end.

Definition outcomes (h : heap) (preds : list ref) : list (scoreline * scoreline) :=
  flat_map (fun r => match outcome_of h r with Some x => [x] | None => [] end) preds.

(** The finished predictions of the days, one for every time a
    prediction is listed. *)
Definition finished (h : heap) (days : list ref) : list (scoreline * scoreline) :=
  outcomes h (flat_map (day_predictions h) days).

Definition how_many {A} (f : A -> bool) (l : list A) : Z :=
  Z.of_nat (length (filter f l)).

(** A heap that differs from another by colours only. *)
Definition same_matches (h h' : heap) : Prop :=
  forall r,
    match read h r with
    | Some (PredictionObj p) =>
        exists p', read h' r = Some (PredictionObj p') /\
                   predicted p' = predicted p /\ actual p' = actual p
    | c => read h' r = c
    end.

Lemma same_matches_refl (h : heap) : same_matches h h.
Proof.
  intros r. destruct (read h r) as [[p| | |]|]; try reflexivity.
  exists p. auto.
Qed.

Lemma same_matches_trans (h1 h2 h3 : heap) :
  same_matches h1 h2 -> same_matches h2 h3 -> same_matches h1 h3.
Proof.
  intros H12 H23 r. specialize (H12 r). specialize (H23 r).
  destruct (read h1 r) as [[p| | |]|].
  - destruct H12 as (p2 & R2 & P2 & A2). rewrite R2 in H23.
    destruct H23 as (p3 & R3 & P3 & A3). exists p3. split; [exact R3 | ].
    split; congruence.
  - rewrite H12 in H23. exact H23.
  - rewrite H12 in H23. exact H23.
  - rewrite H12 in H23. exact H23.
  - rewrite H12 in H23. exact H23.
Qed.

Lemma same_matches_outcome (h h' : heap) (r : ref) :
  same_matches h h' -> outcome_of h' r = outcome_of h r.
Proof.
  intros H. specialize (H r). unfold outcome_of.
  destruct (read h r) as [[p| | |]|].
  - destruct H as (p' & -> & -> & ->). reflexivity.
  - rewrite H. reflexivity.
  - rewrite H. reflexivity.
  - rewrite H. reflexivity.
  - rewrite H. reflexivity.
Qed.

Lemma same_matches_day (h h' : heap) (d : ref) :
  same_matches h h' -> day_predictions h' d = day_predictions h d.
Proof.
  intros H. unfold day_predictions. pose proof (H d) as Hd.
  destruct (read h d) as [[p|id preds|l|preds acc]|].
  - destruct Hd as (p' & -> & _). reflexivity.
  - rewrite Hd. pose proof (H preds) as Hp.
    destruct (read h preds) as [[p| | |]|].
    + destruct Hp as (p' & -> & _). reflexivity.
    + rewrite Hp. reflexivity.
    + rewrite Hp. reflexivity.
    + rewrite Hp. reflexivity.
    + rewrite Hp. reflexivity.
  - rewrite Hd. reflexivity.
  - rewrite Hd. reflexivity.
  - rewrite Hd. reflexivity.
Qed.

(** What one finished prediction adds to the counters. *)
Definition tick (n : counters) (o : scoreline * scoreline) : counters :=
  let '(p, a) := o in
  {| scoreCorrect := scoreCorrect n + (if identicalScore p a then 1 else 0);
     resultCorrect := resultCorrect n + (if sameResult p a then 1 else 0);
     Predictions.total := Predictions.total n + 1 |}.

Lemma mark_counts (h h' : heap) (n n' : counters) (r : ref) :
  mark h n r = Some (h', n') ->
  same_matches h h' /\ n' = fold_left tick (outcomes h [r]) n.
Proof.
  unfold mark, outcomes, outcome_of. cbn [flat_map].
  destruct (read h r) as [[p| | |]|] eqn:Er; try discriminate.
  destruct (actual p) as [a|] eqn:Ea.
  - assert (Hframe : forall c h1,
              write h r (PredictionObj (set_colour p c)) = Some h1 -> same_matches h h1).
    { intros c h1 Hw r'. rewrite (read_write _ _ _ r' _ Hw).
      destruct (Nat.eqb_spec r' r) as [->|Hne].
      - rewrite Er. eexists. split; [reflexivity | ]. split; reflexivity.
      - destruct (read h r') as [[p'| | |]|]; try reflexivity.
        exists p'. auto. }
    cbn [app fold_left tick].
    destruct (identicalScore (predicted p) a) eqn:Ei.
    + rewrite (identicalScore_same _ _ Ei).
      destruct (write h r _) as [h1|] eqn:Ew; [ | discriminate].
      intros [= <- <-]. split; [eapply Hframe; eassumption | ].
      f_equal; lia.
    + destruct (sameResult (predicted p) a).
      * destruct (write h r _) as [h1|] eqn:Ew; [ | discriminate].
        intros [= <- <-]. split; [eapply Hframe; eassumption | ].
        destruct n; cbn; f_equal; lia.
      * destruct (write h r _) as [h1|] eqn:Ew; [ | discriminate].
        intros [= <- <-]. split; [eapply Hframe; eassumption | ].
        destruct n; cbn; f_equal; lia.
  - intros [= <- <-]. split; [apply same_matches_refl | reflexivity].
Qed.

Lemma outcomes_app (h : heap) (l l' : list ref) :
  outcomes h (l ++ l') = outcomes h l ++ outcomes h l'.
Proof. unfold outcomes. apply flat_map_app. Qed.

Lemma outcomes_frame (h h' : heap) (l : list ref) :
  same_matches h h' -> outcomes h' l = outcomes h l.
Proof.
  intros H. unfold outcomes. induction l as [|r l IH]; [reflexivity | ].
  cbn [flat_map]. rewrite IH, (same_matches_outcome h h' r H). reflexivity.
Qed.

Lemma mark_all_counts (preds : list ref) (h h' : heap) (n n' : counters) :
  mark_all h n preds = Some (h', n') ->
  same_matches h h' /\ n' = fold_left tick (outcomes h preds) n.
Proof.
  revert h n. induction preds as [|r preds IH]; intros h n; cbn [mark_all].
  - intros [= <- <-]. split; [apply same_matches_refl | reflexivity].
  - destruct (mark h n r) as [[h1 n1]|] eqn:Em; [ | discriminate].
    intros Hrest. destruct (mark_counts _ _ _ _ _ Em) as [F1 ->].
    destruct (IH _ _ Hrest) as [F2 ->].
    split; [eapply same_matches_trans; eassumption | ].
    change (r :: preds) with ([r] ++ preds).
    rewrite outcomes_app, fold_left_app, (outcomes_frame h h1 preds F1). reflexivity.
Qed.

Lemma finished_frame (h h' : heap) (days : list ref) :
  same_matches h h' -> finished h' days = finished h days.
Proof.
  intros H. unfold finished. rewrite (outcomes_frame h h' _ H). f_equal.
  induction days as [|d days IH]; [reflexivity | ].
  cbn [flat_map]. rewrite IH, (same_matches_day h h' d H). reflexivity.
Qed.

Lemma mark_days_counts (days : list ref) (h h' : heap) (n n' : counters) :
  mark_days h n days = Some (h', n') ->
  same_matches h h' /\ n' = fold_left tick (finished h days) n.
Proof.
  revert h n. induction days as [|d days IH]; intros h n; cbn [mark_days].
  - intros [= <- <-]. split; [apply same_matches_refl | reflexivity].
  - destruct (read h d) as [[|id preds| |]|] eqn:Ed; try discriminate.
    destruct (read h preds) as [[| |elements|]|] eqn:Ep; try discriminate.
    destruct (mark_all h n elements) as [[h1 n1]|] eqn:Em; [ | discriminate].
    intros Hrest. destruct (mark_all_counts _ _ _ _ _ Em) as [F1 ->].
    destruct (IH _ _ Hrest) as [F2 ->].
    split; [eapply same_matches_trans; eassumption | ].
    rewrite (finished_frame h h1 days F1).
    unfold finished. cbn [flat_map]. unfold day_predictions at 2. rewrite Ed, Ep.
    rewrite outcomes_app, fold_left_app. reflexivity.
Qed.

Lemma tick_counts (l : list (scoreline * scoreline)) (n : counters) :
  fold_left tick l n =
  {| scoreCorrect := scoreCorrect n + how_many (fun '(p, a) => identicalScore p a) l;
     resultCorrect := resultCorrect n + how_many (fun '(p, a) => sameResult p a) l;
     Predictions.total := Predictions.total n + Z.of_nat (length l) |}.
Proof.
  unfold how_many. revert n. induction l as [|[p a] l IH]; intros n.
  - cbn. destruct n; cbn; f_equal; lia.
  - cbn [fold_left]. rewrite IH. cbn [tick filter scoreCorrect resultCorrect Predictions.total].
    destruct (identicalScore p a); destruct (sameResult p a); cbn [length];
      f_equal; lia.
Qed.

(** X22: when [insertExtras] returns, the accuracy it stores counts the
    finished predictions of the page, those with an actual score, one for
    every time a prediction is listed: [scoreAccuracy] is the share of
    them with the identical score and [resultAccuracy] the share with the
    same result, so the first is never above the second; with no
    finished prediction both are 0 / 0, not a number. *)
Theorem insertExtras_accuracy (h h' : heap) (json : ref) :
  insertExtras h json = Some h' ->
  exists preds acc days,
    read h json = Some (PageObj preds acc) /\
    read h preds = Some (ArrayObj days) /\
    let done := finished h days in
    let n := Z.of_nat (length done) in
    let exact := how_many (fun '(p, a) => identicalScore p a) done in
    let right := how_many (fun '(p, a) => sameResult p a) done in
    read h' json =
      Some (PageObj preds (Some {| scoreAccuracy := ratio exact n;
                                   resultAccuracy := ratio right n |})) /\
    0 <= exact <= right /\ right <= n /\
    (n = 0 -> ratio exact n = None /\ ratio right n = None).
Proof.
  unfold insertExtras.
  destruct (read h json) as [[| | |preds acc]|] eqn:Ej; try discriminate.
  destruct (read h preds) as [[| |days|]|] eqn:Ep; try discriminate.
  destruct (mark_days h _ days) as [[h1 n]|] eqn:Em; [ | discriminate].
  intros Hw. exists preds, acc, days.
  split; [first [exact Ej | reflexivity] | ]. split; [first [exact Ep | reflexivity] | ].
  cbn zeta. destruct (mark_days_counts _ _ _ _ _ Em) as [_ ->].
  rewrite tick_counts in Hw. cbn [scoreCorrect resultCorrect Predictions.total Z.add] in Hw.
  split; [rewrite (read_write _ _ _ json _ Hw), Nat.eqb_refl; reflexivity | ].
  unfold how_many.
  set (done := finished h days).
  assert (Hle : (length (filter (fun '(p, a) => identicalScore p a) done)
                 <= length (filter (fun '(p, a) => sameResult p a) done))%nat).
  { induction done as [|[p a] l IH]; [reflexivity | ]. cbn [filter].
    destruct (identicalScore p a) eqn:Ei.
    - rewrite (identicalScore_same _ _ Ei). cbn [length]. lia.
    - destruct (sameResult p a); cbn [length]; lia. }
  pose proof (filter_length_le (fun '(p, a) => sameResult p a) done) as Hle2.
  split; [lia | ]. split; [lia | ].
  intros H0. unfold ratio. rewrite H0. split; reflexivity.
Qed.

Lemma insertExtras_accuracy_witness :
  exists h',
    insertExtras (sample_heap ++ [PageObj 0%nat None]) 7%nat = Some h' /\
    exists preds acc days,
      read (sample_heap ++ [PageObj 0%nat None]) 7%nat = Some (PageObj preds acc) /\
      read (sample_heap ++ [PageObj 0%nat None]) preds = Some (ArrayObj days) /\
      let done := finished (sample_heap ++ [PageObj 0%nat None]) days in
      let n := Z.of_nat (length done) in
      let exact := how_many (fun '(p, a) => identicalScore p a) done in
      let right := how_many (fun '(p, a) => sameResult p a) done in
      read h' 7%nat =
        Some (PageObj preds (Some {| scoreAccuracy := ratio exact n;
                                     resultAccuracy := ratio right n |})) /\
      0 <= exact <= right /\ right <= n /\
      (n = 0 -> ratio exact n = None /\ ratio right n = None).
Proof.
  eexists. split.
  - vm_compute. reflexivity.
  - apply insertExtras_accuracy. vm_compute. reflexivity.
Defined.

(** ** How a load of the dashboard ends *)

Section DashboardOutcome.

Context {Json Matchday Dates : Type}.
Variable standings_keys : Json -> option (list jsstring).
Variable toTitleCase : jsstring -> jsstring.
Variable toHyphenatedName : jsstring -> jsstring.
Variable currentMatchday : Json -> jsstring -> option Matchday.
Variable playedMatchdayDates : Json -> jsstring -> option Dates.
Variable location_href : jsstring.

Let init :=
  Dashboard.initDashboard Json Matchday Dates standings_keys toTitleCase toHyphenatedName
    currentMatchday playedMatchdayDates location_href.

Let select :=
  Dashboard.select_team Json Matchday Dates toHyphenatedName currentMatchday
    playedMatchdayDates location_href.

(** An effect on the address of the page. *)
Definition is_navigation (e : Dashboard.effect) : bool :=
  match e with
  | Dashboard.PushState _ | Dashboard.SetLocation _ => true
  | _ => false
  end.

Lemma select_team_navigates (json : Json) (keys : list jsstring)
  (c : Dashboard.component Json Matchday Dates) :
  forallb is_navigation (snd (fst (select json keys c))) = true.
Proof.
  unfold select, Dashboard.select_team.
  cbn [Dashboard.hyphenatedTeam Dashboard.team Dashboard.teams Dashboard.data].
  destruct (Dashboard.hyphenatedTeam _ _ _ c) as [h|].
  - destruct (negb (Dashboard.is_overview (Dashboard.team _ _ _ c) (js "Overview")) &&
              negb match Dashboard.team _ _ _ c with
                   | Some t => existsb (jsstring_eqb t) keys
                   | None => false
                   end);
      cbn [Dashboard.hyphenatedTeam Dashboard.team Dashboard.teams Dashboard.data];
      (destruct (negb (Dashboard.is_overview (Dashboard.team _ _ _ c) (js "Overview")));
       [destruct (Dashboard.team _ _ _ c) as [t|]; [ | reflexivity];
        destruct (currentMatchday json t); [ | reflexivity];
        destruct (playedMatchdayDates json t); reflexivity
       | reflexivity]).
  - destruct (nth_error keys 0) as [name|]; [ | reflexivity].
    cbn [Dashboard.hyphenatedTeam Dashboard.team Dashboard.teams Dashboard.data].
    destruct (negb (Dashboard.is_overview (Some name) (js "Overview"))); [ | reflexivity].
    destruct (currentMatchday json name); [ | reflexivity].
    destruct (playedMatchdayDates json name); reflexivity.
Qed.

(** X23: a call of [initDashboard] on a page without data assigns [data]
    exactly when it runs to its end, and then [data] is the fetched
    object and the call logs it and dispatches the resize event last.
    When the call is rejected, by the network or by a statement that
    throws, [data] stays undefined and neither the log nor the event
    happens: the page keeps its spinner. *)
Theorem initDashboard_data_iff_fulfilled (net : Dashboard.response Json)
  (c : Dashboard.component Json Matchday Dates) :
  Dashboard.data _ _ _ c = None ->
  let c' := fst (fst (init net c)) in
  let effects := snd (fst (init net c)) in
  let outcome := snd (init net c) in
  (outcome = Dashboard.Fulfilled ->
   exists json navigation,
     net = Dashboard.Body Json (Some json) /\
     Dashboard.data _ _ _ c' = Some json /\
     forallb is_navigation navigation = true /\
     effects = Dashboard.Fetch Dashboard.TEAMS_URL :: navigation
               ++ [Dashboard.ConsoleLog; Dashboard.DispatchResize]) /\
  (outcome = Dashboard.Rejected ->
   Dashboard.data _ _ _ c' = None /\
   Dashboard.loading_spinner _ _ _ c' = true /\
   forallb (fun e => Dashboard.is_fetch e || is_navigation e) effects = true).
Proof.
  intros Hdata. cbn zeta. unfold init, Dashboard.initDashboard.
  assert (Hname : Dashboard.data _ _ _ (Dashboard.name_page _ _ _ toTitleCase c) = None).
  { unfold Dashboard.name_page.
    destruct (Dashboard.is_overview (Dashboard.hyphenatedTeam _ _ _ c) (js "overview"));
      [exact Hdata | ].
    destruct (Dashboard.hyphenatedTeam _ _ _ c); exact Hdata. }
  set (c0 := Dashboard.name_page _ _ _ toTitleCase c) in *.
  assert (Hrej : forall c1 : Dashboard.component Json Matchday Dates,
            Dashboard.data _ _ _ c1 = None ->
            Dashboard.loading_spinner _ _ _ c1 = true).
  { intros c1 H1. unfold Dashboard.loading_spinner. rewrite H1. reflexivity. }
  destruct net as [|[json|]].
  - cbn [fst snd]. split; [discriminate | intros _; auto].
  - destruct (standings_keys json) as [keys|].
    + pose proof (select_team_navigates json keys c0) as Hnav.
      pose proof (select_team_frame toHyphenatedName currentMatchday playedMatchdayDates
                    location_href json keys c0) as [_ Hframe].
      fold select in Hframe. unfold select in Hnav, Hframe.
      destruct (Dashboard.select_team Json Matchday Dates toHyphenatedName currentMatchday
                  playedMatchdayDates location_href json keys c0)
        as [[c1 effects] outcome].
      cbn [fst snd] in Hnav, Hframe.
      destruct outcome; cbn [fst snd].
      * split; [ | discriminate]. intros _. exists json, effects.
        repeat split. exact Hnav.
      * split; [discriminate | ]. intros _.
        assert (H1 : Dashboard.data _ _ _ c1 = None) by congruence.
        split; [exact H1 | split; [apply Hrej; exact H1 | ]].
        cbn [forallb Dashboard.is_fetch orb andb].
        clear - Hnav. induction effects as [|e effects IH]; [reflexivity | ].
        cbn [forallb] in *. apply andb_true_iff in Hnav as [He Hrest].
        rewrite He, orb_true_r, (IH Hrest). reflexivity.
    + cbn [fst snd]. split; [discriminate | intros _; auto].
  - cbn [fst snd]. split; [discriminate | intros _; auto].
Qed.

(** X24: when the page is opened for a team that is not in the standings,
    [initDashboard] sets the location to the error page and goes on: it
    still asks for the matchdays of that team, so when the helper throws,
    as it does for a team without form, the call is rejected after the
    redirection and [data] is not assigned. *)
Theorem initDashboard_unknown_team (json : Json) (keys : list jsstring)
  (c : Dashboard.component Json Matchday Dates) (h : jsstring) :
  Dashboard.hyphenatedTeam _ _ _ c = Some h ->
  jsstring_eqb h (js "overview") = false ->
  let t := toTitleCase (Dashboard.hyphens_to_spaces h) in
  jsstring_eqb t (js "Overview") = false ->
  existsb (jsstring_eqb t) keys = false ->
  standings_keys json = Some keys ->
  let c' := fst (fst (init (Dashboard.Body Json (Some json)) c)) in
  let effects := snd (fst (init (Dashboard.Body Json (Some json)) c)) in
  let outcome := snd (init (Dashboard.Body Json (Some json)) c) in
  firstn 2 effects =
    [Dashboard.Fetch Dashboard.TEAMS_URL; Dashboard.SetLocation (js "/error")] /\
  Dashboard.team _ _ _ c' = Some t /\
  (currentMatchday json t = None ->
   outcome = Dashboard.Rejected /\
   effects = [Dashboard.Fetch Dashboard.TEAMS_URL; Dashboard.SetLocation (js "/error")] /\
   Dashboard.data _ _ _ c' = Dashboard.data _ _ _ c).
Proof.
  intros Hh Hov. cbn zeta. intros Ht Hkeys Hstand.
  unfold init, Dashboard.initDashboard, Dashboard.name_page.
  rewrite Hh. cbn [Dashboard.is_overview]. rewrite Hov, Hstand.
  unfold Dashboard.select_team.
  cbn [Dashboard.hyphenatedTeam Dashboard.team Dashboard.teams Dashboard.data
       Dashboard.title Dashboard.currentMatchday_1 Dashboard.playedDates
       Dashboard.is_overview].
  rewrite Ht, Hkeys. cbn [negb andb].
  cbn [Dashboard.hyphenatedTeam Dashboard.team Dashboard.teams Dashboard.data
       Dashboard.title Dashboard.currentMatchday_1 Dashboard.playedDates
       Dashboard.is_overview].
  rewrite ?Ht. cbn [negb].
  destruct (currentMatchday json (toTitleCase (Dashboard.hyphens_to_spaces h))) as [m|].
  - destruct (playedMatchdayDates json (toTitleCase (Dashboard.hyphens_to_spaces h)));
      cbn [fst snd firstn app Dashboard.team];
      (split; [reflexivity | split; [reflexivity | intros H; discriminate H]]).
  - cbn [fst snd firstn Dashboard.team Dashboard.data]. repeat split.
Qed.

End DashboardOutcome.

Lemma initDashboard_data_iff_fulfilled_witness :
  let init := Dashboard.initDashboard nat unit unit
                (fun _ => Some [js "Arsenal"]) (fun s => s) (fun s => s)
                (fun _ _ => Some tt) (fun _ _ => Some tt) (js "/") in
  Dashboard.data _ _ _ (fst (fst (init (Dashboard.Body nat (Some 5%nat))
                                       (Dashboard.created nat unit unit None)))) =
  Some 5%nat /\
  Dashboard.data _ _ _ (fst (fst (init (Dashboard.NetworkError nat)
                                       (Dashboard.created nat unit unit None)))) =
  None.
Proof.
  cbn zeta. split.
  - destruct (proj1 (initDashboard_data_iff_fulfilled
                       (fun _ => Some [js "Arsenal"]) (fun s => s) (fun s => s)
                       (fun _ _ => Some tt) (fun _ _ => Some tt) (js "/")
                       (Dashboard.Body nat (Some 5%nat))
                       (Dashboard.created nat unit unit None) eq_refl) eq_refl)
      as (json & navigation & Hnet & Hdata & _).
    injection Hnet as <-. exact Hdata.
  - exact (proj1 (proj2 (initDashboard_data_iff_fulfilled
                       (fun _ => Some [js "Arsenal"]) (fun s => s) (fun s => s)
                       (fun _ _ => Some tt) (fun _ _ => Some tt) (js "/")
                       (Dashboard.NetworkError nat)
                       (Dashboard.created nat unit unit None) eq_refl) eq_refl)).
Defined.

Lemma initDashboard_unknown_team_witness :
  let init := Dashboard.initDashboard nat unit unit
                (fun _ => Some [js "Arsenal"]) (fun s => s) (fun s => s)
                (fun _ _ => None) (fun _ _ => Some tt) (js "/") in
  snd (init (Dashboard.Body nat (Some 5%nat))
            (Dashboard.created nat unit unit (Some (js "atlantis")))) =
  Dashboard.Rejected /\
  snd (fst (init (Dashboard.Body nat (Some 5%nat))
                 (Dashboard.created nat unit unit (Some (js "atlantis"))))) =
  [Dashboard.Fetch Dashboard.TEAMS_URL; Dashboard.SetLocation (js "/error")].
Proof.
  cbn zeta.
  destruct (proj2 (proj2 (initDashboard_unknown_team
                     (fun _ => Some [js "Arsenal"]) (fun s => s) (fun s => s)
                     (fun _ _ => None) (fun _ _ => Some tt) (js "/")
                     5%nat [js "Arsenal"]
                     (Dashboard.created nat unit unit (Some (js "atlantis")))
                     (js "atlantis") eq_refl eq_refl eq_refl eq_refl eq_refl)) eq_refl)
    as (Hout & Heff & _).
  split; [exact Hout | exact Heff].
Defined.

(** ** The marker of the next game *)

Lemma at_assign_other {A} (a : Arr.sparse A) (i j : nat) (x : option A) :
  j <> i -> Arr.at_ (Arr.assign a i x) j = Arr.at_ a j.
Proof.
  intros Hne. unfold Arr.at_, Arr.assign.
  destruct (Nat.lt_ge_cases j i) as [Hlt|Hge].
  - destruct (Nat.lt_ge_cases j (length a)) as [Hin|Hout].
    + rewrite nth_error_app1 by (rewrite length_firstn; lia).
      rewrite nth_error_firstn.
      destruct (Nat.ltb_spec j i); [reflexivity | lia].
    + rewrite nth_error_app2 by (rewrite length_firstn; lia).
      rewrite length_firstn.
      rewrite nth_error_app1 by (rewrite repeat_length; lia).
      rewrite nth_error_repeat by lia.
      assert (E : nth_error a j = None) by (apply nth_error_None; lia).
      rewrite E. reflexivity.
  - rewrite app_assoc.
    rewrite nth_error_app2; rewrite length_app, length_firstn, repeat_length; [ | lia].
    replace (j - (Nat.min i (length a) + (i - length a)))%nat with (S (j - S i)) by lia.
    cbn [nth_error]. rewrite nth_error_skipn.
    replace (S i + (j - S i))%nat with j by lia. reflexivity.
Qed.

(** The date at index [k] is the next one after [now]: the earliest
    later date, and the first of the array at that time. *)
Definition is_next (x : list Z) (now : Z) (k : nat) : Prop :=
  exists t, nth_error x k = Some t /\ now < t /\
            forall j t', nth_error x j = Some t' -> now < t' ->
                         t <= t' /\ (t' = t -> (k <= j)%nat).

Lemma next_game_spec (x : list Z) (now : Z) (i : nat)
  (minDiff : option Z) (idx : option nat) :
  let better t := now < t /\ match minDiff with None => True | Some m => t - now < m end in
  match FixturesGraph.next_game x now i minDiff idx with
  | Some r =>
      (Some r = idx /\ forall t, In t x -> ~ better t) \/
      (exists k t, r = (i + k)%nat /\ nth_error x k = Some t /\ better t /\
                   forall j t', nth_error x j = Some t' -> now < t' ->
                                t <= t' /\ (t' = t -> (k <= j)%nat))
  | None => idx = None /\ forall t, In t x -> ~ better t
  end.
Proof.
  cbn zeta. revert i minDiff idx. induction x as [|xi rest IH]; intros i minDiff idx.
  - cbn [FixturesGraph.next_game]. destruct idx as [r|].
    + left. split; [reflexivity | intros t []].
    + split; [reflexivity | intros t []].
  - cbn [FixturesGraph.next_game].
    destruct ((0 <? xi - now) &&
              match minDiff with None => true | Some m => xi - now <? m end) eqn:Etest.
    + apply andb_true_iff in Etest as [Hpos Hmin]. apply Z.ltb_lt in Hpos.
      assert (Hbetter : match minDiff with None => True | Some m => xi - now < m end).
      { destruct minDiff as [m|]; [apply Z.ltb_lt in Hmin; exact Hmin | exact I]. }
      specialize (IH (S i) (Some (xi - now)) (Some i)).
      destruct (FixturesGraph.next_game rest now (S i) (Some (xi - now)) (Some i)) as [r|].
      * right. destruct IH as [[Er Hnone]|(k & t & -> & Hk & [Hlt Hm] & Hleast)].
        -- injection Er as ->. exists 0%nat, xi.
           split; [lia | ]. split; [reflexivity | ]. split; [split; [lia | exact Hbetter] | ].
           intros [|j] t' Hj Ht'; cbn [nth_error] in Hj.
           ++ injection Hj as <-. split; [lia | intros _; lia].
           ++ apply nth_error_In in Hj.
              assert (Hnb := Hnone t' Hj). split; [ | intros _; lia].
              destruct (Z_le_gt_dec xi t'); [assumption | exfalso; apply Hnb; lia].
        -- exists (S k), t. split; [lia | ]. split; [exact Hk | ].
           split; [split; [exact Hlt | destruct minDiff; [lia | exact I]] | ].
           intros [|j] t' Hj Ht'; cbn [nth_error] in Hj.
           ++ injection Hj as <-. split; [lia | intros E; lia].
           ++ destruct (Hleast j t' Hj Ht') as [Hle Hfirst].
              split; [exact Hle | intros E; specialize (Hfirst E); lia].
      * destruct IH as [Hcontra _]. discriminate Hcontra.
    + assert (Hnot : ~ (now < xi /\
                        match minDiff with None => True | Some m => xi - now < m end)).
      { intros [Hlt Hm]. apply andb_false_iff in Etest as [E|E].
        - apply Z.ltb_ge in E. lia.
        - destruct minDiff as [m|]; [apply Z.ltb_ge in E; lia | discriminate E]. }
      specialize (IH (S i) minDiff idx).
      destruct (FixturesGraph.next_game rest now (S i) minDiff idx) as [r|].
      * destruct IH as [[Er Hnone]|(k & t & -> & Hk & [Hlt Hm] & Hleast)].
        -- left. split; [exact Er | ]. intros t [<-|Hin]; [exact Hnot | exact (Hnone t Hin)].
        -- right. exists (S k), t. split; [lia | ]. split; [exact Hk | ].
           split; [split; assumption | ].
           intros [|j] t' Hj Ht'; cbn [nth_error] in Hj.
           ++ injection Hj as <-.
              assert (t < xi).
              { destruct (Z_lt_ge_dec t xi); [assumption | exfalso].
                apply Hnot. split; [exact Ht' | ]. destruct minDiff; [lia | exact I]. }
              split; [lia | intros E; lia].
           ++ destruct (Hleast j t' Hj Ht') as [Hle Hfirst].
              split; [exact Hle | intros E; specialize (Hfirst E); lia].
      * destruct IH as [-> Hnone]. split; [reflexivity | ].
        intros t [<-|Hin]; [exact Hnot | exact (Hnone t Hin)].
Qed.

(** X25: [increaseNextGameMarker] gives the big size to one marker, that
    of the earliest date after [now] (the first of the array, when several
    dates share that time), and leaves every other size as it is; when no
    date is after [now], the sizes are returned unchanged. *)
Theorem increaseNextGameMarker_marks_next (sizes : Arr.sparse Z) (x : list Z)
  (now bigMarkerSize : Z) :
  let sizes' := FixturesGraph.increaseNextGameMarker sizes x now bigMarkerSize in
  (exists k, is_next x now k /\
             Arr.at_ sizes' k = Some bigMarkerSize /\
             forall j, j <> k -> Arr.at_ sizes' j = Arr.at_ sizes j) \/
  ((forall t, In t x -> t <= now) /\ sizes' = sizes).
Proof.
  cbn zeta. unfold FixturesGraph.increaseNextGameMarker.
  pose proof (next_game_spec x now 0 None None) as H. cbn zeta in H.
  destruct (FixturesGraph.next_game x now 0 None None) as [r|].
  - left. destruct H as [[Hcontra _]|(k & t & -> & Hk & [Hlt _] & Hleast)];
      [discriminate Hcontra | ].
    exists k. cbn [Nat.add]. split; [exists t; auto | ].
    split; [apply at_assign_same | intros j Hj; apply at_assign_other; exact Hj].
  - right. destruct H as [_ Hnone]. split; [ | reflexivity].
    intros t Hin. destruct (Z_le_gt_dec t now); [assumption | exfalso].
    apply (Hnone t Hin). split; [lia | exact I].
Qed.

(** ** The rank of a statistic *)

Lemma compare_desc_le (attribute : team_stats -> Q) (x y : jsstring * team_stats) :
  StatsRank.compare_desc attribute x y <= 0 <-> (attribute (snd y) <= attribute (snd x))%Q.
Proof.
  unfold StatsRank.compare_desc. rewrite Qle_alt.
  destruct (attribute (snd y) ?= attribute (snd x))%Q; split; intros H;
    try lia; try congruence; try discriminate.
Qed.

Lemma StronglySorted_nth {A} (R : A -> A -> Prop) (l : list A) (i j : nat) (x y : A) :
  StronglySorted R l -> (i < j)%nat ->
  nth_error l i = Some x -> nth_error l j = Some y -> R x y.
Proof.
  intros Hs. revert i j. induction Hs as [|z l Hs IH Hall]; intros i j Hij Hi Hj.
  - destruct i; discriminate.
  - destruct j as [|j]; [lia | ]. cbn [nth_error] in Hj.
    destruct i as [|i]; cbn [nth_error] in Hi.
    + injection Hi as ->. rewrite Forall_forall in Hall. apply Hall.
      eapply nth_error_In; eassumption.
    + apply (IH i j); [lia | assumption | assumption].
Qed.

Lemma get_some_In {V} (o : object V) (k : jsstring) (v : V) :
  get o k = Some v -> In (k, v) o.
Proof.
  induction o as [|[k' v'] o IH]; cbn [get]; [discriminate | ].
  destruct (jsstring_eqb k' k) eqn:E.
  - apply jsstring_eqb_spec in E. subst k'. intros [= ->]. left. reflexivity.
  - intros H. right. exact (IH H).
Qed.

Lemma In_get_NoDup {V} (o : object V) (k : jsstring) (v : V) :
  NoDup (map fst o) -> In (k, v) o -> get o k = Some v.
Proof.
  induction o as [|[k' v'] o IH]; intros Hnd Hin; [destruct Hin | ].
  cbn [map fst] in Hnd. inversion Hnd as [|? ? Hnotin Hnd']; subst.
  cbn [get]. destruct Hin as [E|Hin].
  - injection E as -> ->. rewrite jsstring_eqb_refl. reflexivity.
  - destruct (jsstring_eqb k' k) eqn:E.
    + apply jsstring_eqb_spec in E. subst k'. exfalso. apply Hnotin.
      apply in_map_iff. exists (k, v). auto.
    + apply IH; assumption.
Qed.

Lemma indexOf_nth (l : list jsstring) (x : jsstring) :
  NoDup l -> In x l ->
  exists i, TableSnippet.indexOf l x = Z.of_nat i /\ nth_error l i = Some x.
Proof.
  intros Hnd Hin.
  pose proof (indexOf_bounds l x) as Hb. pose proof (indexOf_In l x Hin) as H0.
  destruct (index_in_range l (TableSnippet.indexOf l x) ltac:(lia)) as (y & Hy & _).
  assert (E : jsstring_eqb y x = true)
    by (apply (index_is_indexOf l x y _ Hnd Hy); reflexivity).
  apply jsstring_eqb_spec in E. subst y.
  exists (Z.to_nat (TableSnippet.indexOf l x)). split; [lia | ].
  unfold index in Hy. destruct (TableSnippet.indexOf l x <? 0); [discriminate | exact Hy].
Qed.

Lemma indexOf_absent (l : list jsstring) (x : jsstring) :
  ~ In x l -> TableSnippet.indexOf l x = -1.
Proof.
  induction l as [|y l IH]; intros Hnin; cbn [TableSnippet.indexOf]; [reflexivity | ].
  destruct (jsstring_eqb y x) eqn:E.
  - apply jsstring_eqb_spec in E. exfalso. apply Hnin. left. exact E.
  - rewrite IH by (intros H; apply Hnin; right; exact H). reflexivity.
Qed.

(** X26: [getStatsRank] gives every team of [seasonStats] a rank from 1 to
    the number of teams, different teams different ranks, and a team with
    a strictly larger value of the attribute a strictly smaller rank.
    With [reverse] the rank is 21 minus that rank, whatever the number of
    teams, so the order of two teams is turned around.  A team that is not
    in [seasonStats] gets the rank 0, and 21 with [reverse]. *)
Theorem getStatsRank_orders (seasonStats : object team_stats)
  (attribute : team_stats -> Q) :
  NoDup (map fst seasonStats) ->
  let rank t reverse := StatsRank.getStatsRank seasonStats attribute t reverse in
  (forall t, get seasonStats t <> None ->
             1 <= rank t false <= Z.of_nat (length seasonStats)) /\
  (forall a b, get seasonStats a <> None -> get seasonStats b <> None -> a <> b ->
               rank a false <> rank b false) /\
  (forall a b ea eb,
     get seasonStats a = Some ea ->
     get seasonStats b = Some eb ->
     (attribute eb < attribute ea)%Q ->
     rank a false < rank b false /\ rank b true < rank a true) /\
  (forall t, rank t true = 21 - rank t false) /\
  (forall t, get seasonStats t = None -> rank t false = 0 /\ rank t true = 21).
Proof.
  intros Hnd. cbn zeta. unfold StatsRank.getStatsRank, StatsRank.sorted.
  set (S := sort (StatsRank.compare_desc attribute) seasonStats).
  pose proof (sort_Permutation (StatsRank.compare_desc attribute) seasonStats) as Hperm.
  fold S in Hperm.
  assert (Hsorted : StronglySorted
                      (fun x y => StatsRank.compare_desc attribute x y <= 0) S).
  { apply sort_sorted.
    - intros x y. rewrite !compare_desc_le.
      destruct (Qlt_le_dec (attribute (snd x)) (attribute (snd y))) as [H|H].
      + right. apply Qlt_le_weak. exact H.
      + left. exact H.
    - intros x y z. rewrite !compare_desc_le. intros H1 H2.
      eapply Qle_trans; eassumption. }
  assert (HpermT : Permutation (map fst seasonStats) (map fst S))
    by (apply Permutation_map; exact Hperm).
  assert (HndT : NoDup (map fst S)) by (eapply Permutation_NoDup; eassumption).
  assert (Hlen : length (map fst S) = length seasonStats).
  { rewrite <- (Permutation_length HpermT). apply length_map. }
  assert (Hpos : forall t e, get seasonStats t = Some e ->
            exists i, TableSnippet.indexOf (map fst S) t = Z.of_nat i /\
                      nth_error S i = Some (t, e) /\ (i < length seasonStats)%nat).
  { intros t e Ht.
    assert (HinT : In t (map fst S)).
    { eapply Permutation_in; [exact HpermT | ].
      apply in_map_iff. exists (t, e). split; [reflexivity | apply get_some_In; exact Ht]. }
    destruct (indexOf_nth (map fst S) t HndT HinT) as (i & Hi & Hnth).
    exists i. split; [exact Hi | ].
    assert (Hlt' : (i < length (map fst S))%nat) by (apply nth_error_Some; congruence).
    split; [ | lia].
    rewrite nth_error_map in Hnth.
    destruct (nth_error S i) as [[t' e']|] eqn:En; [ | discriminate].
    cbn in Hnth. injection Hnth as ->. f_equal. f_equal.
    assert (Hin' : In (t, e') seasonStats).
    { eapply Permutation_in; [symmetry; exact Hperm | ].
      eapply nth_error_In; eassumption. }
    pose proof (In_get_NoDup seasonStats t e' Hnd Hin') as Hg. congruence. }
  split; [ | split; [ | split; [ | split]]].
  - intros t Ht. destruct (get seasonStats t) as [e|] eqn:E; [ | congruence].
    destruct (Hpos t e E) as (i & Hi & _ & Hli). rewrite Hi. lia.
  - intros a b Ha Hb Hab.
    destruct (get seasonStats a) as [ea|] eqn:Ea; [ | congruence].
    destruct (get seasonStats b) as [eb|] eqn:Eb; [ | congruence].
    destruct (Hpos a ea Ea) as (i & Hi & Hni & _).
    destruct (Hpos b eb Eb) as (j & Hj & Hnj & _).
    rewrite Hi, Hj. intros E. assert (i = j) by lia. subst j.
    rewrite Hni in Hnj. injection Hnj as E1 _. contradiction.
  - intros a b ea eb Ha Hb Hlt.
    destruct (Hpos a ea Ha) as (i & Hi & Hni & Hli).
    destruct (Hpos b eb Hb) as (j & Hj & Hnj & Hlj).
    assert (Hij : (i < j)%nat).
    { destruct (Nat.lt_trichotomy i j) as [H|[H|H]]; [exact H | | ].
      - subst j. rewrite Hni in Hnj. injection Hnj as _ E. subst eb.
        exfalso. exact (Qlt_irrefl _ Hlt).
      - pose proof (StronglySorted_nth _ S j i _ _ Hsorted H Hnj Hni) as Hle.
        apply compare_desc_le in Hle. cbn [snd] in Hle.
        exfalso. apply (Qlt_irrefl (attribute ea)).
        eapply Qle_lt_trans; eassumption. }
    rewrite Hi, Hj. split; lia.
  - intros t. reflexivity.
  - intros t Hnone.
    assert (Hnin : ~ In t (map fst S)).
    { intros Hin. apply (Permutation_in t (Permutation_sym HpermT)) in Hin.
      exact (get_key_some seasonStats t Hin Hnone). }
    rewrite (indexOf_absent _ _ Hnin). split; reflexivity.
Qed.

Definition sample_season_stats : object team_stats :=
  [(js "Arsenal", {| cleanSheetRatio := 1 # 2; noGoalRatio := 0; xC := 1; xG := 2;
                     StatsValues.played := 10 |});
   (js "Fulham", {| cleanSheetRatio := 1 # 4; noGoalRatio := 0; xC := 2; xG := 3;
                    StatsValues.played := 10 |})].

Lemma getStatsRank_orders_witness :
  let rank t reverse := StatsRank.getStatsRank sample_season_stats xG t reverse in
  (forall t, get sample_season_stats t <> None ->
             1 <= rank t false <= Z.of_nat (length sample_season_stats)) /\
  (forall a b, get sample_season_stats a <> None ->
               get sample_season_stats b <> None -> a <> b ->
               rank a false <> rank b false) /\
  (forall a b ea eb,
     get sample_season_stats a = Some ea ->
     get sample_season_stats b = Some eb ->
     (xG eb < xG ea)%Q ->
     rank a false < rank b false /\ rank b true < rank a true) /\
  (forall t, rank t true = 21 - rank t false) /\
  (forall t, get sample_season_stats t = None -> rank t false = 0 /\ rank t true = 21).
Proof.
  apply (getStatsRank_orders sample_season_stats xG).
  vm_compute. repeat constructor; intros H;
    repeat destruct H as [H|H]; try discriminate H; auto.
Defined.

Example getStatsRank_sample :
  map (fun t => (StatsRank.getStatsRank sample_season_stats xG t false,
                 StatsRank.getStatsRank sample_season_stats xG t true))
      [js "Arsenal"; js "Fulham"; js "Chelsea"]
  = [(2, 19); (1, 20); (0, 21)] /\
  StatsRank.getStatsRank [(js "Arsenal", zero_stats)] xG (js "Arsenal") false = 1 /\
  map (fun t => StatsRank.getStatsRank
                  [(js "Arsenal", zero_stats); (js "Fulham", zero_stats)] xG t false)
      [js "Arsenal"; js "Fulham"]
  = [1; 2].
Proof. repeat split. Qed.

(** ** [ordinal] outside the positive numbers *)

(** X27: for zero and for every negative number [ordinal] answers "th",
    also where English would not (-1, -22): the remainder of JavaScript
    keeps the sign, and the array has nothing at a negative index.  For
    the other numbers the answer depends on the last two digits only. *)
Theorem ordinal_nonpositive_is_th (n : Z) :
  (n <= 0 -> Format.ordinal n = js "th") /\
  (forall k, 0 <= n -> 0 <= k -> Format.ordinal (n + 100 * k) = Format.ordinal n).
Proof.
  split.
  - intros Hn. unfold Format.ordinal. cbv zeta.
    assert (Ha : -100 < Z.rem n 100 <= 0).
    { replace n with (- - n) by lia. rewrite Z.rem_opp_l by lia.
      pose proof (Z.rem_bound_pos (- n) 100 ltac:(lia) ltac:(lia)). lia. }
    destruct (Z.gtb_spec (Z.rem n 100) 20); [lia | ].
    unfold Format.ord_at, index.
    destruct (Z.ltb_spec (Z.rem n 100) 0); [reflexivity | ].
    replace (Z.rem n 100) with 0 by lia. reflexivity.
  - intros k Hn Hk. unfold Format.ordinal. cbv zeta.
    replace (Z.rem (n + 100 * k) 100) with (Z.rem n 100); [reflexivity | ].
    rewrite !Z.rem_mod_nonneg by lia.
    rewrite (Z.mul_comm 100 k), Z.mod_add by lia. reflexivity.
Qed.

Lemma ordinal_nonpositive_is_th_witness :
  Format.ordinal (-1) = js "th" /\ Format.ordinal 0 = js "th" /\
  Format.ordinal 321 = Format.ordinal 21.
Proof.
  split; [ | split].
  - exact (proj1 (ordinal_nonpositive_is_th (-1)) ltac:(lia)).
  - exact (proj1 (ordinal_nonpositive_is_th 0) ltac:(lia)).
  - exact (proj2 (ordinal_nonpositive_is_th 21) 3 ltac:(lia) ltac:(lia)).
Defined.

(** ** The bars of the clean sheets graph *)

Lemma push_match_fold (l : list fixture) (cs ncs : list Z) :
  fold_left CleanSheetsGraph.push_match l (cs, ncs) =
  (cs ++ map (fun m => if conceded m >? 0 then 0 else 1) (plays l),
   ncs ++ map (fun m => if conceded m >? 0 then 1 else 0) (plays l)).
Proof.
  revert cs ncs. induction l as [|m l IH]; intros cs ncs.
  - cbn. rewrite !app_nil_r. reflexivity.
  - cbn [fold_left]. rewrite plays_cons. unfold CleanSheetsGraph.push_match at 2.
    destruct (fx_score m) as [sc|]; [ | apply IH].
    cbn [map conceded]. unfold goalsConceded.
    destruct (atHome m).
    + destruct (StatsValues.awayGoals sc >? 0); rewrite IH, <- !app_assoc; reflexivity.
    + destruct (StatsValues.homeGoals sc >? 0); rewrite IH, <- !app_assoc; reflexivity.
Qed.

(** X28: when the team's form has the season [_id],
    [getTeamCleanSheets] returns two arrays with one entry for every
    played match of that season, in order: the first holds 1 where the
    team conceded no goal and 0 elsewhere, the second is its complement;
    when no score is negative, the ones of the first array are as many as
    [formCleanSheets] counts for that season.  When the form lacks the
    season, [getTeamCleanSheets] throws while [formCleanSheets] returns 0.
    It throws for a team without form. *)
Theorem getTeamCleanSheets_bars (d : data) (team : jsstring) :
  match form d team with
  | None => CleanSheetsGraph.getTeamCleanSheets d team = None
  | Some seasons =>
      match seasons (_id d) with
      | None =>
          CleanSheetsGraph.getTeamCleanSheets d team = None /\
          Form.formCleanSheets (form d) team (_id d) = Some 0
      | Some season =>
          let matches := plays (map snd season) in
          CleanSheetsGraph.getTeamCleanSheets d team =
            Some (map (fun m => if conceded m >? 0 then 0 else 1) matches,
                  map (fun m => if conceded m >? 0 then 1 else 0) matches) /\
          (Forall (fun m => 0 <= conceded m) matches ->
           Form.formCleanSheets (form d) team (_id d) =
           Some (total (fun m => if conceded m >? 0 then 0 else 1) matches))
      end
  end.
Proof.
  unfold CleanSheetsGraph.getTeamCleanSheets, Form.formCleanSheets.
  destruct (form d team) as [seasons|]; [ | reflexivity].
  destruct (seasons (_id d)) as [season|]; [ | split; reflexivity].
  cbn zeta. cbn [entries]. rewrite push_match_fold. cbn [app]. split; [reflexivity | ].
  intros Hnonneg. rewrite clean_sheet_fold. f_equal.
  induction (plays (map snd season)) as [|[sc home] l IH]; [reflexivity | ].
  inversion Hnonneg as [|? ? H0 Hrest]; subst.
  unfold total in *. cbn [filter map fold_right]. rewrite <- (IH Hrest).
  assert (E : conceded_none (sc, home) = negb (conceded (sc, home) >? 0)).
  { unfold conceded_none, conceded, goalsConceded in *.
    destruct home.
    - destruct (Z.eqb_spec (StatsValues.awayGoals sc) 0);
        destruct (Z.gtb_spec (StatsValues.awayGoals sc) 0); try reflexivity; lia.
    - destruct (Z.eqb_spec (StatsValues.homeGoals sc) 0);
        destruct (Z.gtb_spec (StatsValues.homeGoals sc) 0); try reflexivity; lia. }
  rewrite E. destruct (conceded (sc, home) >? 0); cbn [negb length]; lia.
Qed.

Lemma getTeamCleanSheets_bars_witness :
  CleanSheetsGraph.getTeamCleanSheets sample_data (js "Arsenal") = Some ([1; 0], [0; 1]) /\
  Form.formCleanSheets (form sample_data) (js "Arsenal") (_id sample_data) = Some 1.
Proof.
  pose proof (getTeamCleanSheets_bars sample_data (js "Arsenal")) as H.
  change (form sample_data (js "Arsenal")) with
    (Some (fun season : Z =>
       if season =? 2022 then
         Some
         [ (js "1", {| fx_score := Some {| StatsValues.homeGoals := 2;
                                           StatsValues.awayGoals := 0 |};
                       atHome := true |});
           (js "2", {| fx_score := Some {| StatsValues.homeGoals := 1;
                                           StatsValues.awayGoals := 1 |};
                       atHome := false |});
           (js "3", {| fx_score := None; atHome := true |}) ]
       else if season =? 2021 then
         Some
         [ (js "38", {| fx_score := Some {| StatsValues.homeGoals := 0;
                                            StatsValues.awayGoals := 3 |};
                        atHome := false |}) ]
       else None)) in H at 1.
  cbv beta iota zeta in H.
  change (_id sample_data) with 2022 in H at 1.
  cbv beta iota delta [Z.eqb Pos.eqb] in H.
  destruct H as [H1 H2].
  split.
  - exact H1.
  - apply H2. repeat constructor; cbn; lia.
Defined.

Example getTeamCleanSheets_sample :
  CleanSheetsGraph.getTeamCleanSheets
    {| _id := 2021; standings := []; form := form first_season_data |} (js "Arsenal")
  = None /\
  Form.formCleanSheets (form first_season_data) (js "Arsenal") 2021 = Some 0.
Proof. split; reflexivity. Qed.
